(** * Verification of the exim log cruncher

    The three variants of [main.go] share one extraction pattern and differ
    in how a parsed pair is classified and aggregated:
    - the sequential variant ([main.go]), symmetric classification;
    - the sequential variant with gzip support, symmetric classification;
    - the concurrent variant ([processFile]), sender-anchored classification.

    Go byte slices are lists of 8-bit characters, Go strings used as map keys
    are [string]s, the map [emails] is a [gmap], Go's [int] is a 64-bit
    integer whose wrap-around is written out. *)

From Stdlib Require Import ZArith Ascii String List Bool Lia.
From stdpp Require Import base option list gmap strings.

Local Open Scope list_scope.

(** ** Bytes *)

Abbreviation bytes := (list ascii).

Definition B (s : string) : bytes := list_ascii_of_string s.
Definition S_ (b : bytes) : string := string_of_list_ascii b.

Definition chNL : ascii := "010"%char.
Definition chTAB : ascii := "009"%char.
Definition chFF : ascii := "012"%char.
Definition chCR : ascii := "013"%char.
Definition chSP : ascii := " "%char.

(** ** The regular expressions of the program

    Go's [regexp] gives the match a backtracking matcher finds first
    (leftmost, then by preference of the greedy operators).  The matcher
    below is that backtracking search, written with a continuation, for the
    operators the program's pattern uses: literal characters, [.], [\S], the
    greedy [+] on a one-character class, concatenation and capture groups.

    All classes of the pattern are decided on ASCII characters and every
    byte of a multi-byte UTF-8 sequence is above 127, so matching bytes
    gives the same submatches as matching runes. *)

Module Regexp.

Inductive cclass : Type :=
| CChar (c : ascii)   (* a literal character *)
| CAnyNotNL           (* [.] : any character but newline *)
| CNotSpace.          (* [\S] : the complement of [\t\n\f\r ] *)

Definition isSpace (x : ascii) : bool :=
  Ascii.eqb x chTAB || Ascii.eqb x chNL || Ascii.eqb x chFF
  || Ascii.eqb x chCR || Ascii.eqb x chSP.

Definition cmatch (cl : cclass) (x : ascii) : bool :=
  match cl with
  | CChar c => Ascii.eqb x c
  | CAnyNotNL => negb (Ascii.eqb x chNL)
  | CNotSpace => negb (isSpace x)
  end.

Inductive re : Type :=
| REps
| RClass (cl : cclass)
| RPlus (cl : cclass)
| RCat (r1 r2 : re)
| RCap (n : nat) (r : re).

(** Greedy [cl+]: take one more character first, fall back to the
    continuation after this one. *)
Fixpoint plusLoop {A} (cl : cclass) (k : bytes -> option A) (s : bytes)
  : option A :=
  match s with
  | [] => None
  | x :: s' =>
      if cmatch cl x then
        match plusLoop cl k s' with
        | Some r => Some r
        | None => k s'
        end
      else None
  end.

Fixpoint rmatch {A} (r : re) (s : bytes) (caps : list bytes)
    (k : bytes -> list bytes -> option A) : option A :=
  match r with
  | REps => k s caps
  | RClass cl =>
      match s with
      | x :: s' => if cmatch cl x then k s' caps else None
      | [] => None
      end
  | RPlus cl => plusLoop cl (fun s' => k s' caps) s
  | RCat r1 r2 => rmatch r1 s caps (fun s1 caps1 => rmatch r2 s1 caps1 k)
  | RCap n r1 =>
      rmatch r1 s caps
        (fun s1 caps1 => k s1 (<[n := take (length s - length s1) s]> caps1))
  end.

(** A literal string is the concatenation of its characters. *)
Fixpoint RLit (l : bytes) : re :=
  match l with
  | [] => REps
  | c :: l' => RCat (RClass (CChar c)) (RLit l')
  end.

Fixpoint numSubexp (r : re) : nat :=
  match r with
  | RCat r1 r2 => numSubexp r1 `max` numSubexp r2
  | RCap n r1 => n `max` numSubexp r1
  | _ => 0
  end.

(** The match anchored at the start of [s]: submatch 0 is the whole match. *)
Definition matchHere (r : re) (s : bytes) : option (list bytes) :=
  rmatch r s (replicate (S (numSubexp r)) [])
    (fun rest caps => Some (<[0 := take (length s - length rest) s]> caps)).

(** [FindSubmatch]: the leftmost match; [None] is Go's nil slice. *)
Fixpoint FindSubmatch (r : re) (s : bytes) : option (list bytes) :=
  match matchHere r s with
  | Some m => Some m
  | None =>
      match s with
      | [] => None
      | _ :: s' => FindSubmatch r s'
      end
  end.

Definition FindStringSubmatch (r : re) (s : string) : option (list string) :=
  fmap (M:=option) (map S_) (FindSubmatch r (B s)).

Definition Match (r : re) (s : bytes) : bool :=
  bool_decide (is_Some (FindSubmatch r s)).

Definition MatchString (r : re) (s : string) : bool := Match r (B s).

End Regexp.

Import Regexp.

(** [lineMatch = regexp.MustCompile(`.+ <= (?P<from>\S+) .+ for (?P<to>\S+)`)] *)
Definition lineMatch : re :=
  RCat (RPlus CAnyNotNL)
    (RCat (RLit (B " <= "))
       (RCat (RCap 1 (RPlus CNotSpace))
          (RCat (RLit (B " "))
             (RCat (RPlus CAnyNotNL)
                (RCat (RLit (B " for "))
                   (RCap 2 (RPlus CNotSpace))))))).

(** ** Declarative reading of the pattern language *)

Module RegexpSpec.

(** [matches r p caps caps']: the string [p] is in the language of [r], and
    matching it turns the capture table [caps] into [caps']. *)
Inductive matches : re -> bytes -> list bytes -> list bytes -> Prop :=
| MEps caps : matches REps [] caps caps
| MClass cl x caps : cmatch cl x = true -> matches (RClass cl) [x] caps caps
| MPlus cl p caps :
    p <> [] -> Forall (fun x => cmatch cl x = true) p ->
    matches (RPlus cl) p caps caps
| MCat r1 r2 p1 p2 caps caps1 caps2 :
    matches r1 p1 caps caps1 -> matches r2 p2 caps1 caps2 ->
    matches (RCat r1 r2) (p1 ++ p2) caps caps2
| MCap n r p caps caps1 :
    matches r p caps caps1 -> matches (RCap n r) p caps (<[n := p]> caps1).

(** [r] ends in a greedy [cl+]. *)
Inductive endsPlus (cl : cclass) : re -> Prop :=
| EPlus : endsPlus cl (RPlus cl)
| ECat r1 r2 : endsPlus cl r2 -> endsPlus cl (RCat r1 r2)
| ECap n r : endsPlus cl r -> endsPlus cl (RCap n r).

(** The rest of the input does not start with a character of [cl]. *)
Definition stopsAt (cl : cclass) (rest : bytes) : Prop :=
  match rest with
  | [] => True
  | x :: _ => cmatch cl x = false
  end.

End RegexpSpec.

(** ** LineParser

    [matches := lineMatch.FindSubmatch(line)]; the named groups [from] and
    [to] are submatches 1 and 2.  A nil result is [None]. *)

(** [matches[i]]; every group of [lineMatch] takes part in a match, so the
    slice has three entries whenever it is not nil ([lineMatch_length]). *)
Definition idx {A} `{Inhabited A} (m : list A) (i : nat) : A :=
  default inhabitant (m !! i).

Definition lineParser (line : bytes) : option (bytes * bytes) :=
  match FindSubmatch lineMatch line with
  | Some m => Some (idx m 1, idx m 2)
  | None => None
  end.

(** A whitespace-delimited token: not empty, no whitespace inside. *)
Definition isToken (t : bytes) : Prop :=
  t <> [] /\ Forall (fun x => isSpace x = false) t.

Definition noNewline (p : bytes) : Prop := Forall (fun x => x <> chNL) p.

(** What follows a token is the end of the input or whitespace. *)
Definition tokenEnds (rest : bytes) : Prop :=
  match rest with
  | [] => True
  | x :: _ => isSpace x = true
  end.

(** The delivery-record pattern in words: some text, the marker [<=]
    between spaces, the sender token, a space, some text, the marker [for]
    between spaces, the recipient token.  The text before each marker is
    not empty and does not cross a line end. *)
Definition deliveryRecord (line from to : bytes) : Prop :=
  exists skipped pre mid rest,
    line = skipped ++ pre ++ B " <= " ++ from ++ B " " ++ mid
             ++ B " for " ++ to ++ rest
    /\ pre <> [] /\ noNewline pre
    /\ isToken from
    /\ mid <> [] /\ noNewline mid
    /\ isToken to /\ tokenEnds rest.

(** [marker] occurs at one place only in [line]. *)
Definition occursOnce (marker line : bytes) : Prop :=
  forall a b a' b',
    line = a ++ marker ++ b -> line = a' ++ marker ++ b' -> a = a'.

(** [t] is the whitespace-delimited token at the start of [s]. *)
Definition firstToken (t s : bytes) : Prop :=
  isToken t /\ exists rest, s = t ++ rest /\ tokenEnds rest.

(** ** Go integers *)

(** [int] on a 64-bit platform: two's complement, wrapping on overflow. *)
Definition maxInt : Z := 2 ^ 63 - 1.
Definition minInt : Z := - 2 ^ 63.
Definition wrapInt (z : Z) : Z := ((z + 2 ^ 63) mod 2 ^ 64 - 2 ^ 63)%Z.
Definition incr (z : Z) : Z := wrapInt (z + 1).
Definition decr (z : Z) : Z := wrapInt (z - 1).

(** [rune] is [int32]. *)
Definition wrapRune (z : Z) : Z := ((z + 2 ^ 31) mod 2 ^ 32 - 2 ^ 31)%Z.

(** ** Runes and [bytes.Map]

    [unicode/utf8.DecodeRune], [utf8.AppendRune] and [bytes.Map] of Go's
    standard library, which [processFile] calls to fold the case of an
    address. *)

Module Utf8.
Local Open Scope Z_scope.

Definition RuneError : Z := 0xFFFD.
Definition RuneSelf : Z := 0x80.
Definition MaxRune : Z := 0x10FFFF.

Definition byteVal (c : ascii) : Z := Z.of_N (N_of_ascii c).
Definition byteOf (z : Z) : ascii := ascii_of_N (Z.to_N (z mod 256)).

(** The table [first] of the decoder: for a leading byte, the length of
    the sequence and the range accepted for the second byte. *)
Definition first (p0 : Z) : option (Z * Z * Z) :=
  if (0xC2 <=? p0) && (p0 <=? 0xDF) then Some (2, 0x80, 0xBF)
  else if p0 =? 0xE0 then Some (3, 0xA0, 0xBF)
  else if (0xE1 <=? p0) && (p0 <=? 0xEC) then Some (3, 0x80, 0xBF)
  else if p0 =? 0xED then Some (3, 0x80, 0x9F)
  else if (0xEE <=? p0) && (p0 <=? 0xEF) then Some (3, 0x80, 0xBF)
  else if p0 =? 0xF0 then Some (4, 0x90, 0xBF)
  else if (0xF1 <=? p0) && (p0 <=? 0xF3) then Some (4, 0x80, 0xBF)
  else if p0 =? 0xF4 then Some (4, 0x80, 0x8F)
  else None.

Definition contByte (b : Z) : bool := (0x80 <=? b) && (b <=? 0xBF).

(** [DecodeRune p]: the first rune of [p] and its width in bytes; an
    invalid or short sequence is [(RuneError, 1)], an empty one
    [(RuneError, 0)]. *)
Definition DecodeRune (p : bytes) : Z * nat :=
  match p with
  | [] => (RuneError, 0%nat)
  | c0 :: p1 =>
      let p0 := byteVal c0 in
      if p0 <? RuneSelf then (p0, 1%nat)
      else
        match first p0 with
        | None => (RuneError, 1%nat)
        | Some (sz, lo, hi) =>
            match p1 with
            | [] => (RuneError, 1%nat)
            | c1 :: p2 =>
                let b1 := byteVal c1 in
                if (b1 <? lo) || (hi <? b1) then (RuneError, 1%nat)
                else if sz <=? 2 then
                  (Z.lor (Z.shiftl (Z.land p0 0x1F) 6) (Z.land b1 0x3F), 2%nat)
                else
                  match p2 with
                  | [] => (RuneError, 1%nat)
                  | c2 :: p3 =>
                      let b2 := byteVal c2 in
                      if negb (contByte b2) then (RuneError, 1%nat)
                      else if sz <=? 3 then
                        (Z.lor (Z.shiftl (Z.land p0 0x0F) 12)
                           (Z.lor (Z.shiftl (Z.land b1 0x3F) 6)
                              (Z.land b2 0x3F)), 3%nat)
                      else
                        match p3 with
                        | [] => (RuneError, 1%nat)
                        | c3 :: _ =>
                            let b3 := byteVal c3 in
                            if negb (contByte b3) then (RuneError, 1%nat)
                            else
                              (Z.lor (Z.shiftl (Z.land p0 0x07) 18)
                                 (Z.lor (Z.shiftl (Z.land b1 0x3F) 12)
                                    (Z.lor (Z.shiftl (Z.land b2 0x3F) 6)
                                       (Z.land b3 0x3F))), 4%nat)
                        end
                  end
            end
        end
  end.

Definition encode3 (r : Z) : bytes :=
  [byteOf (Z.lor 0xE0 (Z.shiftr r 12));
   byteOf (Z.lor 0x80 (Z.land (Z.shiftr r 6) 0x3F));
   byteOf (Z.lor 0x80 (Z.land r 0x3F))].

(** [AppendRune nil r] for a rune [r >= 0]. *)
Definition AppendRune (r : Z) : bytes :=
  if r <=? 0x7F then [byteOf r]
  else if r <=? 0x7FF then
    [byteOf (Z.lor 0xC0 (Z.shiftr r 6)); byteOf (Z.lor 0x80 (Z.land r 0x3F))]
  else if (MaxRune <? r) || ((0xD800 <=? r) && (r <=? 0xDFFF)) then
    encode3 RuneError
  else if r <=? 0xFFFF then encode3 r
  else
    [byteOf (Z.lor 0xF0 (Z.shiftr r 18));
     byteOf (Z.lor 0x80 (Z.land (Z.shiftr r 12) 0x3F));
     byteOf (Z.lor 0x80 (Z.land (Z.shiftr r 6) 0x3F));
     byteOf (Z.lor 0x80 (Z.land r 0x3F))].

(** The loop of [bytes.Map]: [i] advances by the width of the decoded rune,
    which is at least one byte, so [length s] rounds are enough. *)
Fixpoint mapLoop (rounds : nat) (mapping : Z -> Z) (s : bytes) : bytes :=
  match rounds, s with
  | S rounds', c :: _ =>
      let '(r, wid) :=
        if byteVal c <? RuneSelf then (byteVal c, 1%nat) else DecodeRune s in
      let r' := mapping r in
      (if 0 <=? r' then AppendRune r' else [])
        ++ mapLoop rounds' mapping (drop wid s)
  | _, _ => []
  end.

Definition Map (mapping : Z -> Z) (s : bytes) : bytes :=
  mapLoop (length s) mapping s.

End Utf8.

(** [const letterDiff = 'A' - 'a'] *)
Definition letterDiff : Z := (65 - 97)%Z.

(** [func toLower(r rune) rune] *)
Definition toLower (r : Z) : Z :=
  if ((65 <=? r) && (r <=? 90))%Z then wrapRune (r - letterDiff) else r.

(** ** The shared state

    The package-level variables of the concurrent variant; the sequential
    variants keep the same counters as locals of [main].  Log output is kept
    as the list of messages written so far, newest first. *)

Inductive LogEvent : Type :=
| ErrOpen (name : string)            (* "Could not open file" *)
| ErrGzip (name : string)            (* "Could not read gzipped file" *)
| ErrRead (name : string)            (* "Could not read file" *)
| InfoReading (name : string)        (* "Reading file" *)
| InfoProgress (lines matched ignored from : Z)  (* "Crunching progress" *)
| DebugFinished (name : string).     (* "Finished reading file" *)

Record State : Type := mkState {
  emails : gmap string (gmap string bool);
  lineCount : Z;
  matchCount : Z;
  ignoreCount : Z;
  fromCount : Z;
  remainingFiles : Z;
  logLineCount : Z;
  logged : list LogEvent
}.

Definition setEmails (e : gmap string (gmap string bool)) (st : State) :=
  mkState e (lineCount st) (matchCount st) (ignoreCount st) (fromCount st)
    (remainingFiles st) (logLineCount st) (logged st).
Definition setLineCount (z : Z) (st : State) :=
  mkState (emails st) z (matchCount st) (ignoreCount st) (fromCount st)
    (remainingFiles st) (logLineCount st) (logged st).
Definition setMatchCount (z : Z) (st : State) :=
  mkState (emails st) (lineCount st) z (ignoreCount st) (fromCount st)
    (remainingFiles st) (logLineCount st) (logged st).
Definition setIgnoreCount (z : Z) (st : State) :=
  mkState (emails st) (lineCount st) (matchCount st) z (fromCount st)
    (remainingFiles st) (logLineCount st) (logged st).
Definition setFromCount (z : Z) (st : State) :=
  mkState (emails st) (lineCount st) (matchCount st) (ignoreCount st) z
    (remainingFiles st) (logLineCount st) (logged st).
Definition setRemainingFiles (z : Z) (st : State) :=
  mkState (emails st) (lineCount st) (matchCount st) (ignoreCount st)
    (fromCount st) z (logLineCount st) (logged st).
Definition setLogLineCount (z : Z) (st : State) :=
  mkState (emails st) (lineCount st) (matchCount st) (ignoreCount st)
    (fromCount st) (remainingFiles st) z (logged st).
Definition logEvent (e : LogEvent) (st : State) :=
  mkState (emails st) (lineCount st) (matchCount st) (ignoreCount st)
    (fromCount st) (remainingFiles st) (logLineCount st) (e :: logged st).

(** The values of the [var] block, with [logLineCount = logFrequency] and
    [remainingFiles = len(fileNames)] as [main] sets them before the first
    worker starts. *)
Definition initState (logFrequency : Z) (files : nat) : State :=
  mkState ∅ 0 0 0 0 (Z.of_nat files) logFrequency [].

(** ** Aggregator *)

(** The statements between [writeLock.Lock()] and [writeLock.Unlock()]:
<<
    val, ok := emails[fromAsString]
    if ok { val[toAsString] = true }
    else { fromCount++; emails[fromAsString] = map[string]bool{toAsString: true} }
>>
    [val] is the map stored under the key, so the assignment through it
    changes the entry of [emails]. *)
Definition record (owner correspondent : string) (st : State) : State :=
  match emails st !! owner with
  | Some val => setEmails (<[owner := <[correspondent := true]> val]> (emails st)) st
  | None =>
      setEmails (<[owner := {[correspondent := true]}]> (emails st))
        (setFromCount (incr (fromCount st)) st)
  end.

(** The same update in the sequential variants, which have no [fromCount]. *)
Definition recordSeq (owner correspondent : string) (st : State) : State :=
  match emails st !! owner with
  | Some val => setEmails (<[owner := <[correspondent := true]> val]> (emails st)) st
  | None => setEmails (<[owner := {[correspondent := true]}]> (emails st)) st
  end.

(** The correspondents recorded for an owner (empty when it has no entry). *)
Definition correspondents (owner : string) (st : State) : gmap string bool :=
  default ∅ (emails st !! owner).

(** ** Classifier and the per-line step *)

Section Cruncher.

(** The two compiled patterns, as their [Match] predicates, and the [-log]
    flag. *)
Variable emailRegex : bytes -> bool.
Variable ignoreRegex : bytes -> bool.
Variable logFrequency : Z.

(** *** Concurrent variant, sender-anchored *)

(** What [processFile] does with one line read without error, from
    [lineMatch.FindSubmatch(line)] to [logLineCount--].  Both [continue]
    statements skip the two counter updates at the end of the loop body. *)
Definition processLine (line : bytes) (st : State) : State :=
  match FindSubmatch lineMatch line with
  | Some matches =>
      let from := idx matches 1 in
      if negb (emailRegex from) then
        setIgnoreCount (incr (ignoreCount st)) st
      else
        let to := idx matches 2 in
        if ignoreRegex to then
          setIgnoreCount (incr (ignoreCount st)) st
        else
          let fromAsString := S_ (Utf8.Map toLower from) in
          let toAsString := S_ (Utf8.Map toLower to) in
          let st := record fromAsString toAsString st in
          let st := setMatchCount (incr (matchCount st)) st in
          let st := setLineCount (incr (lineCount st)) st in
          setLogLineCount (decr (logLineCount st)) st
  | None =>
      let st := setLineCount (incr (lineCount st)) st in
      setLogLineCount (decr (logLineCount st)) st
  end.

(** *** Sequential variants, symmetric *)

Definition emailRegexMatchString (s : string) : bool := emailRegex (B s).

(** The loop body of [main] after the read, in both sequential variants:
    the first submatch is bound to [to] and the second to [from]. *)
Definition mainLine (line : string) (st : State) : State :=
  match FindStringSubmatch lineMatch line with
  | Some matches =>
      let to := idx matches 1 in
      let from := idx matches 2 in
      let toIsMatch := emailRegexMatchString to in
      let fromIsMatch := emailRegexMatchString from in
      if toIsMatch && fromIsMatch then
        setIgnoreCount (incr (ignoreCount st)) st
      else
        let st := setMatchCount (incr (matchCount st)) st in
        let st := if toIsMatch then recordSeq to from st
                  else recordSeq from to st in
        let st := setLineCount (incr (lineCount st)) st in
        setLogLineCount (decr (logLineCount st)) st
  | None =>
      let st := setLineCount (incr (lineCount st)) st in
      setLogLineCount (decr (logLineCount st)) st
  end.

End Cruncher.

(** ** FileWorker

    What a worker sees of one file is the outcome of its calls into the
    operating system and the libraries: whether [os.Open] returned an error,
    what the successive [ReadBytes] calls on a reader built on the file
    return, whether [gzip.NewReader] on the file returned an error, and what
    the successive [ReadBytes] calls on a reader built on the gzip reader
    return. *)

Inductive ReadErr : Type :=
| EOF        (* [io.EOF] *)
| IOErr.     (* any other error *)

Abbreviation ReadCalls := (nat -> bytes * option ReadErr).

Record FileEnv : Type := mkFileEnv {
  openFails : bool;
  reads : ReadCalls;
  gzipFails : bool;
  gzipReads : ReadCalls
}.

(** [filepath.Ext]: the suffix from the last dot of the last path element. *)
Fixpoint extScan (rev acc : bytes) : bytes :=
  match rev with
  | [] => []
  | c :: rev' =>
      if Ascii.eqb c "/"%char then []
      else if Ascii.eqb c "."%char then c :: acc
      else extScan rev' (c :: acc)
  end.

Definition Ext (path : string) : string := S_ (extScan (reverse (B path)) []).

Definition isGz (fileName : string) : bool := String.eqb (Ext fileName) ".gz".

(** The [*bufio.Reader] of a worker.  [None] is the reader built on a nil
    [*gzip.Reader], which is what [gzip.NewReader] returns with an error:
    reading from it dereferences the nil pointer. *)
Abbreviation Reader := (option ReadCalls).

(** A worker either returns or panics; a panic of a goroutine ends the
    process. *)
Inductive Outcome : Type :=
| Returned (st : State)
| Panicked (st : State).

Definition stateOf (o : Outcome) : State :=
  match o with Returned st | Panicked st => st end.

(** The reader of the two variants with gzip support:
<<
    if filepath.Ext(fileName) == ".gz" {
        gzReader, err := gzip.NewReader(inFile)
        if err != nil { log.Error()... }
        reader = bufio.NewReader(gzReader)
    } else { reader = bufio.NewReader(inFile) }
>> *)
Definition newReader (env : FileEnv) (fileName : string) (st : State)
  : State * Reader :=
  if isGz fileName then
    if gzipFails env then (logEvent (ErrGzip fileName) st, None)
    else (st, Some (gzipReads env))
  else (st, Some (reads env)).

Section Workers.

Variable emailRegex : bytes -> bool.
Variable ignoreRegex : bytes -> bool.
Variable logFrequency : Z.

(** *** Concurrent variant *)

(** The progress check at the head of each round of [processFile]'s loop:
<<
    if logLineCount <= 0 { logLineCount = logFrequency; log.Info()... }
>> *)
Definition progressCheck (st : State) : State :=
  if (logLineCount st <=? 0)%Z then
    logEvent (InfoProgress (lineCount st) (matchCount st)
                (ignoreCount st) (fromCount st))
      (setLogLineCount logFrequency st)
  else st.

(** The [for] loop of [processFile]; [i] counts the reads done so far.
    [None]: the loop is still running after [fuel] rounds. *)
Fixpoint readLoop (fuel : nat) (fileName : string) (reader : Reader)
    (i : nat) (st : State) : option Outcome :=
  match fuel with
  | O => None
  | S fuel' =>
      let st := progressCheck st in
      match reader with
      | None => Some (Panicked st)
      | Some calls =>
          match calls i with
          | (_, Some EOF) =>
              let st := setRemainingFiles (decr (remainingFiles st)) st in
              Some (Returned (logEvent (DebugFinished fileName) st))
          | (_, Some IOErr) => Some (Returned (logEvent (ErrRead fileName) st))
          | (line, None) =>
              readLoop fuel' fileName reader (S i)
                (processLine emailRegex ignoreRegex line st)
          end
      end
  end.

(** [func processFile(fileName string)] *)
Definition processFile (fuel : nat) (env : FileEnv) (fileName : string)
    (st : State) : option Outcome :=
  let st := if openFails env then logEvent (ErrOpen fileName) st else st in
  let '(st, reader) := newReader env fileName st in
  let st := logEvent (InfoReading fileName) st in
  readLoop fuel fileName reader 0 st.

(** The state after [n] rounds of the loop that read the lines
    [i .. i+n-1] without error. *)
Fixpoint afterLines (calls : ReadCalls) (n i : nat) (st : State) : State :=
  match n with
  | O => st
  | S n' =>
      afterLines calls n' (S i)
        (processLine emailRegex ignoreRegex (calls i).1 (progressCheck st))
  end.

(** The workers of [main] run one after the other when [-threads] is 1:
    the next [sem <- true] waits for the running worker to finish. *)
Fixpoint runFiles (fuel : nat) (fs : string -> FileEnv)
    (fileNames : list string) (st : State) : option Outcome :=
  match fileNames with
  | [] => Some (Returned st)
  | fileName :: rest =>
      match processFile fuel (fs fileName) fileName st with
      | Some (Returned st') => runFiles fuel fs rest st'
      | other => other
      end
  end.

(** *** Sequential variant without gzip ([main.go]) *)

(** The inner [for] of [main]: a read error other than [io.EOF] is logged
    and the loop goes on with whatever [ReadString] returned. *)
Fixpoint mainLoop (fuel : nat) (fileName : string) (calls : ReadCalls)
    (i : nat) (st : State) : option State :=
  match fuel with
  | O => None
  | S fuel' =>
      let st :=
        if (logLineCount st <=? 0)%Z then
          logEvent (InfoProgress (lineCount st) (matchCount st)
                      (ignoreCount st) 0) st
        else st in
      match calls i with
      | (_, Some EOF) => Some (logEvent (DebugFinished fileName) st)
      | (line, Some IOErr) =>
          mainLoop fuel' fileName calls (S i)
            (mainLine emailRegex (S_ line) (logEvent (ErrRead fileName) st))
      | (line, None) =>
          mainLoop fuel' fileName calls (S i) (mainLine emailRegex (S_ line) st)
      end
  end.

(** The outer [for _, fileName := range fileNames] of [main]. *)
Fixpoint mainFiles (fuel : nat) (fs : string -> FileEnv)
    (fileNames : list string) (st : State) : option State :=
  match fileNames with
  | [] => Some st
  | fileName :: rest =>
      let env := fs fileName in
      let st := if openFails env then logEvent (ErrOpen fileName) st else st in
      let st := logEvent (InfoReading fileName) st in
      match mainLoop fuel fileName (reads env) 0
              (setLogLineCount logFrequency st) with
      | Some st' => mainFiles fuel fs rest st'
      | None => None
      end
  end.

(** *** Sequential variant with gzip *)

(** The inner [for] with [continue FileLoop] on a read error. *)
Fixpoint gzMainLoop (fuel : nat) (fileName : string) (reader : Reader)
    (i : nat) (st : State) : option Outcome :=
  match fuel with
  | O => None
  | S fuel' =>
      let st :=
        if (logLineCount st <=? 0)%Z then
          logEvent (InfoProgress (lineCount st) (matchCount st)
                      (ignoreCount st) 0) st
        else st in
      match reader with
      | None => Some (Panicked st)
      | Some calls =>
          match calls i with
          | (_, Some EOF) =>
              Some (Returned (logEvent (DebugFinished fileName) st))
          | (_, Some IOErr) => Some (Returned (logEvent (ErrRead fileName) st))
          | (line, None) =>
              gzMainLoop fuel' fileName reader (S i)
                (mainLine emailRegex (S_ line) st)
          end
      end
  end.

Fixpoint gzMainFiles (fuel : nat) (fs : string -> FileEnv)
    (fileNames : list string) (st : State) : option Outcome :=
  match fileNames with
  | [] => Some (Returned st)
  | fileName :: rest =>
      let env := fs fileName in
      let st := if openFails env then logEvent (ErrOpen fileName) st else st in
      let '(st, reader) := newReader env fileName st in
      let st := logEvent (InfoReading fileName) st in
      match gzMainLoop fuel fileName reader 0
              (setLogLineCount logFrequency st) with
      | Some (Returned st') => gzMainFiles fuel fs rest st'
      | other => other
      end
  end.

End Workers.

(** ** Files on disk *)

(** [bufio.Reader.ReadBytes] over a byte stream that ends without an error:
    every complete line with its delimiter, then the unterminated rest
    together with [io.EOF], then nothing and [io.EOF]. *)
Fixpoint splitLines (cur s : bytes) : list bytes * bytes :=
  match s with
  | [] => ([], reverse cur)
  | c :: s' =>
      if Ascii.eqb c chNL then
        let '(ls, rest) := splitLines [] s' in
        (reverse (c :: cur) :: ls, rest)
      else splitLines (c :: cur) s'
  end.

Definition bufioReads (content : bytes) : ReadCalls :=
  fun i =>
    let '(ls, rest) := splitLines [] content in
    match ls !! i with
    | Some l => (l, None)
    | None => if Nat.eqb i (length ls) then (rest, Some EOF) else ([], Some EOF)
    end.

Definition failingReads : ReadCalls := fun _ => ([], Some IOErr).

(** A file that cannot be opened: the handle is nil and every read on it
    fails, also the read of the gzip header. *)
Definition missingFile : FileEnv :=
  mkFileEnv true failingReads true failingReads.

(** A readable file with the bytes [raw].  [gunzip] is the decompressor of
    [compress/gzip]: the decompressed stream of well-formed input, [None]
    for input that [gzip.NewReader] rejects. *)
Definition diskFile (gunzip : bytes -> option bytes) (raw : bytes) : FileEnv :=
  mkFileEnv false (bufioReads raw)
    (bool_decide (gunzip raw = None))
    (bufioReads (default [] (gunzip raw))).

(** ** Flag values used in the examples *)

(** [-email .*] (the default of the concurrent variant): matches anything. *)
Definition emailAny : bytes -> bool := fun _ => true.

(** [-ignore ^$] (the default): matches the empty text only. *)
Definition ignoreEmpty : bytes -> bool := fun b => bool_decide (b = []).

(** [-email test.com] (the default of [main.go]); the dot matches any
    character but a newline. *)
Definition emailTestCom : bytes -> bool :=
  Match (RCat (RLit (B "test")) (RCat (RClass CAnyNotNL) (RLit (B "com")))).

(** [-ignore other.com] *)
Definition ignoreOtherCom : bytes -> bool :=
  Match (RCat (RLit (B "other")) (RCat (RClass CAnyNotNL) (RLit (B "com")))).

Definition nl (s : string) : bytes := B s ++ [chNL].

(** ** Runs *)

(** The operations that change the aggregation state during a run: a
    [record] call of either variant, and the processing of one line read
    without error by either loop. *)
Inductive Op : Type :=
| OpRecord (owner correspondent : string)
| OpRecordSeq (owner correspondent : string)
| OpProcessLine (line : bytes)
| OpMainLine (line : string).

Definition applyOp (emailRegex ignoreRegex : bytes -> bool) (op : Op)
    (st : State) : State :=
  match op with
  | OpRecord o c => record o c st
  | OpRecordSeq o c => recordSeq o c st
  | OpProcessLine line => processLine emailRegex ignoreRegex line st
  | OpMainLine line => mainLine emailRegex line st
  end.

Definition runOps (emailRegex ignoreRegex : bytes -> bool) (ops : list Op)
    (st : State) : State :=
  foldl (fun st op => applyOp emailRegex ignoreRegex op st) st ops.

(** The run counters are not negative and have room for [n] more
    increments. *)
Definition countersBelow (n : nat) (st : State) : Prop :=
  (0 <= lineCount st /\ lineCount st + Z.of_nat n <= maxInt
   /\ 0 <= matchCount st /\ matchCount st + Z.of_nat n <= maxInt
   /\ 0 <= ignoreCount st /\ ignoreCount st + Z.of_nat n <= maxInt
   /\ 0 <= fromCount st /\ fromCount st + Z.of_nat n <= maxInt)%Z.

(** [st'] has every owner of [st] with at least its correspondents, and no
    smaller counter. *)
Definition grownFrom (st st' : State) : Prop :=
  (forall owner, is_Some (emails st !! owner) -> is_Some (emails st' !! owner))
  /\ (forall owner,
        dom (correspondents owner st) ⊆ dom (correspondents owner st'))
  /\ (lineCount st <= lineCount st')%Z
  /\ (matchCount st <= matchCount st')%Z
  /\ (ignoreCount st <= ignoreCount st')%Z
  /\ (fromCount st <= fromCount st')%Z.

(** ** Example files *)

(** A file whose first read fails with an error other than [io.EOF] and
    whose next read returns a delivery line. *)
Definition flakyReads : ReadCalls :=
  fun i =>
    match i with
    | 0 => ([], Some IOErr)
    | 1 => (nl "2024-01-01 10:00:00 <= alice@test.com H=mx for bob@other.com",
            None)
    | _ => ([], Some EOF)
    end.

Definition flakyFile : FileEnv := mkFileEnv false flakyReads true failingReads.

(** No input is a gzip stream for this decompressor. *)
Definition gunzipNone : bytes -> option bytes := fun _ => None.

Definition goodFile : FileEnv :=
  diskFile gunzipNone
    (nl "2024-01-01 10:00:00 <= carol@test.com H=mx for dave@other.com").

(** A directory with an [a.log] that cannot be opened, a file [a.log.gz]
    that is not a gzip stream, and a readable [b.log]. *)
Definition brokenDir : string -> FileEnv :=
  fun name =>
    if String.eqb name "a.log" then missingFile
    else if String.eqb name "a.log.gz" then diskFile gunzipNone (B "plain")
    else goodFile.

Definition flakyDir : string -> FileEnv :=
  fun name => if String.eqb name "a.log" then flakyFile else goodFile.

(** ** Aggregation results *)

(** The aggregation map and the four run counters: what a run produces,
    apart from its log output. *)
Definition aggregation (st : State)
  : gmap string (gmap string bool) * Z * Z * Z * Z :=
  (emails st, lineCount st, matchCount st, ignoreCount st, fromCount st).

(** Two states that differ at most in the log written so far. *)
Definition sameData (st1 st2 : State) : Prop :=
  emails st1 = emails st2 /\ lineCount st1 = lineCount st2
  /\ matchCount st1 = matchCount st2 /\ ignoreCount st1 = ignoreCount st2
  /\ fromCount st1 = fromCount st2
  /\ remainingFiles st1 = remainingFiles st2
  /\ logLineCount st1 = logLineCount st2.

(** One operation: the map grows and each counter stays or is incremented
    once. *)
Definition oneStep (st st' : State) : Prop :=
  (forall o, is_Some (emails st !! o) -> is_Some (emails st' !! o))
  /\ (forall o, dom (correspondents o st) ⊆ dom (correspondents o st'))
  /\ (lineCount st' = lineCount st \/ lineCount st' = incr (lineCount st))
  /\ (matchCount st' = matchCount st \/ matchCount st' = incr (matchCount st))
  /\ (ignoreCount st' = ignoreCount st
      \/ ignoreCount st' = incr (ignoreCount st))
  /\ (fromCount st' = fromCount st \/ fromCount st' = incr (fromCount st)).

(** A framing that writes the gzip magic number and then the bytes as they
    are; it stands for [compress/gzip] in the examples. *)
Definition storedGzip (content : bytes) : bytes :=
  "031"%char :: "139"%char :: content.

Definition storedGunzip (raw : bytes) : option bytes :=
  match raw with
  | c0 :: c1 :: content =>
      if Ascii.eqb c0 "031" && Ascii.eqb c1 "139" then Some content else None
  | _ => None
  end.

(** ** Concurrent workers

    The accesses of a worker to the shared variables, one instruction per
    access, for the part of the loop body from the classification of a line
    to [logLineCount--].  [x++] on a package-level [int] is a read of [x]
    followed by a write; the map update between [Lock] and [Unlock] is the
    lookup followed by the write.  Workers are interleaved instruction by
    instruction. *)

Inductive Counter : Type := CLine | CMatch | CIgnore | CLogLine.

Definition getC (c : Counter) (st : State) : Z :=
  match c with
  | CLine => lineCount st
  | CMatch => matchCount st
  | CIgnore => ignoreCount st
  | CLogLine => logLineCount st
  end.

Definition setC (c : Counter) (z : Z) (st : State) : State :=
  match c with
  | CLine => setLineCount z st
  | CMatch => setMatchCount z st
  | CIgnore => setIgnoreCount z st
  | CLogLine => setLogLineCount z st
  end.

Inductive Instr : Type :=
| ILock                                   (* [writeLock.Lock()] *)
| IUnlock                                 (* [writeLock.Unlock()] *)
| ILookup (owner : string)                (* [val, ok := emails[owner]] *)
| IInsert (owner correspondent : string)  (* the [if ok {..} else {..}] *)
| ILoad (c : Counter)                     (* the read of [c++] or [c--] *)
| IStore (c : Counter) (delta : Z).       (* the write of [c++] or [c--] *)

Definition incrInstrs (c : Counter) : list Instr := [ILoad c; IStore c 1].
Definition decrInstrs (c : Counter) : list Instr := [ILoad c; IStore c (-1)].

(** The instructions of a line whose pair is recorded. *)
Definition recordInstrs (owner correspondent : string) : list Instr :=
  [ILock; ILookup owner; IInsert owner correspondent; IUnlock]
    ++ incrInstrs CMatch ++ incrInstrs CLine ++ decrInstrs CLogLine.

(** The instructions of one line, following [processLine]. *)
Definition lineInstrs (emailRegex ignoreRegex : bytes -> bool) (line : bytes)
  : list Instr :=
  match FindSubmatch lineMatch line with
  | Some matches =>
      let from := idx matches 1 in
      if negb (emailRegex from) then incrInstrs CIgnore
      else
        let to := idx matches 2 in
        if ignoreRegex to then incrInstrs CIgnore
        else recordInstrs (S_ (Utf8.Map toLower from))
                          (S_ (Utf8.Map toLower to))
  | None => incrInstrs CLine ++ decrInstrs CLogLine
  end.

Definition workerInstrs (emailRegex ignoreRegex : bytes -> bool)
    (lines : list bytes) : list Instr :=
  flat_map (lineInstrs emailRegex ignoreRegex) lines.

(** A worker: the instructions it has executed (newest first), those it
    still has to execute, and its locals: the value read by the last
    counter read and the [ok] of the last lookup. *)
Record Thread : Type := mkThread {
  executed : list Instr;
  todo : list Instr;
  tmp : Z;
  ok : bool
}.

Record Machine : Type := mkMachine {
  shared : State;
  writeLock : option nat;     (* the worker that holds the mutex *)
  threads : list Thread
}.

(** The write of the critical section.  With [ok], [val] is the map stored
    under the key and the assignment goes through it; otherwise a new map is
    stored and [fromCount] is incremented. *)
Definition insertStep (wasOk : bool) (owner correspondent : string)
    (st : State) : State :=
  if wasOk then
    setEmails (<[owner := <[correspondent := true]> (correspondents owner st)]>
                 (emails st)) st
  else
    setEmails (<[owner := {[correspondent := true]}]> (emails st))
      (setFromCount (incr (fromCount st)) st).

(** One instruction of worker [i]; [None] when it has finished, when it
    waits for the mutex, or when it unlocks a mutex it does not hold. *)
Definition step (i : nat) (m : Machine) : option Machine :=
  match threads m !! i with
  | None => None
  | Some th =>
      match todo th with
      | [] => None
      | ins :: rest =>
          let next tmp' ok' := mkThread (ins :: executed th) rest tmp' ok' in
          match ins with
          | ILock =>
              match writeLock m with
              | None =>
                  Some (mkMachine (shared m) (Some i)
                          (<[i := next (tmp th) (ok th)]> (threads m)))
              | Some _ => None
              end
          | IUnlock =>
              if bool_decide (writeLock m = Some i) then
                Some (mkMachine (shared m) None
                        (<[i := next (tmp th) (ok th)]> (threads m)))
              else None
          | ILookup owner =>
              Some (mkMachine (shared m) (writeLock m)
                      (<[i := next (tmp th)
                                 (bool_decide (is_Some (emails (shared m) !! owner)))]>
                         (threads m)))
          | IInsert owner c =>
              Some (mkMachine (insertStep (ok th) owner c (shared m))
                      (writeLock m)
                      (<[i := next (tmp th) (ok th)]> (threads m)))
          | ILoad c =>
              Some (mkMachine (shared m) (writeLock m)
                      (<[i := next (getC c (shared m)) (ok th)]> (threads m)))
          | IStore c delta =>
              Some (mkMachine (setC c (wrapInt (tmp th + delta)) (shared m))
                      (writeLock m)
                      (<[i := next (tmp th) (ok th)]> (threads m)))
          end
      end
  end.

(** A schedule names the worker that runs next, instruction by
    instruction. *)
Fixpoint exec (sched : list nat) (m : Machine) : option Machine :=
  match sched with
  | [] => Some m
  | i :: sched' =>
      match step i m with
      | Some m' => exec sched' m'
      | None => None
      end
  end.

Definition finished (m : Machine) : Prop :=
  Forall (fun th => todo th = []) (threads m).

Definition startMachine (st : State) (programs : list (list Instr)) : Machine :=
  mkMachine st None (map (fun p => mkThread [] p 0 false) programs).

(** Worker [i] records the correspondents [cs] for the owner [o]. *)
Definition recorder (oc : string * list string) : list Instr :=
  flat_map (recordInstrs oc.1) oc.2.

(** The pairs whose write has been executed. *)
Definition insertedIn (ths : list Thread) (owner c : string) : Prop :=
  exists th, th ∈ ths /\ IInsert owner c ∈ executed th.

Definition inserted (m : Machine) (owner c : string) : Prop :=
  insertedIn (threads m) owner c.

(** Instructions that start and end outside the critical section: counter
    updates, and whole critical sections. *)
Inductive outside : list Instr -> Prop :=
| out_nil : outside []
| out_load c rest : outside rest -> outside (ILoad c :: rest)
| out_store c delta rest : outside rest -> outside (IStore c delta :: rest)
| out_crit o c rest :
    outside rest ->
    outside (ILock :: ILookup o :: IInsert o c :: IUnlock :: rest).

(** Where worker [i] stands: outside the critical section without the
    mutex, or inside with it; between the lookup and the write its [ok] is
    still what the map says. *)
Definition threadInv (st : State) (lock : option nat) (i : nat) (th : Thread)
  : Prop :=
  (lock <> Some i /\ outside (todo th))
  \/ (lock = Some i
      /\ ((exists o c rest,
              todo th = ILookup o :: IInsert o c :: IUnlock :: rest
              /\ outside rest)
          \/ (exists o c rest,
                todo th = IInsert o c :: IUnlock :: rest /\ outside rest
                /\ ok th = bool_decide (is_Some (emails st !! o)))
          \/ (exists rest, todo th = IUnlock :: rest /\ outside rest))).

(** The map holds exactly the pairs written so far, and [fromCount] counts
    its owners. *)
Definition mapInv (m : Machine) : Prop :=
  (forall o, is_Some (emails (shared m) !! o) <-> exists c, inserted m o c)
  /\ (forall o c, c ∈ dom (correspondents o (shared m)) <-> inserted m o c)
  /\ fromCount (shared m) = wrapInt (Z.of_nat (size (emails (shared m)))).

(** Each worker executes its program in order. *)
Definition progInv (programs : list (list Instr)) (m : Machine) : Prop :=
  Forall2 (fun th p => reverse (executed th) ++ todo th = p)
    (threads m) programs.

Definition machineInv (programs : list (list Instr)) (m : Machine) : Prop :=
  (forall i th, threads m !! i = Some th ->
                threadInv (shared m) (writeLock m) i th)
  /\ mapInv m /\ progInv programs m.

(** Two workers with one delivery line each, for different senders. *)
Definition twoInputs : list (list bytes) :=
  [[nl "2024-01-01 10:00:00 <= alice@test.com H=mx for bob@other.com"];
   [nl "2024-01-01 10:00:01 <= carol@test.com H=mx for dave@other.com"]].

Definition twoWorkers : Machine :=
  startMachine (initState 1000 2)
    (map (workerInstrs emailAny ignoreEmpty) twoInputs).

(** Each worker updates the map under the mutex; then both read
    [matchCount] before either writes it back. *)
Definition lostUpdateSchedule : list nat :=
  [0; 0; 0; 0; 1; 1; 1; 1; 0; 1; 0; 1; 0; 0; 0; 0; 1; 1; 1; 1].

Definition oneAfterTheOther : list nat :=
  [0; 0; 0; 0; 0; 0; 0; 0; 0; 0; 1; 1; 1; 1; 1; 1; 1; 1; 1; 1].

(** Worker 0 with one delivery line, worker 1 with two. *)
Definition unevenInputs : list (list bytes) :=
  [[nl "2024-01-01 10:00:00 <= alice@test.com H=mx for bob@other.com"];
   [nl "2024-01-01 10:00:01 <= carol@test.com H=mx for dave@other.com";
    nl "2024-01-01 10:00:02 <= erin@test.com H=mx for frank@other.com"]].

Definition unevenWorkers : Machine :=
  startMachine (initState 1000 2)
    (map (workerInstrs emailAny ignoreEmpty) unevenInputs).

(** Worker 0 updates the map and reads [matchCount]; then worker 1
    processes its two lines. *)
Definition staleMatchSchedule : list nat := replicate 5 0 ++ replicate 20 1.

(** Worker 0 goes on to write [matchCount] and reads [lineCount]; then
    worker 1 processes its two lines. *)
Definition staleLineSchedule : list nat := replicate 7 0 ++ replicate 20 1.

(** ** What a line contributes *)

(** The three ways [processFile] disposes of a line: it does not match
    [lineMatch]; it matches and one of the two [continue] branches is taken;
    it matches and the folded pair is recorded. *)
Inductive Disposition : Type :=
| Unmatched
| Ignored
| Recorded (owner correspondent : string).

Definition classify (emailRegex ignoreRegex : bytes -> bool) (line : bytes)
  : Disposition :=
  match FindSubmatch lineMatch line with
  | Some matches =>
      if negb (emailRegex (idx matches 1)) then Ignored
      else if ignoreRegex (idx matches 2) then Ignored
      else Recorded (S_ (Utf8.Map toLower (idx matches 1)))
                    (S_ (Utf8.Map toLower (idx matches 2)))
  | None => Unmatched
  end.

Definition isIgnored (d : Disposition) : bool :=
  match d with Ignored => true | _ => false end.

Definition isRecorded (d : Disposition) : bool :=
  match d with Recorded _ _ => true | _ => false end.

(** The lines of a file, processed in the order they are read. *)
Definition processLines (emailRegex ignoreRegex : bytes -> bool)
    (lines : list bytes) (st : State) : State :=
  foldl (fun st line => processLine emailRegex ignoreRegex line st) st lines.

(** How many lines of [lines] have a disposition that satisfies [p]. *)
Definition countLines (emailRegex ignoreRegex : bytes -> bool)
    (p : Disposition -> bool) (lines : list bytes) : Z :=
  Z.of_nat (length (filter (fun l => p (classify emailRegex ignoreRegex l) = true)
                      lines)).

(** The counter updates at the end of the loop body, for a line whose pair
    was recorded, for a line that did not match, and in the two [continue]
    branches. *)
Definition countMatched (st : State) : State :=
  let st := setMatchCount (incr (matchCount st)) st in
  let st := setLineCount (incr (lineCount st)) st in
  setLogLineCount (decr (logLineCount st)) st.

Definition countUnmatched (st : State) : State :=
  let st := setLineCount (incr (lineCount st)) st in
  setLogLineCount (decr (logLineCount st)) st.

Definition countIgnored (st : State) : State :=
  setIgnoreCount (incr (ignoreCount st)) st.

Definition applyDisposition (d : Disposition) (st : State) : State :=
  match d with
  | Unmatched => countUnmatched st
  | Ignored => countIgnored st
  | Recorded o c => countMatched (record o c st)
  end.

(** The data of the first [n] reads of a reader. *)
Definition linesRead (calls : ReadCalls) (n : nat) : list bytes :=
  map (fun j => (calls j).1) (seq 0 n).

(** A complete line: text without a newline, then the newline. *)
Definition isLine (l : bytes) : Prop :=
  exists body, l = body ++ [chNL] /\ noNewline body.

(** A file whose second read fails with an error other than [io.EOF]. *)
Definition brokenAfterOneLine : FileEnv :=
  mkFileEnv false
    (fun i =>
       match i with
       | 0 => (nl "2024-01-01 10:00:00 <= alice@test.com H=mx for bob@other.com",
               None)
       | _ => ([], Some IOErr)
       end)
    true failingReads.

Definition halfBrokenDir : string -> FileEnv :=
  fun name => if String.eqb name "a.log" then brokenAfterOneLine else goodFile.

(** A worker is between [Lock] and [Unlock] when its next instruction is
    one of the critical section. *)
Definition inCritical (th : Thread) : Prop :=
  match todo th with
  | ILookup _ :: _ | IInsert _ _ :: _ | IUnlock :: _ => True
  | _ => False
  end.

(** The workers of a run: one per input, started on the initial state. *)
Definition startWorkers (emailRegex ignoreRegex : bytes -> bool)
    (logFrequency : Z) (inputs : list (list bytes)) : Machine :=
  startMachine (initState logFrequency (length inputs))
    (map (workerInstrs emailRegex ignoreRegex) inputs).

(** ** WorkerPool

    The two loops of [main] around the channel [sem], and the deferred
    receive of [processFile]:
<<
    sem = make(chan bool, *threads)
    for _, fileName := range fileNames { sem <- true; go processFile(fileName) }
    for i := 0; i < cap(sem); i++ { sem <- true }
>>
    [queued] is the number of values in the channel; a send waits while the
    channel is full, a receive while it is empty.  What a worker does
    between its start and its return is left out here. *)

Record Pool : Type := mkPool {
  capacity : nat;               (* [cap(sem)], the [-threads] flag *)
  queued : nat;                 (* [len(sem)] *)
  toStart : list string;        (* files of the first loop not reached yet *)
  running : list string;        (* workers started and not returned *)
  returned : list string;       (* workers that have returned *)
  fills : nat                   (* [i] of the second loop *)
}.

Inductive PoolStep : Type :=
| Spawn                 (* [sem <- true; go processFile(fileName)] *)
| Return (k : nat)      (* the [<-sem] of the [k]-th running worker *)
| Fill.                 (* [sem <- true] of the second loop *)

Definition startPool (threads : nat) (fileNames : list string) : Pool :=
  mkPool threads 0 fileNames [] [] 0.

(** One step; [None] when the step has to wait or does not apply. *)
Definition poolStep (s : PoolStep) (p : Pool) : option Pool :=
  match s with
  | Spawn =>
      match toStart p with
      | fileName :: rest =>
          if queued p <? capacity p then
            Some (mkPool (capacity p) (S (queued p)) rest
                    (fileName :: running p) (returned p) (fills p))
          else None
      | [] => None
      end
  | Return k =>
      match running p !! k, queued p with
      | Some fileName, S q =>
          Some (mkPool (capacity p) q (toStart p) (delete k (running p))
                  (fileName :: returned p) (fills p))
      | _, _ => None
      end
  | Fill =>
      match toStart p with
      | [] =>
          if (fills p <? capacity p) && (queued p <? capacity p) then
            Some (mkPool (capacity p) (S (queued p)) [] (running p)
                    (returned p) (S (fills p)))
          else None
      | _ :: _ => None
      end
  end.

Fixpoint poolExec (steps : list PoolStep) (p : Pool) : option Pool :=
  match steps with
  | [] => Some p
  | s :: steps' =>
      match poolStep s p with
      | Some p' => poolExec steps' p'
      | None => None
      end
  end.

(** [main] has left the second loop and goes on to write the output. *)
Definition mainPastLoops (p : Pool) : Prop :=
  toStart p = [] /\ fills p = capacity p.

Definition poolInv (fileNames : list string) (p : Pool) : Prop :=
  queued p = length (running p) + fills p
  /\ queued p <= capacity p
  /\ (toStart p <> [] -> fills p = 0)
  /\ returned p ++ running p ++ toStart p ≡ₚ fileNames.

(** ** ResultWriter

    The last loop of [main]:
<<
    for us, theirEmails := range emails {
        writer.WriteString(us)
        for them := range theirEmails { writer.WriteByte(','); writer.WriteString(them) }
        writer.WriteByte('\n'); writer.Flush()
    }
>>
    Go leaves the order of [range] over a map open; a traversal lists every
    key once, in some order. *)

Definition chComma : ascii := ","%char.

(** The bytes written for one owner. *)
Definition writeLine (us : string) (theirEmails : list string) : bytes :=
  B us ++ flat_map (fun them => chComma :: B them) theirEmails ++ [chNL].

(** The bytes written for the owners in the order of [entries]. *)
Definition writeEmails (entries : list (string * list string)) : bytes :=
  flat_map (fun e => writeLine e.1 e.2) entries.

(** [entries] is what the two [range] loops can visit: every owner of the
    map once, with every key of its map once. *)
Definition isTraversal (m : gmap string (gmap string bool))
    (entries : list (string * list string)) : Prop :=
  NoDup (entries.*1)
  /\ dom m = list_to_set (entries.*1)
  /\ forall us theirEmails,
       (us, theirEmails) ∈ entries ->
       exists val, m !! us = Some val /\ NoDup theirEmails
                   /\ dom val = list_to_set theirEmails.

(** One traversal, in the order of the map library. *)
Definition someTraversal (m : gmap string (gmap string bool))
  : list (string * list string) :=
  (fun e => (e.1, (map_to_list e.2).*1)) <$> map_to_list m.

(** The reader of the output file: lines, and fields between commas. *)
Fixpoint splitAt (sep : ascii) (cur s : bytes) : list bytes :=
  match s with
  | [] => [reverse cur]
  | c :: s' =>
      if Ascii.eqb c sep then reverse cur :: splitAt sep [] s'
      else splitAt sep (c :: cur) s'
  end.

Definition parseLine (line : bytes) : string * list string :=
  match splitAt chComma [] (take (length line - 1) line) with
  | us :: theirEmails => (S_ us, map S_ theirEmails)
  | [] => (EmptyString, [])
  end.

Definition parseOutput (out : bytes) : list (string * list string) :=
  map parseLine (splitLines [] out).1.

(** An address without a comma and without a newline. *)
Definition plainAddress (a : string) : Prop :=
  (chComma ∉ B a) /\ (chNL ∉ B a).

Definition plainEntries (entries : list (string * list string)) : Prop :=
  Forall (fun e => plainAddress e.1 /\ Forall plainAddress e.2) entries.

(** A small result: one owner with two correspondents, another with one. *)
Definition smallResult : gmap string (gmap string bool) :=
  {[ "alice@test.com"%string :=
       {[ "bob@other.com"%string := true; "carol@other.com"%string := true ]};
     "dave@test.com"%string := {[ "bob@other.com"%string := true ]} ]}.

Definition smallTraversal : list (string * list string) :=
  [("dave@test.com", ["bob@other.com"]);
   ("alice@test.com", ["carol@other.com"; "bob@other.com"])]%string.

(** ** Symmetric classification: what the map never holds *)

(** No correspondent stored in the map matches the inclusion pattern. *)
Definition correspondentsNotIncluded (emailRegex : bytes -> bool) (st : State)
  : Prop :=
  forall o val c,
    emails st !! o = Some val -> is_Some (val !! c) -> emailRegex (B c) = false.

(** ** How the reads of a file end *)

(** The reads of a reader end at read [n] with the error [e]: the [n] reads
    before it succeed. *)
Definition readsEndAt (calls : ReadCalls) (n : nat) (e : ReadErr) : Prop :=
  (forall j, j < n -> (calls j).2 = None) /\ (calls n).2 = Some e.

(** The reader that [processFile] builds for a file; it does not depend on
    the state. *)
Definition readerOf (env : FileEnv) (fileName : string) : Reader :=
  (newReader env fileName (initState 0 0)).2.

(** The worker on [fileName] has a reader, and its reads end with [e] in
    fewer than [fuel] rounds. *)
Definition fileEnds (fuel : nat) (fs : string -> FileEnv) (fileName : string)
    (e : ReadErr) : Prop :=
  exists calls n,
    readerOf (fs fileName) fileName = Some calls
    /\ n < fuel /\ readsEndAt calls n e.

Definition isIOErr (e : ReadErr) : bool :=
  match e with IOErr => true | EOF => false end.

(** ** Folded keys *)

(** An ASCII capital letter. *)
Definition isUpper (c : ascii) : bool :=
  ((65 <=? Utf8.byteVal c) && (Utf8.byteVal c <=? 90))%Z.

(** The byte of the small letter for the byte of a capital letter, every
    other byte as it is. *)
Definition lowerByte (c : ascii) : ascii :=
  if isUpper c then Utf8.byteOf (Utf8.byteVal c + 32) else c.

Definition foldedByte (c : ascii) : bool :=
  negb (isSpace c) && negb (isUpper c).

(** A key without whitespace and without ASCII capital letters, and not
    empty. *)
Definition foldedKey (k : string) : Prop :=
  B k <> [] /\ Forall (fun c => foldedByte c = true) (B k).

(** Every owner and every correspondent of the map is such a key. *)
Definition keysFolded (st : State) : Prop :=
  forall o val,
    emails st !! o = Some val ->
    foldedKey o /\ forall c, is_Some (val !! c) -> foldedKey c.

(** ** Progress messages *)

Definition isProgress (e : LogEvent) : bool :=
  match e with InfoProgress _ _ _ _ => true | _ => false end.

(** The number of progress messages logged so far. *)
Definition progressCount (st : State) : nat :=
  length (List.filter isProgress (logged st)).

(** One progress message per [logFrequency] counted lines: the lines
    counted and the lines left until the next message add up to
    [logFrequency] times the number of messages logged, plus one. *)
Definition progressInv (logFrequency : Z) (st : State) : Prop :=
  (0 <= logLineCount st <= logFrequency)%Z
  /\ (lineCount st + logLineCount st
      = logFrequency * (1 + Z.of_nat (progressCount st)))%Z.

(** A file with one delivery line in capital letters. *)
Definition capitalsFile : FileEnv :=
  diskFile gunzipNone
    (nl "2024-01-01 10:00:00 <= Alice@Test.COM H=mx for BOB@other.com").

(** ** What a file contributes to a run *)

(** The reads of one file in a run: the results of the successive reads,
    the number of reads before the one that ends the loop, and the error of
    that read. *)
Abbreviation FileReads := (ReadCalls * nat * ReadErr)%type.

(** In the variants with gzip support the worker on [fileName] has the
    reader [calls], whose first [n] reads succeed and whose next read
    returns [e], within [fuel] rounds. *)
Definition fileReads (fuel : nat) (fs : string -> FileEnv) (fileName : string)
    (r : FileReads) : Prop :=
  readerOf (fs fileName) fileName = Some r.1.1
  /\ r.1.2 < fuel /\ readsEndAt r.1.1 r.1.2 r.2.

(** In [main.go] the reader is built on the file, and the loop ends at the
    first read that reports [io.EOF]: the reads before it are processed
    whether they failed or not. *)
Definition mainReads (fuel : nat) (fs : string -> FileEnv) (fileName : string)
    (n : nat) : Prop :=
  n < fuel
  /\ (forall j, j < n -> (reads (fs fileName) j).2 <> Some EOF)
  /\ (reads (fs fileName) n).2 = Some EOF.

(** The lines of a run of the sequential variants, as strings. *)
Definition mainLines (emailRegex : bytes -> bool) (lines : list bytes)
    (st : State) : State :=
  foldl (fun st line => mainLine emailRegex (S_ line) st) st lines.

(** ** Lines with several markers *)

(** A newline occurs in [line] at its end only, as in what
    [ReadBytes('\n')] returns. *)
Definition newlineAtEndOnly (line : bytes) : Prop :=
  forall a b, line = a ++ chNL :: b -> b = [].


(** The parts of [lineMatch] after its first [.+] and after its second
    [.+]. *)
Definition afterMid : re :=
  RCat (RLit (B " for ")) (RCap 2 (RPlus CNotSpace)).

Definition afterPre : re :=
  RCat (RLit (B " <= "))
    (RCat (RCap 1 (RPlus CNotSpace))
       (RCat (RLit (B " ")) (RCat (RPlus CAnyNotNL) afterMid))).

(** * Properties *)

(** ** The matcher against the pattern language *)

Module RegexpFacts.
Import RegexpSpec.

Lemma take_app_rest (p rest : bytes) :
  take (length (p ++ rest) - length rest) (p ++ rest) = p.
Proof.
  rewrite length_app.
  replace (length p + length rest - length rest) with (length p) by lia.
  apply take_app_length.
Qed.

Lemma plusLoop_sound {A} cl (k : bytes -> option A) s a :
  plusLoop cl k s = Some a ->
  exists p rest, s = p ++ rest /\ p <> [] /\
    Forall (fun x => cmatch cl x = true) p /\ k rest = Some a.
Proof.
  revert a. induction s as [|x s IH]; intros a; simpl; [discriminate|].
  destruct (cmatch cl x) eqn:Hx; [|discriminate].
  destruct (plusLoop cl k s) as [r|] eqn:Hl.
  - intros [= <-]. destruct (IH r eq_refl) as (p & rest & -> & _ & Hp & Hk).
    exists (x :: p), rest. repeat split; auto; try discriminate.
  - intros Hk. exists [x], s. repeat split; auto; try discriminate.
Qed.

Lemma plusLoop_sound_greedy {A} cl (k : bytes -> option A) s a :
  (forall s', is_Some (k s')) ->
  plusLoop cl k s = Some a ->
  exists p rest, s = p ++ rest /\ p <> [] /\
    Forall (fun x => cmatch cl x = true) p /\ k rest = Some a /\
    stopsAt cl rest.
Proof.
  intros Hk. revert a. induction s as [|x s IH]; intros a; simpl; [discriminate|].
  destruct (cmatch cl x) eqn:Hx; [|discriminate].
  destruct (plusLoop cl k s) as [r|] eqn:Hl.
  - intros [= <-].
    destruct (IH r eq_refl) as (p & rest & -> & _ & Hp & Hkr & Hs).
    exists (x :: p), rest. repeat split; auto; try discriminate.
  - intros Hks. exists [x], s. repeat split; auto; try discriminate.
    destruct s as [|y s']; simpl; [exact I|].
    simpl in Hl. destruct (cmatch cl y); [|reflexivity].
    destruct (plusLoop cl k s'); [discriminate|].
    destruct (Hk s') as [v Hv]. congruence.
Qed.

Lemma plusLoop_complete {A} cl (k : bytes -> option A) p rest :
  p <> [] -> Forall (fun x => cmatch cl x = true) p ->
  is_Some (k rest) -> is_Some (plusLoop cl k (p ++ rest)).
Proof.
  induction p as [|x p IH]; [congruence|].
  intros _ Hall Hk. inversion Hall as [|? ? Hx Hp]; subst.
  simpl. rewrite Hx.
  destruct p as [|y p'].
  - simpl. destruct (plusLoop cl k rest); [eauto|exact Hk].
  - destruct (IH ltac:(discriminate) Hp Hk) as [r ->]. eauto.
Qed.

Lemma rmatch_sound {A} r : forall s caps (k : bytes -> list bytes -> option A) a,
  rmatch r s caps k = Some a ->
  exists p rest caps', s = p ++ rest /\ matches r p caps caps' /\
    k rest caps' = Some a.
Proof.
  induction r as [|cl|cl|r1 IH1 r2 IH2|n r IH]; intros s caps k a; simpl.
  - intros H. exists [], s, caps. repeat split; auto. constructor.
  - destruct s as [|x s]; [discriminate|].
    destruct (cmatch cl x) eqn:Hx; [|discriminate].
    intros H. exists [x], s, caps. repeat split; auto. by constructor.
  - intros H. apply plusLoop_sound in H as (p & rest & -> & Hne & Hp & Hk).
    exists p, rest, caps. repeat split; auto. by constructor.
  - intros H. apply IH1 in H as (p1 & rest1 & caps1 & -> & Hm1 & H).
    apply IH2 in H as (p2 & rest & caps2 & -> & Hm2 & H).
    exists (p1 ++ p2), rest, caps2. rewrite <- app_assoc.
    repeat split; auto. econstructor; eauto.
  - intros H. apply IH in H as (p & rest & caps1 & -> & Hm & H).
    rewrite take_app_rest in H.
    exists p, rest, (<[n := p]> caps1). repeat split; auto. by constructor.
Qed.

Lemma rmatch_sound_greedy {A} cl r : endsPlus cl r ->
  forall s caps (k : bytes -> list bytes -> option A) a,
  (forall s' c, is_Some (k s' c)) ->
  rmatch r s caps k = Some a ->
  exists p rest caps', s = p ++ rest /\ matches r p caps caps' /\
    k rest caps' = Some a /\ stopsAt cl rest.
Proof.
  induction 1 as [|r1 r2 He IH|n r He IH]; intros s caps k a Hk; simpl.
  - intros H.
    apply plusLoop_sound_greedy in H as (p & rest & -> & Hne & Hp & Hkr & Hs);
      [|intros; apply Hk].
    exists p, rest, caps. repeat split; auto. by constructor.
  - intros H. apply rmatch_sound in H as (p1 & rest1 & caps1 & -> & Hm1 & H).
    apply IH in H as (p2 & rest & caps2 & -> & Hm2 & H & Hs); [|exact Hk].
    exists (p1 ++ p2), rest, caps2. rewrite <- app_assoc.
    repeat split; auto. econstructor; eauto.
  - intros H.
    apply IH in H as (p & rest & caps1 & -> & Hm & H & Hs);
      [|intros; apply Hk].
    rewrite take_app_rest in H.
    exists p, rest, (<[n := p]> caps1). repeat split; auto. by constructor.
Qed.

Lemma rmatch_complete {A} r p caps caps' :
  matches r p caps caps' ->
  forall rest (k : bytes -> list bytes -> option A),
  is_Some (k rest caps') -> is_Some (rmatch r (p ++ rest) caps k).
Proof.
  induction 1 as [caps|cl x caps Hx|cl p caps Hne Hp
                 |r1 r2 p1 p2 caps caps1 caps2 _ IH1 _ IH2
                 |n r p caps caps1 _ IH]; intros rest k Hk; simpl.
  - exact Hk.
  - by rewrite Hx.
  - by apply plusLoop_complete.
  - rewrite <- app_assoc. apply IH1, IH2, Hk.
  - apply IH. by rewrite take_app_rest.
Qed.

(** [FindSubmatch] finds a match exactly when a substring is in the
    language, and the submatches it returns come from such a substring. *)
Lemma FindSubmatch_sound r s m :
  FindSubmatch r s = Some m ->
  exists pre p rest caps',
    s = pre ++ p ++ rest /\
    matches r p (replicate (S (numSubexp r)) []) caps' /\
    m = <[0 := p]> caps'.
Proof.
  induction s as [|x s IH]; simpl.
  - destruct (matchHere r []) as [m'|] eqn:Hm; [|discriminate].
    intros [= <-]. unfold matchHere in Hm.
    apply rmatch_sound in Hm as (p & rest & caps' & Heq & Hm & H).
    rewrite Heq, take_app_rest in H. injection H as <-.
    exists [], p, rest, caps'. auto.
  - destruct (matchHere r (x :: s)) as [m'|] eqn:Hm.
    + intros [= <-]. unfold matchHere in Hm.
      apply rmatch_sound in Hm as (p & rest & caps' & Heq & Hm & H).
      rewrite Heq, take_app_rest in H. injection H as <-.
      exists [], p, rest, caps'. auto.
    + intros H. apply IH in H as (pre & p & rest & caps' & -> & Hm' & ->).
      exists (x :: pre), p, rest, caps'. auto.
Qed.

Lemma FindSubmatch_sound_greedy cl r s m :
  endsPlus cl r ->
  FindSubmatch r s = Some m ->
  exists pre p rest caps',
    s = pre ++ p ++ rest /\
    matches r p (replicate (S (numSubexp r)) []) caps' /\
    m = <[0 := p]> caps' /\ stopsAt cl rest.
Proof.
  intros He.
  assert (Hhere : forall s m, matchHere r s = Some m ->
            exists p rest caps', s = p ++ rest /\
              matches r p (replicate (S (numSubexp r)) []) caps' /\
              m = <[0 := p]> caps' /\ stopsAt cl rest).
  { clear s m. intros s m Hm. unfold matchHere in Hm.
    apply (rmatch_sound_greedy cl) in Hm
      as (p & rest & caps' & Heq & Hm & H & Hs); eauto.
    rewrite Heq, take_app_rest in H. injection H as <-.
    exists p, rest, caps'. auto. }
  induction s as [|x s IH]; simpl.
  - destruct (matchHere r []) as [m'|] eqn:Hm; [|discriminate].
    intros [= <-]. apply Hhere in Hm as (p & rest & caps' & ? & ? & ? & ?).
    exists [], p, rest, caps'. auto.
  - destruct (matchHere r (x :: s)) as [m'|] eqn:Hm.
    + intros [= <-]. apply Hhere in Hm as (p & rest & caps' & ? & ? & ? & ?).
      exists [], p, rest, caps'. auto.
    + intros H. apply IH in H as (pre & p & rest & caps' & -> & Hm' & -> & Hs).
      exists (x :: pre), p, rest, caps'. auto.
Qed.

Lemma FindSubmatch_complete r pre p rest caps caps' :
  matches r p caps caps' ->
  is_Some (FindSubmatch r (pre ++ p ++ rest)).
Proof.
  intros Hm.
  assert (Hhere : is_Some (FindSubmatch r (p ++ rest))).
  { assert (H : is_Some (matchHere r (p ++ rest))).
    { unfold matchHere.
      assert (Hm' : exists c, matches r p (replicate (S (numSubexp r)) []) c).
      { clear -Hm. revert Hm. generalize (replicate (S (numSubexp r)) ([] : bytes)).
        intros c0 Hm. revert c0.
        induction Hm; intros c0.
        - eexists; constructor.
        - eexists; by constructor.
        - eexists; by constructor.
        - destruct (IHHm1 c0) as [c1 H1]. destruct (IHHm2 c1) as [c2 H2].
          eexists; econstructor; eauto.
        - destruct (IHHm c0) as [c1 H1]. eexists; econstructor; eauto. }
      destruct Hm' as [c Hc].
      eapply rmatch_complete; eauto. }
    destruct H as [m Hm']. destruct (p ++ rest); simpl; rewrite Hm'; eauto. }
  induction pre as [|x pre IH]; [exact Hhere|].
  simpl. destruct (matchHere r (x :: pre ++ p ++ rest)); eauto.
Qed.

End RegexpFacts.

Module LineParserProofs.
Import RegexpSpec RegexpFacts.

Lemma cmatch_char c x : cmatch (CChar c) x = true -> x = c.
Proof. simpl. apply Ascii.eqb_eq. Qed.

Lemma cmatch_any_iff p :
  Forall (fun x => cmatch CAnyNotNL x = true) p <-> noNewline p.
Proof.
  unfold noNewline. apply Forall_iff. intros x. simpl.
  rewrite negb_true_iff. split.
  - intros H ->. by rewrite Ascii.eqb_refl in H.
  - intros H. destruct (Ascii.eqb x chNL) eqn:E; [|done].
    apply Ascii.eqb_eq in E. done.
Qed.

Lemma cmatch_notspace_iff p :
  Forall (fun x => cmatch CNotSpace x = true) p
  <-> Forall (fun x => isSpace x = false) p.
Proof. apply Forall_iff. intros x. simpl. apply negb_true_iff. Qed.

Ltac inv_matches :=
  repeat match goal with
    | H : matches (RCat _ _) _ _ _ |- _ => inversion H; clear H; subst
    | H : matches (RCap _ _) _ _ _ |- _ => inversion H; clear H; subst
    | H : matches (RClass _) _ _ _ |- _ => inversion H; clear H; subst
    | H : matches (RPlus _) _ _ _ |- _ => inversion H; clear H; subst
    | H : matches REps _ _ _ |- _ => inversion H; clear H; subst
    | H : cmatch (CChar _) _ = true |- _ => apply cmatch_char in H; subst
    end.

Lemma lineMatch_inv p caps caps' :
  matches lineMatch p caps caps' ->
  exists pre from mid to,
    p = pre ++ B " <= " ++ from ++ B " " ++ mid ++ B " for " ++ to
    /\ pre <> [] /\ noNewline pre /\ isToken from
    /\ mid <> [] /\ noNewline mid /\ isToken to
    /\ caps' = <[2 := to]> (<[1 := from]> caps).
Proof.
  unfold lineMatch. cbn [B list_ascii_of_string RLit]. intros H.
  inv_matches.
  do 4 eexists. split; [reflexivity|].
  unfold isToken. rewrite <- !cmatch_any_iff, <- !cmatch_notspace_iff.
  repeat split; assumption.
Qed.

Lemma lineMatch_intro pre from mid to caps :
  pre <> [] -> noNewline pre -> isToken from ->
  mid <> [] -> noNewline mid -> isToken to ->
  matches lineMatch
    (pre ++ B " <= " ++ from ++ B " " ++ mid ++ B " for " ++ to)
    caps (<[2 := to]> (<[1 := from]> caps)).
Proof.
  intros Hpre Hnl [Hf Hfs] Hmid Hnl' [Ht Hts].
  apply cmatch_any_iff in Hnl, Hnl'. apply cmatch_notspace_iff in Hfs, Hts.
  unfold lineMatch. cbn [B list_ascii_of_string RLit].
  assert (Hc : forall c caps, matches (RClass (CChar c)) [c] caps caps).
  { intros. constructor. simpl. apply Ascii.eqb_refl. }
  assert (Hlit : forall l caps, matches (RLit l) l caps caps).
  { induction l as [|c l IH]; intros; simpl; [constructor|].
    change (c :: l) with ([c] ++ l). econstructor; eauto. }
  eapply MCat; [by constructor|].
  eapply (MCat _ _ (B " <= ")); [apply (Hlit (B " <= "))|].
  eapply MCat; [by do 2 constructor|].
  eapply (MCat _ _ (B " ")); [apply (Hlit (B " "))|].
  eapply MCat; [by constructor|].
  eapply (MCat _ _ (B " for ")); [apply (Hlit (B " for "))|].
  by do 2 constructor.
Qed.

Lemma lineMatch_length line m :
  FindSubmatch lineMatch line = Some m -> length m = 3.
Proof.
  intros H. apply FindSubmatch_sound in H as (pre & p & rest & caps' & _ & Hm & ->).
  apply lineMatch_inv in Hm as (? & ? & ? & ? & _ & _ & _ & _ & _ & _ & _ & ->).
  reflexivity.
Qed.

Lemma lineParser_sound line from to :
  lineParser line = Some (from, to) -> deliveryRecord line from to.
Proof.
  unfold lineParser.
  destruct (FindSubmatch lineMatch line) as [m|] eqn:Hm; [|discriminate].
  intros [= <- <-].
  apply (FindSubmatch_sound_greedy CNotSpace) in Hm
    as (skipped & p & rest & caps' & -> & Hm & -> & Hs);
    [|unfold lineMatch; repeat constructor].
  apply lineMatch_inv in Hm
    as (pre & f & mid & t & -> & Hpre & Hnl & Hf & Hmid & Hnl' & Ht & ->).
  exists skipped, pre, mid, rest. cbn [idx].
  split; [by rewrite <- !app_assoc|].
  assert (Hrest : tokenEnds rest).
  { destruct rest as [|x rest]; simpl in *; [done|].
    by apply negb_false_iff in Hs. }
  simpl. repeat split; try assumption; apply Hf || apply Ht.
Qed.

Lemma lineParser_complete line from to :
  deliveryRecord line from to -> is_Some (lineParser line).
Proof.
  intros (skipped & pre & mid & rest & -> & Hpre & Hnl & Hf & Hmid & Hnl' & Ht & _).
  unfold lineParser.
  destruct (FindSubmatch_complete lineMatch skipped
              (pre ++ B " <= " ++ from ++ B " " ++ mid ++ B " for " ++ to)
              rest [] _
              (lineMatch_intro pre from mid to [] Hpre Hnl Hf Hmid Hnl' Ht))
    as [m Hm].
  rewrite <- !app_assoc in Hm. rewrite Hm. eauto.
Qed.

End LineParserProofs.

Lemma B_S_ b : B (S_ b) = b.
Proof. apply list_ascii_of_string_of_list_ascii. Qed.

Lemma S_B s : S_ (B s) = s.
Proof. apply string_of_list_ascii_of_string. Qed.

Lemma deliveryRecord_single_sender line from to a b :
  deliveryRecord line from to -> occursOnce (B " <= ") line ->
  line = a ++ B " <= " ++ b -> firstToken from b.
Proof.
  intros (skipped & pre & mid & rest & Hl & _ & _ & Hf & _ & _ & _ & _) Honce Hab.
  rewrite app_assoc in Hl.
  pose proof (Honce _ _ _ _ Hab Hl) as ->.
  rewrite Hl in Hab. do 2 apply app_inv_head in Hab. subst b.
  split; [exact Hf|]. eexists. split; [reflexivity|]. reflexivity.
Qed.

Lemma deliveryRecord_single_recipient line from to a b :
  deliveryRecord line from to -> occursOnce (B " for ") line ->
  line = a ++ B " for " ++ b -> firstToken to b.
Proof.
  intros (skipped & pre & mid & rest & Hl & _ & _ & _ & _ & _ & Ht & Hr) Honce Hab.
  assert (Hl' : line = (skipped ++ pre ++ B " <= " ++ from ++ B " " ++ mid)
                        ++ B " for " ++ to ++ rest).
  { rewrite Hl. by rewrite <- !app_assoc. }
  pose proof (Honce _ _ _ _ Hab Hl') as ->.
  rewrite Hl' in Hab. do 2 apply app_inv_head in Hab. subst b.
  split; [exact Ht|]. eauto.
Qed.

(** *** C1 *)

(** C1. On a line that matches the delivery-record pattern the line parser
    yields a pair [(from, to)], and whenever it yields a pair, [from] is the
    whitespace-delimited token right after a [<=] marker and [to] the
    whitespace-delimited token right after a later [for] marker, whatever
    surrounds them; on a line that does not match it yields no pair.  When a
    marker occurs once in the line, the token is the one after that
    occurrence.  [FindStringSubmatch], which the sequential variants call,
    returns the same two tokens as submatches 1 and 2. *)
Theorem C1_lineParser_extracts_marked_tokens :
  (forall line from to,
      lineParser line = Some (from, to) -> deliveryRecord line from to)
  /\ (forall line,
        (exists from to, deliveryRecord line from to) ->
        exists from to,
          lineParser line = Some (from, to) /\ deliveryRecord line from to)
  /\ (forall line,
        ~ (exists from to, deliveryRecord line from to) ->
        lineParser line = None)
  /\ (forall line from to a b,
        lineParser line = Some (from, to) ->
        (occursOnce (B " <= ") line -> line = a ++ B " <= " ++ b ->
         firstToken from b)
        /\ (occursOnce (B " for ") line -> line = a ++ B " for " ++ b ->
            firstToken to b))
  /\ (forall line from to,
        lineParser (B line) = Some (from, to) <->
        exists m, FindStringSubmatch lineMatch line = Some m
                  /\ length m = 3 /\ idx m 1 = S_ from /\ idx m 2 = S_ to).
Proof.
  split; [|split; [|split; [|split]]].
  - apply LineParserProofs.lineParser_sound.
  - intros line (f & t & Hd).
    destruct (LineParserProofs.lineParser_complete _ _ _ Hd) as [[f' t'] H].
    exists f', t'. split; [exact H|].
    by apply LineParserProofs.lineParser_sound.
  - intros line Hno.
    destruct (lineParser line) as [[f t]|] eqn:H; [|reflexivity].
    exfalso. apply Hno. exists f, t.
    by apply LineParserProofs.lineParser_sound.
  - intros line f t a b H.
    apply LineParserProofs.lineParser_sound in H. split; intros Honce Hab.
    + by apply (deliveryRecord_single_sender line f t a).
    + by apply (deliveryRecord_single_recipient line f t a).
  - intros line f t. unfold lineParser, FindStringSubmatch. split.
    + destruct (FindSubmatch lineMatch (B line)) as [m|] eqn:Hm; [|done].
      intros [= <- <-]. exists (map S_ m).
      pose proof (LineParserProofs.lineMatch_length _ _ Hm) as Hlen.
      destruct m as [|m0 [|m1 [|m2 [|? ?]]]]; try discriminate.
      repeat split; reflexivity.
    + intros (m & Hm & Hlen & H1 & H2).
      destruct (FindSubmatch lineMatch (B line)) as [m'|] eqn:Hm'; [|done].
      simpl in Hm. injection Hm as <-.
      pose proof (LineParserProofs.lineMatch_length _ _ Hm') as Hlen'.
      destruct m' as [|m0 [|m1 [|m2 [|? ?]]]]; try discriminate.
      cbn in H1, H2. f_equal. f_equal.
      * by rewrite <- (B_S_ m1), H1, B_S_.
      * by rewrite <- (B_S_ m2), H2, B_S_.
Qed.

(** ** Integers and case folding *)

Lemma incr_no_overflow z : (minInt <= z < maxInt)%Z -> incr z = (z + 1)%Z.
Proof.
  unfold incr, wrapInt, minInt, maxInt. intros H.
  rewrite Z.mod_small; lia.
Qed.

(** *** C10 *)

(** C10. [toLower] maps exactly the runes ['A'] to ['Z'] to the lowercase
    letter [r + 32] and returns every other rune unchanged; an address with
    an uppercase letter outside ASCII (here U+00C9, bytes C3 89) keeps that
    letter when it is folded with [bytes.Map(toLower, _)]. *)
Theorem C10_toLower_ascii_only :
  (forall r, (65 <= r <= 90)%Z -> toLower r = (r + 32)%Z
                                /\ (97 <= toLower r <= 122)%Z)
  /\ (forall r, ~ (65 <= r <= 90)%Z -> toLower r = r)
  /\ Utf8.Map toLower (["195"; "137"] ++ B "COLE@Example.FR")%char
     = (["195"; "137"] ++ B "cole@example.fr")%char.
Proof.
  split; [|split].
  - intros r Hr. unfold toLower.
    replace ((65 <=? r) && (r <=? 90))%Z with true by (symmetry; apply andb_true_iff; lia).
    unfold wrapRune, letterDiff. rewrite Z.mod_small; lia.
  - intros r Hr. unfold toLower.
    destruct ((65 <=? r) && (r <=? 90))%Z eqn:E; [|reflexivity].
    apply andb_true_iff in E. lia.
  - vm_compute. reflexivity.
Qed.

Lemma C10_toLower_ascii_only_witness :
  toLower 81 = 113%Z /\ toLower 201 = 201%Z.
Proof.
  split.
  - apply (proj1 C10_toLower_ascii_only 81%Z). lia.
  - apply (proj1 (proj2 C10_toLower_ascii_only) 201%Z). lia.
Defined.

(** ** Aggregator *)

Lemma record_emails owner c st :
  emails (record owner c st)
  = <[owner := <[c := true]> (correspondents owner st)]> (emails st).
Proof.
  unfold record, correspondents.
  destruct (emails st !! owner) as [val|]; simpl; [reflexivity|].
  by rewrite insert_empty.
Qed.

Lemma recordSeq_emails owner c st :
  emails (recordSeq owner c st) = emails (record owner c st).
Proof. unfold record, recordSeq. by destruct (emails st !! owner). Qed.

Lemma record_correspondents owner c st :
  correspondents owner (record owner c st)
  = <[c := true]> (correspondents owner st).
Proof.
  unfold correspondents at 1. by rewrite record_emails, lookup_insert_eq.
Qed.

Lemma record_correspondents_ne owner owner' c st :
  owner <> owner' ->
  correspondents owner' (record owner c st) = correspondents owner' st.
Proof.
  intros Hne. unfold correspondents.
  by rewrite record_emails, lookup_insert_ne.
Qed.

Lemma record_idempotent owner c st :
  record owner c (record owner c st) = record owner c st.
Proof.
  unfold record at 1.
  assert (H : emails (record owner c st) !! owner
              = Some (<[c := true]> (correspondents owner st))).
  { by rewrite record_emails, lookup_insert_eq. }
  rewrite H. rewrite insert_insert_eq.
  rewrite record_emails, insert_insert_eq.
  unfold record, correspondents.
  destruct (emails st !! owner) as [val|]; simpl; unfold setEmails; simpl.
  - reflexivity.
  - by rewrite insert_empty.
Qed.

Lemma recordSeq_idempotent owner c st :
  recordSeq owner c (recordSeq owner c st) = recordSeq owner c st.
Proof.
  unfold recordSeq at 1.
  assert (H : emails (recordSeq owner c st) !! owner
              = Some (<[c := true]> (correspondents owner st))).
  { by rewrite recordSeq_emails, record_emails, lookup_insert_eq. }
  rewrite H. rewrite insert_insert_eq.
  rewrite recordSeq_emails, record_emails, insert_insert_eq.
  unfold recordSeq, correspondents.
  destruct (emails st !! owner) as [val|]; simpl; unfold setEmails; simpl.
  - reflexivity.
  - by rewrite insert_empty.
Qed.

(** *** C3 *)

(** C3. Recording the same pair a second time changes nothing: the owner's
    correspondent set has the size it had after the first call (the whole
    state is the same), from every prior state, in the concurrent and in the
    sequential variants. *)
Theorem C3_record_twice_same_size :
  forall owner correspondent st,
    size (correspondents owner (record owner correspondent
                                  (record owner correspondent st)))
    = size (correspondents owner (record owner correspondent st))
    /\ record owner correspondent (record owner correspondent st)
       = record owner correspondent st
    /\ recordSeq owner correspondent (recordSeq owner correspondent st)
       = recordSeq owner correspondent st.
Proof.
  intros owner c st. rewrite record_idempotent, recordSeq_idempotent. auto.
Qed.

(** ** Classifier *)

Lemma lineParser_Some line from to :
  lineParser line = Some (from, to) ->
  exists m, FindSubmatch lineMatch line = Some m
            /\ idx m 1 = from /\ idx m 2 = to.
Proof.
  unfold lineParser. destruct (FindSubmatch lineMatch line) as [m|]; [|done].
  intros [= <- <-]. eauto.
Qed.

Lemma FindStringSubmatch_lineParser line from to :
  lineParser (B line) = Some (from, to) ->
  exists m, FindStringSubmatch lineMatch line = Some m
            /\ idx m 1 = S_ from /\ idx m 2 = S_ to.
Proof.
  intros H. pose proof H as H'.
  apply lineParser_Some in H as (m & Hm & <- & <-).
  unfold FindStringSubmatch. rewrite Hm. simpl.
  exists (map S_ m). split; [reflexivity|].
  apply LineParserProofs.lineMatch_length in Hm.
  destruct m as [|m0 [|m1 [|m2 [|? ?]]]]; try discriminate.
  split; reflexivity.
Qed.

Section ClassifierFacts.

Variable emailRegex : bytes -> bool.
Variable ignoreRegex : bytes -> bool.

Lemma processLine_not_included line from to st :
  lineParser line = Some (from, to) -> emailRegex from = false ->
  processLine emailRegex ignoreRegex line st
  = setIgnoreCount (incr (ignoreCount st)) st.
Proof.
  intros Hp Hf. apply lineParser_Some in Hp as (m & Hm & <- & <-).
  unfold processLine. by rewrite Hm, Hf.
Qed.

Lemma processLine_excluded line from to st :
  lineParser line = Some (from, to) ->
  emailRegex from = true -> ignoreRegex to = true ->
  processLine emailRegex ignoreRegex line st
  = setIgnoreCount (incr (ignoreCount st)) st.
Proof.
  intros Hp Hf Ht. apply lineParser_Some in Hp as (m & Hm & <- & <-).
  unfold processLine. by rewrite Hm, Hf, Ht.
Qed.

Lemma processLine_recorded line from to st :
  lineParser line = Some (from, to) ->
  emailRegex from = true -> ignoreRegex to = false ->
  processLine emailRegex ignoreRegex line st
  = let st1 := record (S_ (Utf8.Map toLower from))
                 (S_ (Utf8.Map toLower to)) st in
    let st2 := setMatchCount (incr (matchCount st1)) st1 in
    let st3 := setLineCount (incr (lineCount st2)) st2 in
    setLogLineCount (decr (logLineCount st3)) st3.
Proof.
  intros Hp Hf Ht. apply lineParser_Some in Hp as (m & Hm & <- & <-).
  unfold processLine. by rewrite Hm, Hf, Ht.
Qed.

Lemma record_ignoreCount owner c st :
  ignoreCount (record owner c st) = ignoreCount st.
Proof. unfold record. by destruct (emails st !! owner). Qed.

Lemma record_lookup owner c st :
  correspondents owner (record owner c st) !! c = Some true.
Proof. rewrite record_correspondents. apply lookup_insert_eq. Qed.

(** *** C2 *)

(** C2. Sender-anchored mode, for a parsed pair [(from, to)]: when [from]
    does not match the inclusion pattern the pair is dropped (the map is
    untouched) and the ignored count is incremented; otherwise, when [to]
    matches the exclusion pattern, likewise; otherwise both addresses are
    folded with [toLower] and [to] is recorded as a correspondent of the
    owner [from]. *)
Theorem C2_sender_anchored_classification :
  forall line from to st,
    lineParser line = Some (from, to) ->
    let st' := processLine emailRegex ignoreRegex line st in
    let dropped :=
      emails st' = emails st
      /\ matchCount st' = matchCount st
      /\ ignoreCount st' = incr (ignoreCount st)
      /\ ((minInt <= ignoreCount st < maxInt)%Z ->
          ignoreCount st' = (ignoreCount st + 1)%Z) in
    (emailRegex from = false -> dropped)
    /\ (emailRegex from = true -> ignoreRegex to = true -> dropped)
    /\ (emailRegex from = true -> ignoreRegex to = false ->
        let owner := S_ (Utf8.Map toLower from) in
        let correspondent := S_ (Utf8.Map toLower to) in
        emails st' = emails (record owner correspondent st)
        /\ correspondents owner st' !! correspondent = Some true
        /\ ignoreCount st' = ignoreCount st).
Proof.
  intros line from to st Hp. cbn zeta.
  split; [|split].
  - intros Hf. rewrite (processLine_not_included _ _ _ _ Hp Hf). simpl.
    repeat split; auto. apply incr_no_overflow.
  - intros Hf Ht. rewrite (processLine_excluded _ _ _ _ Hp Hf Ht). simpl.
    repeat split; auto. apply incr_no_overflow.
  - intros Hf Ht. rewrite (processLine_recorded _ _ _ _ Hp Hf Ht). simpl.
    split; [reflexivity|]. split; [|apply record_ignoreCount].
    apply record_lookup.
Qed.

(** *** C6 *)

(** C6 as the code has it.  Symmetric mode: a pair whose two addresses both
    match the inclusion pattern is dropped and counted as ignored.
    Sender-anchored mode: the recipient is never tested against the
    inclusion pattern; such a pair is dropped and counted as ignored when the
    recipient matches the exclusion pattern, and recorded otherwise. *)
Theorem C6_both_included_by_mode :
  forall line from to st,
    lineParser (B line) = Some (from, to) ->
    emailRegex from = true -> emailRegex to = true ->
    (mainLine emailRegex line st = setIgnoreCount (incr (ignoreCount st)) st)
    /\ (ignoreRegex to = true ->
        processLine emailRegex ignoreRegex (B line) st
        = setIgnoreCount (incr (ignoreCount st)) st)
    /\ (ignoreRegex to = false ->
        let st' := processLine emailRegex ignoreRegex (B line) st in
        correspondents (S_ (Utf8.Map toLower from)) st'
          !! S_ (Utf8.Map toLower to) = Some true
        /\ ignoreCount st' = ignoreCount st).
Proof.
  intros line from to st Hp Hf Ht.
  split.
  - apply FindStringSubmatch_lineParser in Hp as (m & Hm & H1 & H2).
    unfold mainLine. rewrite Hm. cbn zeta. rewrite H1, H2.
    unfold emailRegexMatchString. rewrite !B_S_, Hf, Ht. reflexivity.
  - split.
    + intros Hi. by apply (processLine_excluded _ from to).
    + intros Hi. cbn zeta. rewrite (processLine_recorded _ _ _ _ Hp Hf Hi).
      simpl. split; [apply record_lookup|apply record_ignoreCount].
Qed.

End ClassifierFacts.

(** *** C6: the claim as stated fails in sender-anchored mode *)

Lemma C6_counterexample :
  ~ (forall (emailRegex ignoreRegex : bytes -> bool) line from to st,
        lineParser line = Some (from, to) ->
        emailRegex from = true -> emailRegex to = true ->
        emails (processLine emailRegex ignoreRegex line st) = emails st
        /\ ignoreCount (processLine emailRegex ignoreRegex line st)
           = incr (ignoreCount st)).
Proof.
  intros H.
  specialize (H emailTestCom ignoreEmpty
                (nl "2024-01-01 10:00:00 <= alice@test.com H=mx for bob@test.com")
                (B "alice@test.com") (B "bob@test.com") (initState 1 1)
                eq_refl eq_refl eq_refl).
  destruct H as [_ H]. vm_compute in H. discriminate.
Qed.

Lemma C6_both_included_by_mode_witness :
  let line := "2024-01-01 10:00:00 <= alice@test.com H=mx for bob@test.com
"%string in
  let st := initState 1 1 in
  mainLine emailTestCom line st = setIgnoreCount (incr (ignoreCount st)) st
  /\ correspondents "alice@test.com"
       (processLine emailTestCom ignoreEmpty (B line) st)
     !! "bob@test.com" = Some true.
Proof.
  cbn zeta.
  pose proof (C6_both_included_by_mode emailTestCom ignoreEmpty
    "2024-01-01 10:00:00 <= alice@test.com H=mx for bob@test.com
"%string (B "alice@test.com") (B "bob@test.com") (initState 1 1)
    eq_refl eq_refl eq_refl) as (H1 & _ & H3).
  split; [exact H1|]. exact (proj1 (H3 eq_refl)).
Defined.

Lemma C2_sender_anchored_classification_witness :
  let line := nl "2024-01-01 10:00:00 <= Alice@test.com H=mx for Bob@other.com" in
  let st := initState 1 1 in
  ignoreCount (processLine emailTestCom ignoreOtherCom line st) = 1%Z
  /\ correspondents "alice@test.com"
       (processLine emailTestCom ignoreEmpty line st)
     !! "bob@other.com" = Some true.
Proof.
  cbn zeta.
  pose proof (C2_sender_anchored_classification emailTestCom ignoreOtherCom
    (nl "2024-01-01 10:00:00 <= Alice@test.com H=mx for Bob@other.com")
    (B "Alice@test.com") (B "Bob@other.com") (initState 1 1) eq_refl)
    as (_ & H2 & _).
  pose proof (C2_sender_anchored_classification emailTestCom ignoreEmpty
    (nl "2024-01-01 10:00:00 <= Alice@test.com H=mx for Bob@other.com")
    (B "Alice@test.com") (B "Bob@other.com") (initState 1 1) eq_refl)
    as (_ & _ & H3).
  split.
  - exact (proj1 (proj2 (proj2 (H2 eq_refl eq_refl)))).
  - exact (proj1 (proj2 (H3 eq_refl eq_refl))).
Defined.

Lemma C1_lineParser_extracts_marked_tokens_witness :
  let line := nl "2024-01-01 10:00:00 <= alice@test.com H=mx for bob@other.com" in
  lineParser line = Some (B "alice@test.com", B "bob@other.com")
  /\ deliveryRecord line (B "alice@test.com") (B "bob@other.com")
  /\ lineParser (nl "2024-01-01 10:00:00 => carol@test.com R=dnslookup") = None.
Proof.
  cbn zeta. split; [reflexivity|]. split.
  - apply (proj1 C1_lineParser_extracts_marked_tokens). reflexivity.
  - reflexivity.
Defined.

(** ** Symmetric classification *)

Lemma mainLine_neither (emailRegex : bytes -> bool) line g1 g2 st :
  lineParser (B line) = Some (g1, g2) ->
  emailRegex g1 = false -> emailRegex g2 = false ->
  mainLine emailRegex line st
  = let st1 := setMatchCount (incr (matchCount st)) st in
    let st2 := recordSeq (S_ g2) (S_ g1) st1 in
    let st3 := setLineCount (incr (lineCount st2)) st2 in
    setLogLineCount (decr (logLineCount st3)) st3.
Proof.
  intros Hp H1 H2.
  apply FindStringSubmatch_lineParser in Hp as (m & Hm & E1 & E2).
  unfold mainLine. rewrite Hm. cbn zeta. rewrite E1, E2.
  unfold emailRegexMatchString. rewrite !B_S_, H1, H2. reflexivity.
Qed.

(** *** C9 *)

(** C9, evaluated on [main.go].  With the inclusion pattern [test.com] and
    a delivery line from [alice@a.org] to [bob@b.org], neither address is
    included and the line is counted as matched; the owner of the new entry
    is the token of the second group ([bob@b.org], after [for]) and the
    token of the first group ([alice@a.org], after [<=]) is its
    correspondent. *)
Theorem C9_symmetric_neither_included_owner :
  let line := "2024-01-01 10:00:00 <= alice@a.org H=mx for bob@b.org
"%string in
  let st' := mainLine emailTestCom line (initState 100 1) in
  FindStringSubmatch lineMatch line
  = Some ["2024-01-01 10:00:00 <= alice@a.org H=mx for bob@b.org";
          "alice@a.org"; "bob@b.org"]%string
  /\ emailTestCom (B "alice@a.org") = false
  /\ emailTestCom (B "bob@b.org") = false
  /\ matchCount st' = 1%Z /\ ignoreCount st' = 0%Z
  /\ emails st' !! "bob@b.org"%string = Some {[ "alice@a.org"%string := true ]}
  /\ emails st' !! "alice@a.org"%string = None.
Proof. cbn zeta. repeat split; vm_compute; reflexivity. Qed.

(** ** Growth of the aggregation state *)

Lemma grownFrom_refl st : grownFrom st st.
Proof. unfold grownFrom. repeat split; auto; lia. Qed.

Lemma grownFrom_trans st1 st2 st3 :
  grownFrom st1 st2 -> grownFrom st2 st3 -> grownFrom st1 st3.
Proof.
  intros (A1 & A2 & A3 & A4 & A5 & A6) (B1 & B2 & B3 & B4 & B5 & B6).
  unfold grownFrom. repeat split; try lia.
  - auto.
  - intros o. etrans; [apply A2|apply B2].
Qed.

Lemma countersBelow_weaken n st : countersBelow (S n) st -> countersBelow n st.
Proof. unfold countersBelow. lia. Qed.

Lemma incr_below z n :
  (0 <= z)%Z -> (z + Z.of_nat (S n) <= maxInt)%Z -> incr z = (z + 1)%Z.
Proof. intros. apply incr_no_overflow. unfold minInt. lia. Qed.

Lemma record_grows_emails owner c st :
  (forall o, is_Some (emails st !! o) ->
             is_Some (emails (record owner c st) !! o))
  /\ (forall o, dom (correspondents o st)
               ⊆ dom (correspondents o (record owner c st))).
Proof.
  split; intros o.
  - rewrite record_emails. destruct (decide (owner = o)) as [->|Hne].
    + rewrite lookup_insert_eq. eauto.
    + by rewrite lookup_insert_ne.
  - destruct (decide (owner = o)) as [->|Hne].
    + rewrite record_correspondents, dom_insert_L. set_solver.
    + by rewrite record_correspondents_ne.
Qed.

Lemma record_counters owner c st :
  lineCount (record owner c st) = lineCount st
  /\ matchCount (record owner c st) = matchCount st
  /\ ignoreCount (record owner c st) = ignoreCount st
  /\ (fromCount (record owner c st) = fromCount st
      \/ fromCount (record owner c st) = incr (fromCount st)).
Proof. unfold record. destruct (emails st !! owner); simpl; auto. Qed.

Lemma recordSeq_counters owner c st :
  lineCount (recordSeq owner c st) = lineCount st
  /\ matchCount (recordSeq owner c st) = matchCount st
  /\ ignoreCount (recordSeq owner c st) = ignoreCount st
  /\ fromCount (recordSeq owner c st) = fromCount st.
Proof. unfold recordSeq. destruct (emails st !! owner); simpl; auto. Qed.

Lemma correspondents_emails st st' :
  emails st' = emails st ->
  forall o, correspondents o st' = correspondents o st.
Proof. intros E o. unfold correspondents. by rewrite E. Qed.

Lemma oneStep_grows n st st' :
  oneStep st st' -> countersBelow (S n) st ->
  grownFrom st st' /\ countersBelow n st'.
Proof.
  intros (G1 & G2 & E1 & E2 & E3 & E4) Hb.
  unfold grownFrom, countersBelow in *.
  assert (H1 : (lineCount st <= lineCount st' <= lineCount st + 1)%Z).
  { destruct E1 as [-> | ->]; [|rewrite (incr_below _ n)]; lia. }
  assert (H2 : (matchCount st <= matchCount st' <= matchCount st + 1)%Z).
  { destruct E2 as [-> | ->]; [|rewrite (incr_below _ n)]; lia. }
  assert (H3 : (ignoreCount st <= ignoreCount st' <= ignoreCount st + 1)%Z).
  { destruct E3 as [-> | ->]; [|rewrite (incr_below _ n)]; lia. }
  assert (H4 : (fromCount st <= fromCount st' <= fromCount st + 1)%Z).
  { destruct E4 as [-> | ->]; [|rewrite (incr_below _ n)]; lia. }
  repeat split; auto; lia.
Qed.

Lemma oneStep_counters st st' :
  emails st' = emails st ->
  (lineCount st' = lineCount st \/ lineCount st' = incr (lineCount st)) ->
  (matchCount st' = matchCount st \/ matchCount st' = incr (matchCount st)) ->
  (ignoreCount st' = ignoreCount st
   \/ ignoreCount st' = incr (ignoreCount st)) ->
  (fromCount st' = fromCount st \/ fromCount st' = incr (fromCount st)) ->
  oneStep st st'.
Proof.
  intros Ee E1 E2 E3 E4. pose proof (correspondents_emails _ _ Ee) as Ec.
  unfold oneStep. rewrite Ee. repeat split; auto.
  intros o. by rewrite Ec.
Qed.

(** The state after a [record] and further counter updates. *)
Lemma oneStep_record owner c st st' :
  emails st' = emails (record owner c st) ->
  (lineCount st' = lineCount st \/ lineCount st' = incr (lineCount st)) ->
  (matchCount st' = matchCount st \/ matchCount st' = incr (matchCount st)) ->
  (ignoreCount st' = ignoreCount st
   \/ ignoreCount st' = incr (ignoreCount st)) ->
  (fromCount st' = fromCount st \/ fromCount st' = incr (fromCount st)) ->
  oneStep st st'.
Proof.
  intros Ee E1 E2 E3 E4. pose proof (correspondents_emails _ _ Ee) as Ec.
  destruct (record_grows_emails owner c st) as [G1 G2].
  unfold oneStep. rewrite Ee. repeat split; auto.
  intros o. rewrite Ec. apply G2.
Qed.

Lemma applyOp_oneStep emailRegex ignoreRegex op st :
  oneStep st (applyOp emailRegex ignoreRegex op st).
Proof.
  destruct op as [o c|o c|line|line]; simpl.
  - destruct (record_counters o c st) as (E1 & E2 & E3 & E4).
    apply (oneStep_record o c); auto.
  - destruct (recordSeq_counters o c st) as (E1 & E2 & E3 & E4).
    apply (oneStep_record o c); auto using recordSeq_emails.
  - unfold processLine.
    destruct (FindSubmatch lineMatch line) as [m|];
      [|apply oneStep_counters; simpl; auto].
    destruct (emailRegex (idx m 1)); simpl;
      [|apply oneStep_counters; simpl; auto].
    destruct (ignoreRegex (idx m 2)); simpl;
      [apply oneStep_counters; simpl; auto|].
    destruct (record_counters (S_ (Utf8.Map toLower (idx m 1)))
                (S_ (Utf8.Map toLower (idx m 2))) st) as (E1 & E2 & E3 & E4).
    eapply oneStep_record; simpl; [reflexivity|..]; rewrite ?E1, ?E2, ?E3; auto.
  - unfold mainLine.
    destruct (FindStringSubmatch lineMatch line) as [m|]; cbn zeta;
      [|apply oneStep_counters; simpl; auto].
    destruct (emailRegexMatchString emailRegex (idx m 1));
      destruct (emailRegexMatchString emailRegex (idx m 2)); simpl;
      try (apply oneStep_counters; simpl; auto; fail).
    all: match goal with
         | |- context [recordSeq ?o ?c ?s0] =>
             destruct (recordSeq_counters o c s0) as (F1 & F2 & F3 & F4);
             pose proof (recordSeq_emails o c s0) as Fe;
             apply (oneStep_record o c); simpl;
             rewrite ?F1, ?F2, ?F3, ?F4, ?Fe; simpl; auto
         end.
    all: by rewrite !record_emails.
Qed.

Lemma runOps_grows emailRegex ignoreRegex ops : forall st,
  countersBelow (length ops) st ->
  grownFrom st (runOps emailRegex ignoreRegex ops st).
Proof.
  induction ops as [|op ops IH]; intros st Hb; simpl.
  - apply grownFrom_refl.
  - destruct (oneStep_grows (length ops) st
                (applyOp emailRegex ignoreRegex op st)
                (applyOp_oneStep _ _ _ _) Hb) as [G Hb'].
    eapply grownFrom_trans; [exact G|]. by apply IH.
Qed.

Lemma runOps_below emailRegex ignoreRegex ops : forall n st,
  countersBelow (length ops + n) st ->
  countersBelow n (runOps emailRegex ignoreRegex ops st).
Proof.
  induction ops as [|op ops IH]; intros n st Hb; simpl; [exact Hb|].
  apply IH.
  by destruct (oneStep_grows (length ops + n) st
                 (applyOp emailRegex ignoreRegex op st)
                 (applyOp_oneStep _ _ _ _) Hb).
Qed.

Lemma runOps_app emailRegex ignoreRegex ops1 ops2 st :
  runOps emailRegex ignoreRegex (ops1 ++ ops2) st
  = runOps emailRegex ignoreRegex ops2 (runOps emailRegex ignoreRegex ops1 st).
Proof. unfold runOps. apply foldl_app. Qed.

(** ** FileWorker and read errors *)

Section WorkerFacts.

Variable emailRegex : bytes -> bool.
Variable ignoreRegex : bytes -> bool.
Variable logFrequency : Z.

Lemma readLoop_lines fileName calls n : forall fuel i st,
  (forall j, i <= j < i + n -> (calls j).2 = None) ->
  readLoop emailRegex ignoreRegex logFrequency (n + fuel) fileName
    (Some calls) i st
  = readLoop emailRegex ignoreRegex logFrequency fuel fileName
      (Some calls) (i + n)
      (afterLines emailRegex ignoreRegex logFrequency calls n i st).
Proof.
  induction n as [|n IH]; intros fuel i st Hok.
  - simpl. by rewrite Nat.add_0_r.
  - replace (i + S n) with (S i + n) by lia. simpl.
    specialize (Hok i ltac:(lia)) as Hi.
    destruct (calls i) as [line err] eqn:Hr. simpl in Hi. subst err.
    apply IH. intros j Hj. apply Hok. lia.
Qed.

(** The loop on a reader whose first [n] reads succeed and whose next read
    fails with an error other than [io.EOF]: the worker logs the error and
    returns, and only the first [n] lines were processed. *)
Lemma readLoop_read_error fileName calls n st fuel :
  (forall j, j < n -> (calls j).2 = None) ->
  (calls n).2 = Some IOErr ->
  n < fuel ->
  readLoop emailRegex ignoreRegex logFrequency fuel fileName (Some calls) 0 st
  = Some (Returned
            (logEvent (ErrRead fileName)
               (progressCheck logFrequency
                  (afterLines emailRegex ignoreRegex logFrequency calls n 0 st)))).
Proof.
  intros Hok Herr Hfuel.
  replace fuel with (n + S (fuel - S n)) by lia.
  rewrite readLoop_lines by (intros j Hj; apply Hok; lia).
  simpl. destruct (calls n) as [line err]. simpl in Herr. by subst err.
Qed.

(** The loop on a reader whose first [n] reads succeed and whose next read
    reports the end of the file. *)
Lemma readLoop_eof fileName calls n st fuel :
  (forall j, j < n -> (calls j).2 = None) ->
  (calls n).2 = Some EOF ->
  n < fuel ->
  let st1 := progressCheck logFrequency
               (afterLines emailRegex ignoreRegex logFrequency calls n 0 st) in
  readLoop emailRegex ignoreRegex logFrequency fuel fileName (Some calls) 0 st
  = Some (Returned (logEvent (DebugFinished fileName)
                      (setRemainingFiles (decr (remainingFiles st1)) st1))).
Proof.
  intros Hok Herr Hfuel. cbn zeta.
  replace fuel with (n + S (fuel - S n)) by lia.
  rewrite readLoop_lines by (intros j Hj; apply Hok; lia).
  simpl. destruct (calls n) as [line err]. simpl in Herr. by subst err.
Qed.

(** What happened after the failing read does not matter to the worker. *)
Lemma afterLines_ext calls calls' n : forall i st,
  (forall j, i <= j < i + n -> calls j = calls' j) ->
  afterLines emailRegex ignoreRegex logFrequency calls n i st
  = afterLines emailRegex ignoreRegex logFrequency calls' n i st.
Proof.
  induction n as [|n IH]; intros i st Heq; simpl; [reflexivity|].
  rewrite (Heq i) by lia. apply IH. intros j Hj. apply Heq. lia.
Qed.

(** A read error in [processFile] on a reader that was built: the other
    files are still processed. *)
Lemma runFiles_read_error fs fileName rest n st fuel :
  isGz fileName && gzipFails (fs fileName) = false ->
  let calls := if isGz fileName then gzipReads (fs fileName)
               else reads (fs fileName) in
  (forall j, j < n -> (calls j).2 = None) ->
  (calls n).2 = Some IOErr ->
  n < fuel ->
  exists st',
    processFile emailRegex ignoreRegex logFrequency fuel (fs fileName)
      fileName st = Some (Returned st')
    /\ ErrRead fileName ∈ logged st'
    /\ runFiles emailRegex ignoreRegex logFrequency fuel fs (fileName :: rest) st
       = runFiles emailRegex ignoreRegex logFrequency fuel fs rest st'.
Proof.
  intros Hnil calls Hok Herr Hfuel.
  assert (Hr : forall st0, newReader (fs fileName) fileName st0
                           = (st0, Some calls)).
  { intros st0. unfold newReader, calls.
    destruct (isGz fileName); [|reflexivity].
    simpl in Hnil. by rewrite Hnil. }
  eexists. split; [|split].
  - unfold processFile. rewrite Hr.
    by apply (readLoop_read_error fileName calls n).
  - simpl. set_solver.
  - simpl. unfold processFile. rewrite Hr.
    by rewrite (readLoop_read_error fileName calls n).
Qed.

(** When [gzip.NewReader] fails, the worker logs the error and goes on
    with a nil reader: the first read panics. *)
Lemma processFile_gzip_header_error fileName env st fuel :
  isGz fileName = true -> gzipFails env = true ->
  exists st',
    processFile emailRegex ignoreRegex logFrequency (S fuel) env fileName st
    = Some (Panicked st')
    /\ ErrGzip fileName ∈ logged st'.
Proof.
  intros Hgz Hfail. unfold processFile, newReader. rewrite Hgz, Hfail. simpl.
  eexists. split; [reflexivity|].
  unfold progressCheck. destruct (_ <=? 0)%Z; simpl; set_solver.
Qed.

(** [main.go]: while the reads keep failing the loop keeps running. *)
Lemma mainLoop_persistent_error fileName calls :
  (forall i, (calls i).2 = Some IOErr) ->
  forall fuel i st, mainLoop emailRegex fuel fileName calls i st = None.
Proof.
  intros Herr. induction fuel as [|fuel IH]; intros i st; simpl; [reflexivity|].
  specialize (Herr i). destruct (calls i) as [line err]. simpl in Herr.
  subst err. apply IH.
Qed.

End WorkerFacts.

(** *** C5 *)

(** C5, evaluated.  [main.go] logs a read error other than [io.EOF] and
    keeps reading: the delivery line read after the error is aggregated, and
    on a file whose reads keep failing the loop never ends, so the next file
    is never reached.  [processFile] on a [.gz] file that [gzip.NewReader]
    rejects logs the error and then panics at the first read, which ends the
    process before [b.log] is read. *)
Theorem C5_read_error_not_abandoned :
  (exists st',
      mainFiles emailTestCom 100 10 flakyDir ["a.log"%string] (initState 100 1)
      = Some st'
      /\ ErrRead "a.log" ∈ logged st'
      /\ emails st' !! "alice@test.com"%string
         = Some {[ "bob@other.com"%string := true ]}
      /\ lineCount st' = 2%Z)
  /\ (forall fuel st,
        mainFiles emailTestCom 100 fuel brokenDir
          ["a.log"; "b.log"]%string st = None)
  /\ (exists st',
        runFiles emailAny ignoreEmpty 100 10 brokenDir
          ["a.log.gz"; "b.log"]%string (initState 100 2)
        = Some (Panicked st')
        /\ ErrGzip "a.log.gz" ∈ logged st'
        /\ emails st' = ∅).
Proof.
  split; [|split].
  - eexists. split; [vm_compute; reflexivity|].
    split; [|split; vm_compute; reflexivity].
    simpl. set_solver.
  - intros fuel st. simpl.
    by rewrite (mainLoop_persistent_error emailTestCom "a.log" failingReads).
  - eexists. split; [vm_compute; reflexivity|].
    split; [simpl; set_solver|reflexivity].
Qed.

(** ** Plain and gzip-compressed files *)

Lemma B_app s1 s2 : B (s1 +:+ s2) = B s1 ++ B s2.
Proof. induction s1 as [|c s1 IH]; simpl; [reflexivity|]. by rewrite <- IH. Qed.

(** A name that ends in [.gz] has the extension [.gz]. *)
Lemma isGz_suffix base : isGz (base +:+ ".gz") = true.
Proof.
  unfold isGz, Ext. rewrite B_app, reverse_app. reflexivity.
Qed.

Lemma bufioReads_line content i l :
  (splitLines [] content).1 !! i = Some l -> bufioReads content i = (l, None).
Proof.
  unfold bufioReads. destruct (splitLines [] content) as [ls rest]. simpl.
  by intros ->.
Qed.

Lemma bufioReads_eof content :
  (bufioReads content (length (splitLines [] content).1)).2 = Some EOF.
Proof.
  unfold bufioReads. destruct (splitLines [] content) as [ls rest]. simpl.
  rewrite (lookup_ge_None_2 ls (length ls)) by lia.
  by rewrite Nat.eqb_refl.
Qed.

Lemma bufioReads_ok content j :
  j < length (splitLines [] content).1 -> (bufioReads content j).2 = None.
Proof.
  intros Hj. destruct (lookup_lt_is_Some_2 _ _ Hj) as [l Hl].
  by rewrite (bufioReads_line _ _ _ Hl).
Qed.

Section GzipFacts.

Variable emailRegex : bytes -> bool.
Variable ignoreRegex : bytes -> bool.
Variable logFrequency : Z.

Lemma sameData_refl st : sameData st st.
Proof. unfold sameData. auto 10. Qed.

Lemma sameData_logEvent_l e st1 st2 :
  sameData st1 st2 -> sameData (logEvent e st1) st2.
Proof. unfold sameData. simpl. auto. Qed.

Lemma sameData_logEvent_r e st1 st2 :
  sameData st1 st2 -> sameData st1 (logEvent e st2).
Proof. unfold sameData. simpl. auto. Qed.

Lemma sameData_progressCheck st1 st2 :
  sameData st1 st2 ->
  sameData (progressCheck logFrequency st1) (progressCheck logFrequency st2).
Proof.
  intros (E1 & E2 & E3 & E4 & E5 & E6 & E7). unfold progressCheck.
  rewrite E7. destruct (_ <=? 0)%Z; unfold sameData; simpl; auto 10.
Qed.

Lemma sameData_processLine line st1 st2 :
  sameData st1 st2 ->
  sameData (processLine emailRegex ignoreRegex line st1)
           (processLine emailRegex ignoreRegex line st2).
Proof.
  intros (E1 & E2 & E3 & E4 & E5 & E6 & E7). unfold processLine.
  destruct (FindSubmatch lineMatch line) as [m|];
    [|unfold sameData; simpl; rewrite E2, E7; auto 10].
  destruct (emailRegex (idx m 1));
    [|unfold sameData; simpl; rewrite E4; auto 10].
  destruct (ignoreRegex (idx m 2));
    [unfold sameData; simpl; rewrite E4; auto 10|].
  unfold sameData, record. rewrite E1.
  destruct (emails st2 !! _); simpl; rewrite ?E1, ?E2, ?E3, ?E5, ?E7; auto 10.
Qed.

Lemma sameData_afterLines calls n : forall i st1 st2,
  sameData st1 st2 ->
  sameData (afterLines emailRegex ignoreRegex logFrequency calls n i st1)
           (afterLines emailRegex ignoreRegex logFrequency calls n i st2).
Proof.
  induction n as [|n IH]; intros i st1 st2 H; simpl; [exact H|].
  by apply IH, sameData_processLine, sameData_progressCheck.
Qed.

Lemma sameData_aggregation st1 st2 :
  sameData st1 st2 -> aggregation st1 = aggregation st2.
Proof.
  intros (E1 & E2 & E3 & E4 & E5 & _). unfold aggregation. congruence.
Qed.

Variable gzip : bytes -> bytes.
Variable gunzip : bytes -> option bytes.

(** [compress/gzip] reads back what it wrote. *)
Hypothesis gunzip_gzip : forall content, gunzip (gzip content) = Some content.

(** *** C7 *)

(** C7. For every log content, a worker that reads it from a plain file and
    a worker that reads its gzip-compressed bytes from a file whose name
    ends in [.gz] both run to the end of the file and leave the same
    aggregation map and the same counters, from the same prior state. *)
Theorem C7_gzip_same_aggregation :
  forall content plainName base st fuel,
    isGz plainName = false ->
    length (splitLines [] content).1 < fuel ->
    exists stPlain stGz,
      processFile emailRegex ignoreRegex logFrequency fuel
        (diskFile gunzip content) plainName st = Some (Returned stPlain)
      /\ processFile emailRegex ignoreRegex logFrequency fuel
           (diskFile gunzip (gzip content)) (base +:+ ".gz") st
         = Some (Returned stGz)
      /\ aggregation stPlain = aggregation stGz.
Proof.
  intros content plainName base st fuel Hplain Hfuel.
  set (n := length (splitLines [] content).1) in *.
  unfold processFile, newReader. rewrite Hplain, isGz_suffix. simpl.
  rewrite gunzip_gzip. simpl.
  rewrite !(readLoop_eof _ _ _ _ (bufioReads content) n)
    by (auto using bufioReads_eof; intros j Hj; by apply bufioReads_ok).
  do 2 eexists. split; [reflexivity|]. split; [reflexivity|].
  apply sameData_aggregation.
  match goal with
  | |- sameData (logEvent _ (setRemainingFiles _ ?a))
                (logEvent _ (setRemainingFiles _ ?b)) =>
      assert (H : sameData a b)
  end.
  { apply sameData_progressCheck, sameData_afterLines.
    apply sameData_logEvent_l, sameData_logEvent_r, sameData_refl. }
  destruct H as (E1 & E2 & E3 & E4 & E5 & E6 & E7).
  unfold sameData. simpl. rewrite E6. auto 10.
Qed.

End GzipFacts.

(** ** Concurrent workers *)

Lemma record_insertStep owner c st :
  record owner c st
  = insertStep (bool_decide (is_Some (emails st !! owner))) owner c st.
Proof.
  unfold record, insertStep, correspondents.
  destruct (emails st !! owner) as [val|]; reflexivity.
Qed.

(** A worker that runs alone through the instructions of a line leaves the
    state [processLine] computes, with the mutex free and nothing left to
    execute. *)
Lemma lineInstrs_alone emailRegex ignoreRegex line st :
  let prog := lineInstrs emailRegex ignoreRegex line in
  let final := exec (replicate (length prog) 0) (startMachine st [prog]) in
  shared <$> final = Some (processLine emailRegex ignoreRegex line st)
  /\ writeLock <$> final = Some None
  /\ (fun m => todo <$> threads m) <$> final = Some [[]].
Proof.
  cbn zeta. unfold lineInstrs, processLine.
  destruct (FindSubmatch lineMatch line) as [m|]; cbn zeta.
  - destruct (emailRegex (idx m 1)); cbn [negb].
    + destruct (ignoreRegex (idx m 2)).
      * repeat split; reflexivity.
      * rewrite record_insertStep. repeat split; lazy; reflexivity.
    + repeat split; reflexivity.
  - repeat split; reflexivity.
Qed.

(** *** C4 *)

(** C4, evaluated on two workers with one delivery line each, for different
    senders.  Under the schedule in which both workers read [matchCount]
    before either writes it, both workers finish, the map has the two owners
    with one correspondent each and [fromCount] is 2, but [matchCount] is 1
    although two lines were matched; when the workers run one after the
    other it is 2. *)
Theorem C4_matchCount_update_lost :
  (exists m,
      exec lostUpdateSchedule twoWorkers = Some m
      /\ finished m
      /\ size (emails (shared m)) = 2
      /\ size (correspondents "alice@test.com" (shared m)) = 1
      /\ size (correspondents "carol@test.com" (shared m)) = 1
      /\ fromCount (shared m) = 2%Z
      /\ lineCount (shared m) = 2%Z
      /\ matchCount (shared m) = 1%Z)
  /\ (exists m,
        exec oneAfterTheOther twoWorkers = Some m
        /\ finished m
        /\ matchCount (shared m) = 2%Z).
Proof.
  split.
  - eexists. split; [vm_compute; reflexivity|].
    split; [repeat constructor|]. repeat split; vm_compute; reflexivity.
  - eexists. split; [vm_compute; reflexivity|].
    split; [repeat constructor|]. reflexivity.
Qed.

(** *** Every interleaving keeps the map complete *)

Lemma outside_app p q : outside p -> outside q -> outside (p ++ q).
Proof. induction 1; intros Hq; simpl; try constructor; auto. Qed.

Lemma outside_recordInstrs o c : outside (recordInstrs o c).
Proof. unfold recordInstrs. simpl. repeat constructor. Qed.

Lemma outside_lineInstrs emailRegex ignoreRegex line :
  outside (lineInstrs emailRegex ignoreRegex line).
Proof.
  unfold lineInstrs. destruct (FindSubmatch lineMatch line) as [m|];
    cbn zeta; [|repeat constructor].
  destruct (negb _); [repeat constructor|].
  destruct (ignoreRegex _); [repeat constructor|apply outside_recordInstrs].
Qed.

Lemma outside_workerInstrs emailRegex ignoreRegex lines :
  outside (workerInstrs emailRegex ignoreRegex lines).
Proof.
  induction lines as [|l ls IH]; simpl; [constructor|].
  apply outside_app; [apply outside_lineInstrs|exact IH].
Qed.

Lemma outside_recorder oc : outside (recorder oc).
Proof.
  destruct oc as [o cs]. unfold recorder. simpl.
  induction cs as [|c cs IH]; simpl; [constructor|].
  apply (outside_app (recordInstrs o c)); [apply outside_recordInstrs|exact IH].
Qed.

Lemma insertedIn_step ths i th th' ins o c :
  ths !! i = Some th -> executed th' = ins :: executed th ->
  insertedIn (<[i := th']> ths) o c
  <-> insertedIn ths o c \/ ins = IInsert o c.
Proof.
  intros Hi He. pose proof (lookup_lt_Some _ _ _ Hi) as Hlt.
  unfold insertedIn. split.
  - intros (th0 & Hin & Hex). apply list_elem_of_lookup in Hin as [j Hj].
    destruct (decide (i = j)) as [->|Hne].
    + rewrite list_lookup_insert_eq in Hj by done. injection Hj as <-.
      rewrite He in Hex. apply elem_of_cons in Hex as [->|Hex]; [by right|].
      left. exists th. split; [|done]. apply list_elem_of_lookup. eauto.
    + rewrite list_lookup_insert_ne in Hj by done.
      left. exists th0. split; [|done]. apply list_elem_of_lookup. eauto.
  - intros [(th0 & Hin & Hex) | ->].
    + apply list_elem_of_lookup in Hin as [j Hj].
      destruct (decide (i = j)) as [->|Hne].
      * assert (th0 = th) as -> by congruence.
        exists th'. split.
        -- apply list_elem_of_lookup. exists j.
           by rewrite list_lookup_insert_eq.
        -- rewrite He. by apply elem_of_cons; right.
      * exists th0. split; [|done]. apply list_elem_of_lookup. exists j.
        by rewrite list_lookup_insert_ne.
    + exists th'. split.
      * apply list_elem_of_lookup. exists i. by rewrite list_lookup_insert_eq.
      * rewrite He. by apply elem_of_cons; left.
Qed.

Lemma insertedIn_step_other ths i th th' ins o c :
  ths !! i = Some th -> executed th' = ins :: executed th ->
  (forall o' c', ins <> IInsert o' c') ->
  insertedIn (<[i := th']> ths) o c <-> insertedIn ths o c.
Proof.
  intros Hi He Hne. rewrite (insertedIn_step ths i th th' ins) by done.
  split; [intros [?| ->]; [done|by destruct (Hne o c)]|by left].
Qed.

Lemma progInv_step programs sh lock sh' lock' ths i th th' ins rest :
  progInv programs (mkMachine sh lock ths) ->
  ths !! i = Some th -> todo th = ins :: rest ->
  executed th' = ins :: executed th -> todo th' = rest ->
  progInv programs (mkMachine sh' lock' (<[i := th']> ths)).
Proof.
  unfold progInv. simpl. intros HF Hi Ht He Ht'.
  destruct (Forall2_lookup_l _ _ _ _ _ HF Hi) as (p & Hp & Heq).
  rewrite <- (list_insert_id _ _ _ Hp).
  apply Forall2_insert; [exact HF|].
  rewrite He, Ht', reverse_cons, <- app_assoc. simpl. by rewrite <- Ht.
Qed.

Lemma incr_wrapInt z : incr (wrapInt z) = wrapInt (z + 1).
Proof.
  unfold incr, wrapInt.
  replace ((z + 2 ^ 63) mod 2 ^ 64 - 2 ^ 63 + 1 + 2 ^ 63)%Z
    with ((z + 2 ^ 63) mod 2 ^ 64 + 1)%Z by lia.
  rewrite Zplus_mod_idemp_l. f_equal. f_equal. lia.
Qed.

Lemma setC_emails c z st : emails (setC c z st) = emails st.
Proof. by destruct c. Qed.

Lemma setC_fromCount c z st : fromCount (setC c z st) = fromCount st.
Proof. by destruct c. Qed.

Lemma threadInv_emails st st' lock j th :
  emails st' = emails st -> threadInv st lock j th -> threadInv st' lock j th.
Proof. unfold threadInv. intros ->. auto. Qed.

(** A worker without the mutex is not affected by what the others do. *)
Lemma threadInv_outside st st' lock lock' j th :
  lock <> Some j -> lock' <> Some j ->
  threadInv st lock j th -> threadInv st' lock' j th.
Proof.
  intros Hl Hl' [[_ Ho] | [He _]]; [|done]. left. auto.
Qed.

Lemma mapInv_same sh sh' lock lock' ths ths' :
  emails sh' = emails sh -> fromCount sh' = fromCount sh ->
  (forall o c, insertedIn ths' o c <-> insertedIn ths o c) ->
  mapInv (mkMachine sh lock ths) -> mapInv (mkMachine sh' lock' ths').
Proof.
  intros Ee Ef Hi (M1 & M2 & M3). unfold mapInv, inserted in *. simpl in *.
  rewrite Ee, Ef. split; [|split; [|exact M3]].
  - intros o. rewrite M1. by setoid_rewrite Hi.
  - intros o c. rewrite Hi, <- M2. unfold correspondents. by rewrite Ee.
Qed.

Lemma mapInv_record sh lock lock' ths ths' o c :
  (forall o0 c0, insertedIn ths' o0 c0
                 <-> insertedIn ths o0 c0 \/ IInsert o c = IInsert o0 c0) ->
  mapInv (mkMachine sh lock ths) ->
  mapInv (mkMachine (record o c sh) lock' ths').
Proof.
  intros Hi (M1 & M2 & M3). unfold mapInv, inserted in *. simpl in *.
  split; [|split].
  - intros o0. rewrite record_emails.
    destruct (decide (o = o0)) as [->|Hne].
    + rewrite lookup_insert_eq. split; [|eauto].
      intros _. exists c. apply Hi. by right.
    + rewrite lookup_insert_ne by done. rewrite M1.
      split; intros [c0 H]; exists c0.
      * apply Hi. by left.
      * apply Hi in H as [H|H]; [done|congruence].
  - intros o0 c0. rewrite Hi.
    destruct (decide (o = o0)) as [->|Hne].
    + rewrite record_correspondents, dom_insert_L, elem_of_union,
        elem_of_singleton, M2.
      split; intros [H|H]; auto; [right; congruence|].
      left. congruence.
    + rewrite record_correspondents_ne by done. rewrite M2.
      split; [auto|]. intros [H|H]; [done|congruence].
  - unfold record. destruct (emails sh !! o) as [val|] eqn:E; simpl.
    + rewrite M3. f_equal. f_equal.
      rewrite !map_size_insert, E. reflexivity.
    + rewrite M3, incr_wrapInt. f_equal.
      rewrite map_size_insert, E. lia.
Qed.

Lemma step_preserves programs i m m' :
  machineInv programs m -> step i m = Some m' -> machineInv programs m'.
Proof.
  destruct m as [sh lock ths]. intros (HT & HM & HP). unfold step. simpl.
  destruct (ths !! i) as [th|] eqn:Hi; [|done].
  destruct (todo th) as [|ins rest] eqn:Ht; [done|].
  pose proof (HT i th Hi) as Hti. simpl in Hti.
  pose proof (lookup_lt_Some _ _ _ Hi) as Hlt.
  assert (Hothers : forall sh' lock' th',
    (forall j thj, j <> i -> ths !! j = Some thj ->
                   threadInv sh' lock' j thj) ->
    threadInv sh' lock' i th' ->
    forall j thj, <[i := th']> ths !! j = Some thj ->
                  threadInv sh' lock' j thj).
  { intros sh' lock' th' Ho Hth' j thj Hj.
    destruct (decide (i = j)) as [<-|Hne].
    - rewrite list_lookup_insert_eq in Hj by done. by injection Hj as <-.
    - rewrite list_lookup_insert_ne in Hj by done. by apply Ho. }
  destruct ins as [| |o|o c|cn|cn delta].
  - (* Lock *)
    destruct lock as [holder|] eqn:Hl; [done|]. intros [= <-].
    destruct Hti as [[_ Ho] | [? _]]; [|done].
    rewrite Ht in Ho. inversion Ho as [| | |o c rest' Hrest]; subst.
    split; [|split].
    + simpl. apply Hothers.
      * intros j thj Hne Hj. apply (threadInv_outside sh sh None); try done.
        -- congruence.
        -- by apply (HT j).
      * right. split; [done|]. left. simpl. eauto.
    + eapply mapInv_same; [done|done| |exact HM].
      intros o0 c0. apply (insertedIn_step_other _ _ th _ ILock); done.
    + eapply progInv_step; eauto.
  - (* Unlock *)
    case_bool_decide as Hl; [|done]. intros [= <-]. simpl in Hl. subst lock.
    destruct Hti as [[? _] | [_ Hin]]; [done|].
    destruct Hin as [(o & c & r & E & _) | [(o & c & r & E & _) | (r & E & Ho)]];
      rewrite Ht in E; try discriminate.
    injection E as <-.
    split; [|split].
    + simpl. apply Hothers.
      * intros j thj Hne Hj.
        apply (threadInv_outside sh sh (Some i)); try done.
        -- congruence.
        -- by apply (HT j).
      * left. simpl. done.
    + eapply mapInv_same; [done|done| |exact HM].
      intros o0 c0. apply (insertedIn_step_other _ _ th _ IUnlock); done.
    + eapply progInv_step; eauto.
  - (* Lookup *)
    intros [= <-].
    destruct Hti as [[_ Ho] | [Hl Hin]];
      [rewrite Ht in Ho; inversion Ho|].
    destruct Hin as [(o' & c & r & E & Ho) | [(o' & c & r & E & _) | (r & E & _)]];
      rewrite Ht in E; try discriminate.
    injection E as <- ->.
    split; [|split].
    + simpl. apply Hothers.
      * intros j thj Hne Hj. by apply (HT j).
      * right. split; [done|]. right. left. simpl. eauto 10.
    + eapply mapInv_same; [done|done| |exact HM].
      intros o0 c0. apply (insertedIn_step_other _ _ th _ (ILookup o)); done.
    + eapply progInv_step; eauto.
  - (* Insert *)
    intros [= <-].
    destruct Hti as [[_ Ho] | [Hl Hin]];
      [rewrite Ht in Ho; inversion Ho|].
    destruct Hin as [(o' & c' & r & E & _) | [(o' & c' & r & E & Ho & Hok) | (r & E & _)]];
      rewrite Ht in E; try discriminate.
    injection E as <- <- ->. simpl in Hok. rewrite Hok, <- record_insertStep.
    split; [|split].
    + simpl. apply Hothers.
      * intros j thj Hne Hj.
        apply (threadInv_outside sh _ lock); try (subst lock; congruence).
        by apply (HT j).
      * right. split; [done|]. right. right. simpl. eauto.
    + eapply mapInv_record; [|exact HM].
      intros o0 c0. apply (insertedIn_step _ _ th); done.
    + eapply progInv_step; eauto.
  - (* Load *)
    intros [= <-].
    destruct Hti as [[Hl Ho] | [Hl Hin]].
    2:{ destruct Hin as [(o' & c' & r & E & _) | [(o' & c' & r & E & _) | (r & E & _)]];
          rewrite Ht in E; discriminate. }
    rewrite Ht in Ho. inversion Ho; subst.
    split; [|split].
    + simpl. apply Hothers.
      * intros j thj Hne Hj. by apply (HT j).
      * left. simpl. done.
    + eapply mapInv_same; [done|done| |exact HM].
      intros o0 c0. apply (insertedIn_step_other _ _ th _ (ILoad cn)); done.
    + eapply progInv_step; eauto.
  - (* Store *)
    intros [= <-].
    destruct Hti as [[Hl Ho] | [Hl Hin]].
    2:{ destruct Hin as [(o' & c' & r & E & _) | [(o' & c' & r & E & _) | (r & E & _)]];
          rewrite Ht in E; discriminate. }
    rewrite Ht in Ho. inversion Ho; subst.
    split; [|split].
    + simpl. apply Hothers.
      * intros j thj Hne Hj.
        apply (threadInv_emails sh); [apply setC_emails|]. by apply (HT j).
      * left. simpl. done.
    + eapply mapInv_same; [apply setC_emails|apply setC_fromCount| |exact HM].
      intros o0 c0. apply (insertedIn_step_other _ _ th _ (IStore cn delta)); done.
    + eapply progInv_step; eauto.
Qed.

Lemma exec_preserves programs sched : forall m m',
  machineInv programs m -> exec sched m = Some m' -> machineInv programs m'.
Proof.
  induction sched as [|i sched IH]; intros m m' Hinv; simpl.
  - by intros [= <-].
  - destruct (step i m) as [m1|] eqn:Hs; [|done].
    apply IH. by apply (step_preserves programs i m).
Qed.

Lemma start_machineInv st programs :
  Forall outside programs -> emails st = ∅ -> fromCount st = 0%Z ->
  machineInv programs (startMachine st programs).
Proof.
  intros Hout He Hf. unfold startMachine. split; [|split].
  - simpl. intros i th Hi. rewrite list_lookup_fmap in Hi.
    destruct (programs !! i) as [p|] eqn:Hp; [|done]. injection Hi as <-.
    left. split; [done|]. simpl.
    eapply Forall_lookup_1; eauto.
  - unfold mapInv, inserted, insertedIn, correspondents. simpl.
    rewrite He, Hf. split; [|split; [|reflexivity]].
    + intros o. rewrite lookup_empty. split; [by intros [? ?]|].
      intros (c & th & Hin & Hex). apply list_elem_of_fmap in Hin as (p & -> & _).
      simpl in Hex. by apply elem_of_nil in Hex.
    + intros o c. rewrite lookup_empty. simpl. rewrite dom_empty_L.
      split; [set_solver|].
      intros (th & Hin & Hex). apply list_elem_of_fmap in Hin as (p & -> & _).
      simpl in Hex. by apply elem_of_nil in Hex.
  - unfold progInv. simpl. apply Forall2_fmap_l, Forall_Forall2_diag.
    apply Forall_forall. intros p _. reflexivity.
Qed.

Lemma finished_inserted programs m o c :
  progInv programs m -> finished m ->
  inserted m o c <-> exists p, p ∈ programs /\ IInsert o c ∈ p.
Proof.
  unfold progInv, finished, inserted, insertedIn. intros HP HF. split.
  - intros (th & Hin & Hex). apply list_elem_of_lookup in Hin as [i Hi].
    destruct (Forall2_lookup_l _ _ _ _ _ HP Hi) as (p & Hp & Heq).
    exists p. split; [apply list_elem_of_lookup; eauto|].
    rewrite (proj1 (Forall_lookup _ _) HF i th Hi), app_nil_r in Heq.
    subst p. by rewrite elem_of_reverse.
  - intros (p & Hin & Hex). apply list_elem_of_lookup in Hin as [i Hi].
    destruct (Forall2_lookup_r _ _ _ _ _ HP Hi) as (th & Hth & Heq).
    exists th. split; [apply list_elem_of_lookup; eauto|].
    rewrite (proj1 (Forall_lookup _ _) HF i th Hth), app_nil_r in Heq.
    subst p. by rewrite elem_of_reverse in Hex.
Qed.

(** Under every schedule that lets all workers finish, the map holds
    exactly the pairs of the critical sections of all workers, and
    [fromCount] is the number of owners. *)
Lemma workers_map_complete programs sched st m :
  Forall outside programs -> emails st = ∅ -> fromCount st = 0%Z ->
  exec sched (startMachine st programs) = Some m -> finished m ->
  (forall o c, c ∈ dom (correspondents o (shared m))
               <-> exists p, p ∈ programs /\ IInsert o c ∈ p)
  /\ (forall o, is_Some (emails (shared m) !! o)
                <-> exists c p, p ∈ programs /\ IInsert o c ∈ p)
  /\ fromCount (shared m) = wrapInt (Z.of_nat (size (emails (shared m)))).
Proof.
  intros Hout He Hf Hexec Hfin.
  destruct (exec_preserves programs sched _ _
              (start_machineInv st programs Hout He Hf) Hexec)
    as (_ & (M1 & M2 & M3) & HP).
  split; [|split; [|exact M3]].
  - intros o c. rewrite M2. by apply finished_inserted.
  - intros o. rewrite M1. split; intros [c H]; exists c;
      by apply (finished_inserted programs m o c HP Hfin).
Qed.

Lemma elem_of_recordInstrs o c o' c' :
  IInsert o c ∈ recordInstrs o' c' <-> o = o' /\ c = c'.
Proof.
  unfold recordInstrs, incrInstrs, decrInstrs. simpl.
  split.
  - intros H. repeat (apply elem_of_cons in H as [H|H]; try discriminate).
    + by injection H as -> ->.
    + by apply elem_of_nil in H.
  - intros [-> ->]. do 2 apply list_elem_of_further. apply list_elem_of_here.
Qed.

Lemma elem_of_recorder o c oc :
  IInsert o c ∈ recorder oc <-> o = oc.1 /\ c ∈ oc.2.
Proof.
  destruct oc as [o' cs]. unfold recorder. simpl.
  rewrite list_elem_of_In, in_flat_map. split.
  - intros (c' & Hc & Hin). apply list_elem_of_In, elem_of_recordInstrs in Hin
      as [-> ->]. split; [done|by apply list_elem_of_In].
  - intros [-> Hc]. exists c. split; [by apply list_elem_of_In|].
    apply list_elem_of_In, elem_of_recordInstrs. done.
Qed.

Lemma NoDup_fst_inj {A B} (l : list (A * B)) x y :
  NoDup (l.*1) -> x ∈ l -> y ∈ l -> x.1 = y.1 -> x = y.
Proof.
  induction l as [|z l IH]; simpl; intros Hnd Hx Hy Heq.
  - by apply elem_of_nil in Hx.
  - apply NoDup_cons in Hnd as [Hz Hnd].
    apply elem_of_cons in Hx as [->|Hx]; apply elem_of_cons in Hy as [->|Hy].
    + done.
    + exfalso. apply Hz. rewrite Heq. by apply list_elem_of_fmap_2.
    + exfalso. apply Hz. rewrite <- Heq. by apply list_elem_of_fmap_2.
    + by apply IH.
Qed.

(** The map part of the concurrency claim: workers that record [T]
    correspondents each, for pairwise different owners, leave one entry per
    worker with [T] correspondents, under every schedule. *)
Lemma disjoint_owners_all_recorded
    (ocs : list (string * list string)) (T : nat) sched st m :
  NoDup (ocs.*1) ->
  Forall (fun oc => NoDup oc.2 /\ length oc.2 = T) ocs ->
  0 < T ->
  emails st = ∅ -> fromCount st = 0%Z ->
  exec sched (startMachine st (map recorder ocs)) = Some m -> finished m ->
  size (emails (shared m)) = length ocs
  /\ Forall (fun oc => size (correspondents oc.1 (shared m)) = T) ocs
  /\ fromCount (shared m) = wrapInt (Z.of_nat (length ocs)).
Proof.
  intros Hnd Hall HT He Hf Hexec Hfin.
  destruct (workers_map_complete (map recorder ocs) sched st m) as (M2 & M1 & M3);
    try done.
  { apply Forall_fmap, Forall_forall. intros oc _. apply outside_recorder. }
  assert (Hin : forall o c,
    (exists p, p ∈ map recorder ocs /\ IInsert o c ∈ p)
    <-> exists oc, oc ∈ ocs /\ o = oc.1 /\ c ∈ oc.2).
  { intros o c. split.
    - intros (p & Hp & Hi). apply list_elem_of_fmap in Hp as (oc & -> & Hoc).
      exists oc. split; [done|]. by apply elem_of_recorder.
    - intros (oc & Hoc & Ho & Hc). exists (recorder oc).
      split; [by apply list_elem_of_fmap_2|]. by apply elem_of_recorder. }
  assert (Hsize : size (emails (shared m)) = length ocs).
  { rewrite <- size_dom.
    assert (Hd : dom (emails (shared m)) = list_to_set (ocs.*1)).
    { apply set_eq. intros o. rewrite elem_of_dom, M1, elem_of_list_to_set.
      split.
      - intros (c & H). apply Hin in H as (oc & Hoc & -> & _).
        by apply list_elem_of_fmap_2.
      - intros Ho. apply list_elem_of_fmap in Ho as (oc & -> & Hoc).
        destruct (proj1 (Forall_forall _ _) Hall oc Hoc) as [_ Hlen].
        destruct (oc.2) as [|c cs] eqn:Hcs; [simpl in Hlen; lia|].
        exists c. apply Hin. exists oc. rewrite Hcs.
        split; [done|]. split; [done|]. apply list_elem_of_here. }
    rewrite Hd, size_list_to_set by done. by rewrite length_fmap. }
  split; [exact Hsize|]. split; [|by rewrite M3, Hsize].
  apply Forall_forall. intros oc Hoc.
  destruct (proj1 (Forall_forall _ _) Hall oc Hoc) as [Hndc Hlen].
  rewrite <- size_dom.
  assert (Hd : dom (correspondents oc.1 (shared m)) = list_to_set oc.2).
  { apply set_eq. intros c. rewrite M2, Hin, elem_of_list_to_set. split.
    - intros (oc' & Hoc' & Ho & Hc).
      by rewrite (NoDup_fst_inj ocs oc oc' Hnd Hoc Hoc' Ho).
    - intros Hc. exists oc. done. }
  rewrite Hd, size_list_to_set by done. exact Hlen.
Qed.

(** ** Examples of the confirmed properties *)

Lemma C7_gzip_same_aggregation_witness :
  let content :=
    nl "2024-01-01 10:00:00 <= alice@test.com H=mx for bob@other.com"
    ++ nl "2024-01-01 10:00:01 => bob@other.com R=dnslookup T=remote_smtp"
    ++ nl "2024-01-01 10:00:02 <= Alice@test.com H=mx for Carol@Other.com" in
  exists stPlain stGz,
    processFile emailTestCom ignoreEmpty 100 10
      (diskFile storedGunzip content) "main.log" (initState 100 2)
    = Some (Returned stPlain)
    /\ processFile emailTestCom ignoreEmpty 100 10
         (diskFile storedGunzip (storedGzip content)) ("main.log" +:+ ".gz")
         (initState 100 2)
       = Some (Returned stGz)
    /\ aggregation stPlain = aggregation stGz.
Proof.
  cbn zeta.
  apply (C7_gzip_same_aggregation emailTestCom ignoreEmpty 100
           storedGzip storedGunzip (fun c => eq_refl)).
  - reflexivity.
  - vm_compute. lia.
Defined.

(** ** The map under interleaving *)

(** What one instruction of a worker does to the shared state, when the
    workers keep the mutex discipline: nothing, a counter write, or a whole
    [record]. *)
Lemma step_shared programs i m m' :
  machineInv programs m -> step i m = Some m' ->
  shared m' = shared m
  \/ (exists c z, shared m' = setC c z (shared m))
  \/ (exists o c, shared m' = record o c (shared m)).
Proof.
  destruct m as [sh lock ths]. intros (HT & _ & _). unfold step. simpl.
  destruct (ths !! i) as [th|] eqn:Hi; [|done].
  destruct (todo th) as [|ins rest] eqn:Ht; [done|].
  pose proof (HT i th Hi) as Hti. simpl in Hti.
  destruct ins as [| |o|o c|cn|cn delta].
  - destruct lock; [done|]. intros [= <-]. by left.
  - case_bool_decide; [|done]. intros [= <-]. by left.
  - intros [= <-]. by left.
  - intros [= <-]. right. right. exists o, c. simpl.
    destruct Hti as [[_ Ho] | [Hl Hin]];
      [rewrite Ht in Ho; inversion Ho|].
    destruct Hin as [(o' & c' & r & E & _) | [(o' & c' & r & E & Ho & Hok) | (r & E & _)]];
      rewrite Ht in E; try discriminate.
    injection E as <- <- ->. simpl in Hok. by rewrite Hok, <- record_insertStep.
  - intros [= <-]. by left.
  - intros [= <-]. right. left. eauto.
Qed.

(** Under every schedule the map only grows: owners stay and their
    correspondent sets only gain members. *)
Lemma exec_map_grows programs sched : forall m m',
  machineInv programs m -> exec sched m = Some m' ->
  (forall o, is_Some (emails (shared m) !! o) ->
             is_Some (emails (shared m') !! o))
  /\ (forall o, dom (correspondents o (shared m))
               ⊆ dom (correspondents o (shared m'))).
Proof.
  induction sched as [|i sched IH]; intros m m' Hinv; simpl.
  - intros [= <-]. auto.
  - destruct (step i m) as [m1|] eqn:Hs; [|done]. intros He.
    destruct (IH m1 m' (step_preserves _ _ _ _ Hinv Hs) He) as [G1 G2].
    assert (H1 : (forall o, is_Some (emails (shared m) !! o) ->
                            is_Some (emails (shared m1) !! o))
                 /\ (forall o, dom (correspondents o (shared m))
                              ⊆ dom (correspondents o (shared m1)))).
    { destruct (step_shared _ _ _ _ Hinv Hs) as [-> | [(c & z & ->) | (o & c & ->)]].
      - auto.
      - unfold correspondents. rewrite setC_emails. auto.
      - apply record_grows_emails. }
    destruct H1 as [K1 K2]. split.
    + auto.
    + intros o. etrans; [apply K2|apply G2].
Qed.

Lemma wrapInt_small z : (minInt <= z <= maxInt)%Z -> wrapInt z = z.
Proof.
  unfold wrapInt, minInt, maxInt. intros H. rewrite Z.mod_small; lia.
Qed.

Lemma countersBelow_init logFrequency files n :
  (Z.of_nat n <= maxInt)%Z -> countersBelow n (initState logFrequency files).
Proof. unfold countersBelow, initState. simpl. lia. Qed.

Lemma emails_size_grows (st st' : State) :
  (forall o, is_Some (emails st !! o) -> is_Some (emails st' !! o)) ->
  size (emails st) <= size (emails st').
Proof.
  intros H. rewrite <- !size_dom. apply subseteq_size.
  intros o. rewrite !elem_of_dom. apply H.
Qed.

(** *** C8 *)

(** What does hold.  Along every sequence of whole operations from the
    initial state ([record] calls and processed lines, of either variant;
    at most [maxInt] of them): the state reached later has every owner
    present earlier, each owner's correspondent set contains its earlier
    value, and none of the four run counters is smaller.  Under every
    schedule of concurrent workers the map grows in the same way from any
    point of the run to any later one, and [fromCount], which is written
    under the mutex, does not decrease. *)
Lemma whole_operations_only_grow :
  forall (emailRegex ignoreRegex : bytes -> bool) logFrequency files,
    (forall ops1 ops2,
        (Z.of_nat (length (ops1 ++ ops2)) <= maxInt)%Z ->
        grownFrom
          (runOps emailRegex ignoreRegex ops1 (initState logFrequency files))
          (runOps emailRegex ignoreRegex (ops1 ++ ops2)
             (initState logFrequency files)))
    /\ (forall (inputs : list (list bytes)) sched1 sched2 m1 m2,
          exec sched1
            (startMachine (initState logFrequency files)
               (map (workerInstrs emailRegex ignoreRegex) inputs)) = Some m1 ->
          exec sched2 m1 = Some m2 ->
          (forall o, is_Some (emails (shared m1) !! o) ->
                     is_Some (emails (shared m2) !! o))
          /\ (forall o, dom (correspondents o (shared m1))
                        ⊆ dom (correspondents o (shared m2)))
          /\ ((Z.of_nat (size (emails (shared m2))) <= maxInt)%Z ->
              (fromCount (shared m1) <= fromCount (shared m2))%Z)).
Proof.
  intros emailRegex ignoreRegex logFrequency files. split.
  - intros ops1 ops2 Hlen.
    rewrite runOps_app. apply runOps_grows.
    apply runOps_below. rewrite <- length_app.
    by apply countersBelow_init.
  - intros inputs sched1 sched2 m1 m2 H1 H2.
    set (programs := map (workerInstrs emailRegex ignoreRegex) inputs) in *.
    assert (Hinv1 : machineInv programs m1).
    { eapply exec_preserves; [|exact H1].
      apply start_machineInv; try reflexivity.
      apply Forall_fmap, Forall_forall. intros ls _.
      apply outside_workerInstrs. }
    pose proof (exec_preserves _ _ _ _ Hinv1 H2) as Hinv2.
    destruct (exec_map_grows _ _ _ _ Hinv1 H2) as [G1 G2].
    split; [exact G1|]. split; [exact G2|].
    intros Hb. destruct Hinv1 as (_ & (_ & _ & F1) & _).
    destruct Hinv2 as (_ & (_ & _ & F2) & _).
    pose proof (emails_size_grows _ _ G1) as Hs.
    rewrite F1, F2, !wrapInt_small; unfold minInt; lia.
Qed.

Lemma whole_operations_only_grow_example :
  let ops1 := [OpProcessLine (nl "t <= alice@test.com H=mx for bob@other.com")] in
  let ops2 := [OpRecord "alice@test.com" "carol@other.com";
               OpMainLine "t <= dave@test.com H=mx for erin@other.com"] in
  grownFrom (runOps emailTestCom ignoreEmpty ops1 (initState 100 1))
            (runOps emailTestCom ignoreEmpty (ops1 ++ ops2) (initState 100 1))
  /\ exists m1 m2,
       exec [0; 0; 0; 0; 1; 1] twoWorkers = Some m1
       /\ exec [1; 1; 0; 0] m1 = Some m2
       /\ dom (correspondents "alice@test.com" (shared m1))
          ⊆ dom (correspondents "alice@test.com" (shared m2)).
Proof.
  cbn zeta. split.
  - apply (proj1 (whole_operations_only_grow emailTestCom ignoreEmpty 100 1)).
    unfold maxInt. simpl. lia.
  - destruct (exec [0; 0; 0; 0; 1; 1] twoWorkers) as [m1|] eqn:E1;
      [|vm_compute in E1; discriminate].
    destruct (exec [1; 1; 0; 0] m1) as [m2|] eqn:E2.
    2:{ exfalso. revert E2. vm_compute in E1. injection E1 as <-.
        vm_compute. discriminate. }
    exists m1, m2. split; [reflexivity|]. split; [exact E2|].
    exact (proj1 (proj2 (proj2 (whole_operations_only_grow emailAny ignoreEmpty 1000 2)
                           twoInputs _ _ m1 m2 E1 E2))
             "alice@test.com"%string).
Defined.

(** C8, evaluated on the concurrent variant with one worker on one
    delivery line and another on two.  The map only grows, but the counters
    that are updated outside the mutex do not: worker 0 reads [matchCount]
    (0), worker 1 processes its two lines ([matchCount] is 2), and the
    write of worker 0 sets [matchCount] to 1; the map has its three owners
    before and after.  In the same way [lineCount] goes from 2 to 1 when
    worker 0 has read it before worker 1 runs. *)
Theorem C8_counter_decreases_in_a_run :
  let after sched := shared <$> exec sched unevenWorkers in
  (matchCount <$> after staleMatchSchedule = Some 2%Z
   /\ matchCount <$> after (staleMatchSchedule ++ [0]) = Some 1%Z
   /\ (fun st => size (emails st)) <$> after staleMatchSchedule = Some 3
   /\ (fun st => size (emails st)) <$> after (staleMatchSchedule ++ [0])
      = Some 3)
  /\ (lineCount <$> after staleLineSchedule = Some 2%Z
      /\ lineCount <$> after (staleLineSchedule ++ [0]) = Some 1%Z).
Proof. cbn zeta. repeat split; vm_compute; reflexivity. Qed.

(** * Further properties of the code *)

(** ** Lines in any order *)

Lemma sameData_sym st1 st2 : sameData st1 st2 -> sameData st2 st1.
Proof. unfold sameData. intros (? & ? & ? & ? & ? & ? & ?). auto 10. Qed.

Lemma sameData_trans st1 st2 st3 :
  sameData st1 st2 -> sameData st2 st3 -> sameData st1 st3.
Proof.
  intros (A1 & A2 & A3 & A4 & A5 & A6 & A7) (B1 & B2 & B3 & B4 & B5 & B6 & B7).
  unfold sameData. repeat split; congruence.
Qed.

Lemma record_fromCount o c st :
  fromCount (record o c st)
  = if bool_decide (is_Some (emails st !! o)) then fromCount st
    else incr (fromCount st).
Proof. unfold record. by destruct (emails st !! o). Qed.

Lemma record_other_fields o c st :
  lineCount (record o c st) = lineCount st
  /\ matchCount (record o c st) = matchCount st
  /\ ignoreCount (record o c st) = ignoreCount st
  /\ remainingFiles (record o c st) = remainingFiles st
  /\ logLineCount (record o c st) = logLineCount st.
Proof. unfold record. destruct (emails st !! o); simpl; auto. Qed.

Lemma record_present o o' c' st :
  is_Some (emails (record o' c' st) !! o)
  <-> o = o' \/ is_Some (emails st !! o).
Proof.
  rewrite record_emails. destruct (decide (o' = o)) as [->|Hne].
  - rewrite lookup_insert_eq. split; eauto.
  - rewrite lookup_insert_ne by done. split; [auto|]. intros [->|H]; done.
Qed.

Lemma record_sameData o c st1 st2 :
  sameData st1 st2 -> sameData (record o c st1) (record o c st2).
Proof.
  intros (E1 & E2 & E3 & E4 & E5 & E6 & E7). unfold sameData, record.
  rewrite E1. destruct (emails st2 !! o); simpl;
    rewrite ?E1, ?E2, ?E3, ?E4, ?E5, ?E6, ?E7; auto 10.
Qed.

(** Two [record] calls give the same map and the same [fromCount] in either
    order. *)
Lemma record_comm o c o' c' st :
  sameData (record o c (record o' c' st)) (record o' c' (record o c st)).
Proof.
  destruct (record_other_fields o c (record o' c' st)) as (A1 & A2 & A3 & A4 & A5).
  destruct (record_other_fields o' c' st) as (B1 & B2 & B3 & B4 & B5).
  destruct (record_other_fields o' c' (record o c st)) as (C1 & C2 & C3 & C4 & C5).
  destruct (record_other_fields o c st) as (D1 & D2 & D3 & D4 & D5).
  unfold sameData.
  rewrite A1, A2, A3, A4, A5, B1, B2, B3, B4, B5, C1, C2, C3, C4, C5,
    D1, D2, D3, D4, D5.
  split; [|repeat split].
  - rewrite !record_emails.
    destruct (decide (o = o')) as [<-|Hne].
    + rewrite !record_correspondents, !insert_insert_eq.
      destruct (decide (c = c')) as [<-|Hc]; [done|].
      by rewrite (insert_insert_ne (correspondents o st) c c').
    + rewrite (record_correspondents_ne o' o) by done.
      rewrite (record_correspondents_ne o o') by done.
      by apply insert_insert_ne.
  - rewrite !record_fromCount.
    destruct (decide (o = o')) as [<-|Hne].
    + rewrite !(bool_decide_eq_true_2 (is_Some (emails (record o _ st) !! o)))
        by (apply record_present; auto).
      reflexivity.
    + assert (E1 : bool_decide (is_Some (emails (record o' c' st) !! o))
                   = bool_decide (is_Some (emails st !! o))).
      { apply bool_decide_ext. rewrite record_present.
        split; [intros [?|?]; [congruence|done]|auto]. }
      assert (E2 : bool_decide (is_Some (emails (record o c st) !! o'))
                   = bool_decide (is_Some (emails st !! o'))).
      { apply bool_decide_ext. rewrite record_present.
        split; [intros [?|?]; [congruence|done]|auto]. }
      rewrite E1, E2. by repeat case_bool_decide.
Qed.

Ltac counters_sameData :=
  unfold sameData, countMatched, countUnmatched, countIgnored, record;
  simpl;
  repeat match goal with
    | |- context [emails ?s !! ?k] => destruct (emails s !! k); simpl
    end;
  auto 10.

Lemma countMatched_sameData st1 st2 :
  sameData st1 st2 -> sameData (countMatched st1) (countMatched st2).
Proof.
  intros (E1 & E2 & E3 & E4 & E5 & E6 & E7).
  unfold sameData, countMatched. simpl.
  rewrite E1, E2, E3, E4, E5, E6, E7. auto 10.
Qed.

Lemma record_countMatched o c st :
  sameData (record o c (countMatched st)) (countMatched (record o c st)).
Proof. counters_sameData. Qed.

Lemma record_countUnmatched o c st :
  sameData (record o c (countUnmatched st)) (countUnmatched (record o c st)).
Proof. counters_sameData. Qed.

Lemma record_countIgnored o c st :
  sameData (record o c (countIgnored st)) (countIgnored (record o c st)).
Proof. counters_sameData. Qed.

Lemma applyDisposition_comm d1 d2 st :
  sameData (applyDisposition d1 (applyDisposition d2 st))
           (applyDisposition d2 (applyDisposition d1 st)).
Proof.
  destruct d1 as [| |o c]; destruct d2 as [| |o' c']; simpl;
    try (counters_sameData; fail).
  eapply sameData_trans;
    [apply countMatched_sameData, record_countMatched|].
  eapply sameData_trans;
    [|apply sameData_sym, countMatched_sameData, record_countMatched].
  apply countMatched_sameData, countMatched_sameData, record_comm.
Qed.

Lemma applyDisposition_sameData d st1 st2 :
  sameData st1 st2 ->
  sameData (applyDisposition d st1) (applyDisposition d st2).
Proof.
  intros H. destruct d as [| |o c]; simpl.
  - destruct H as (E1 & E2 & E3 & E4 & E5 & E6 & E7).
    unfold sameData, countUnmatched. simpl.
    rewrite E1, E2, E3, E4, E5, E6, E7. auto 10.
  - destruct H as (E1 & E2 & E3 & E4 & E5 & E6 & E7).
    unfold sameData, countIgnored. simpl.
    rewrite E1, E2, E3, E4, E5, E6, E7. auto 10.
  - by apply countMatched_sameData, record_sameData.
Qed.

Section LineOrder.

Variable emailRegex : bytes -> bool.
Variable ignoreRegex : bytes -> bool.

Lemma processLine_classify line st :
  processLine emailRegex ignoreRegex line st
  = applyDisposition (classify emailRegex ignoreRegex line) st.
Proof.
  unfold processLine, classify.
  destruct (FindSubmatch lineMatch line) as [m|]; [|reflexivity].
  destruct (emailRegex (idx m 1)); [|reflexivity].
  destruct (ignoreRegex (idx m 2)); reflexivity.
Qed.

Lemma processLines_sameData lines : forall st1 st2,
  sameData st1 st2 ->
  sameData (processLines emailRegex ignoreRegex lines st1)
           (processLines emailRegex ignoreRegex lines st2).
Proof.
  induction lines as [|l ls IH]; intros st1 st2 H; simpl; [exact H|].
  apply IH. rewrite !processLine_classify. by apply applyDisposition_sameData.
Qed.

Lemma processLines_perm lines lines' :
  lines ≡ₚ lines' ->
  forall st, sameData (processLines emailRegex ignoreRegex lines st)
                      (processLines emailRegex ignoreRegex lines' st).
Proof.
  induction 1 as [|l ls ls' _ IH|a b ls|ls1 ls2 ls3 _ IH1 _ IH2]; intros st.
  - apply sameData_refl.
  - simpl. apply IH.
  - simpl. apply processLines_sameData.
    rewrite !processLine_classify. apply applyDisposition_comm.
  - eapply sameData_trans; [apply IH1|apply IH2].
Qed.

(** X1. The aggregation map and the four counters that a list of lines
    leaves do not depend on the order in which the lines are processed. *)
Theorem X1_lines_in_any_order :
  forall lines lines' st,
    lines ≡ₚ lines' ->
    aggregation (processLines emailRegex ignoreRegex lines st)
    = aggregation (processLines emailRegex ignoreRegex lines' st).
Proof.
  intros lines lines' st H.
  apply sameData_aggregation. by apply processLines_perm.
Qed.

End LineOrder.

Lemma X1_lines_in_any_order_witness :
  let a := nl "t <= alice@test.com H=mx for bob@other.com" in
  let b := nl "t <= alice@test.com H=mx for carol@other.com" in
  let c := nl "t => bob@other.com R=dnslookup" in
  aggregation (processLines emailTestCom ignoreEmpty [a; b; c] (initState 100 1))
  = aggregation (processLines emailTestCom ignoreEmpty [c; b; a] (initState 100 1)).
Proof.
  cbn zeta. apply X1_lines_in_any_order.
  exact (Permutation_rev
           [nl "t <= alice@test.com H=mx for bob@other.com";
            nl "t <= alice@test.com H=mx for carol@other.com";
            nl "t => bob@other.com R=dnslookup"]).
Defined.

(** ** What the counters count *)

Section Accounting.

Variable emailRegex : bytes -> bool.
Variable ignoreRegex : bytes -> bool.

Lemma countLines_cons p l ls :
  countLines emailRegex ignoreRegex p (l :: ls)
  = ((if p (classify emailRegex ignoreRegex l) then 1 else 0)
     + countLines emailRegex ignoreRegex p ls)%Z.
Proof.
  unfold countLines. rewrite filter_cons.
  destruct (p (classify emailRegex ignoreRegex l)); case_decide; try done.
  simpl length. lia.
Qed.

Lemma countLines_nonneg p ls :
  (0 <= countLines emailRegex ignoreRegex p ls)%Z.
Proof. unfold countLines. lia. Qed.

Lemma record_size o c st :
  Z.of_nat (size (emails (record o c st)))
  = (Z.of_nat (size (emails st))
     + if bool_decide (is_Some (emails st !! o)) then 0 else 1)%Z.
Proof.
  rewrite record_emails, map_size_insert.
  destruct (emails st !! o); simpl; lia.
Qed.

Lemma processLines_below lines : forall n st,
  countersBelow (length lines + n) st ->
  countersBelow n (processLines emailRegex ignoreRegex lines st).
Proof.
  induction lines as [|l ls IH]; intros n st Hb; simpl; [exact Hb|].
  apply IH.
  by destruct (oneStep_grows (length ls + n) st _
                 (applyOp_oneStep emailRegex ignoreRegex (OpProcessLine l) st)
                 Hb).
Qed.

(** X2. While the counters do not wrap, a list of lines adds to
    [ignoreCount] the number of lines taken by a [continue] branch, to
    [matchCount] the number of lines whose pair was recorded, to [lineCount]
    the number of lines that were not ignored (an ignored line is not
    counted as read), and to [fromCount] the number of owners the map
    gained. *)
Theorem X2_counters_count_dispositions :
  forall lines st,
    countersBelow (length lines) st ->
    let st' := processLines emailRegex ignoreRegex lines st in
    (ignoreCount st'
     = ignoreCount st + countLines emailRegex ignoreRegex isIgnored lines
     /\ matchCount st'
        = matchCount st + countLines emailRegex ignoreRegex isRecorded lines
     /\ lineCount st'
        = lineCount st + Z.of_nat (length lines)
          - countLines emailRegex ignoreRegex isIgnored lines
     /\ fromCount st'
        = fromCount st + Z.of_nat (size (emails st'))
          - Z.of_nat (size (emails st)))%Z.
Proof.
  induction lines as [|l ls IH]; intros st Hb; cbn zeta.
  - unfold countLines. simpl. lia.
  - cbn zeta in IH.
    assert (Hb' : countersBelow (length ls)
                    (processLine emailRegex ignoreRegex l st)).
    { by destruct (oneStep_grows (length ls) st _
                     (applyOp_oneStep emailRegex ignoreRegex
                        (OpProcessLine l) st) Hb). }
    specialize (IH _ Hb'). destruct IH as (I1 & I2 & I3 & I4).
    change (processLines emailRegex ignoreRegex (l :: ls) st)
      with (processLines emailRegex ignoreRegex ls
              (processLine emailRegex ignoreRegex l st)).
    rewrite I1, I2, I3, I4, !countLines_cons. clear I1 I2 I3 I4.
    rewrite processLine_classify.
    unfold countersBelow in Hb. simpl length in *.
    destruct (classify emailRegex ignoreRegex l) as [| |o c]; simpl.
    + rewrite (incr_below _ (length ls)) by lia. lia.
    + rewrite (incr_below _ (length ls)) by lia. lia.
    + destruct (record_other_fields o c st) as (E1 & E2 & E3 & _).
      rewrite E1, E2, E3, record_size, record_fromCount.
      rewrite !(incr_below _ (length ls)) by lia.
      case_bool_decide; lia.
Qed.

End Accounting.

Lemma X2_counters_count_dispositions_witness :
  let lines :=
    [nl "t <= alice@test.com H=mx for bob@other.com";
     nl "t <= mallory@evil.org H=mx for bob@other.com";
     nl "t => bob@other.com R=dnslookup";
     nl "t <= alice@test.com H=mx for carol@other.com"] in
  let st' := processLines emailTestCom ignoreEmpty lines (initState 100 1) in
  ignoreCount st' = 1%Z /\ matchCount st' = 2%Z /\ lineCount st' = 3%Z
  /\ fromCount st' = 1%Z.
Proof.
  cbn zeta.
  destruct (X2_counters_count_dispositions emailTestCom ignoreEmpty
    [nl "t <= alice@test.com H=mx for bob@other.com";
     nl "t <= mallory@evil.org H=mx for bob@other.com";
     nl "t => bob@other.com R=dnslookup";
     nl "t <= alice@test.com H=mx for carol@other.com"] (initState 100 1))
    as (H1 & H2 & H3 & H4).
  { unfold countersBelow, maxInt. simpl. lia. }
  rewrite H1, H2, H3, H4. repeat split; vm_compute; reflexivity.
Defined.

(** ** A file is its complete lines *)

Lemma splitLines_tail tail : forall cur,
  noNewline tail -> splitLines cur tail = ([], reverse cur ++ tail).
Proof.
  induction tail as [|c tail IH]; intros cur Hn; simpl.
  - by rewrite app_nil_r.
  - inversion Hn as [|? ? Hc Ht]; subst.
    destruct (Ascii.eqb c chNL) eqn:E; [by apply Ascii.eqb_eq in E|].
    rewrite IH by done. by rewrite reverse_cons, <- app_assoc.
Qed.

Lemma splitLines_line body rest : forall cur,
  noNewline body ->
  splitLines cur (body ++ chNL :: rest)
  = ((reverse cur ++ body ++ [chNL]) :: (splitLines [] rest).1,
     (splitLines [] rest).2).
Proof.
  induction body as [|c body IH]; intros cur Hn; simpl.
  - destruct (splitLines [] rest) as [ls r]. simpl.
    by rewrite reverse_cons.
  - inversion Hn as [|? ? Hc Hb]; subst.
    destruct (Ascii.eqb c chNL) eqn:E; [by apply Ascii.eqb_eq in E|].
    rewrite IH by done. by rewrite reverse_cons, <- !app_assoc.
Qed.

Lemma splitLines_lines lines tail :
  Forall isLine lines -> noNewline tail ->
  splitLines [] (concat lines ++ tail) = (lines, tail).
Proof.
  induction 1 as [|l ls (body & -> & Hb) _ IH]; intros Ht; simpl.
  - by rewrite splitLines_tail.
  - rewrite <- !app_assoc. simpl.
    rewrite splitLines_line by done. by rewrite IH.
Qed.

Section FileLines.

Variable emailRegex : bytes -> bool.
Variable ignoreRegex : bytes -> bool.
Variable logFrequency : Z.

Lemma applyDisposition_aggregation d st1 st2 :
  aggregation st1 = aggregation st2 ->
  aggregation (applyDisposition d st1) = aggregation (applyDisposition d st2).
Proof.
  unfold aggregation. intros [= E1 E2 E3 E4 E5].
  destruct d as [| |o c]; simpl; unfold record; rewrite ?E1, ?E2, ?E3, ?E4, ?E5;
    try reflexivity.
  destruct (emails st2 !! o); simpl; rewrite ?E1, ?E2, ?E3, ?E4, ?E5;
    reflexivity.
Qed.

Lemma progressCheck_aggregation st :
  aggregation (progressCheck logFrequency st) = aggregation st.
Proof. unfold progressCheck. by destruct (_ <=? 0)%Z. Qed.

Lemma afterLines_aggregation calls n : forall i st1 st2,
  aggregation st1 = aggregation st2 ->
  aggregation (afterLines emailRegex ignoreRegex logFrequency calls n i st1)
  = aggregation (processLines emailRegex ignoreRegex
                   (map (fun j => (calls j).1) (seq i n)) st2).
Proof.
  induction n as [|n IH]; intros i st1 st2 H; simpl; [exact H|].
  apply IH. rewrite !processLine_classify.
  apply applyDisposition_aggregation.
  by rewrite progressCheck_aggregation.
Qed.

Lemma linesRead_bufio lines tail :
  Forall isLine lines -> noNewline tail ->
  linesRead (bufioReads (concat lines ++ tail)) (length lines) = lines.
Proof.
  intros Hl Ht. unfold linesRead. apply list_eq. intros i.
  rewrite list_lookup_fmap.
  destruct (decide (i < length lines)) as [Hi|Hi].
  - rewrite lookup_seq_lt by done. simpl.
    unfold bufioReads. rewrite splitLines_lines by done.
    destruct (lookup_lt_is_Some_2 _ _ Hi) as [l Hlk]. by rewrite Hlk.
  - rewrite lookup_seq_ge by lia. simpl.
    symmetry. apply lookup_ge_None_2. lia.
Qed.

(** X3. A worker on a readable plain file processes the complete lines of
    the file in order and returns; what follows the last newline is never
    processed. *)
Theorem X3_file_is_its_complete_lines :
  forall gunzip lines tail fileName st fuel,
    isGz fileName = false ->
    Forall isLine lines -> noNewline tail ->
    length lines < fuel ->
    exists st',
      processFile emailRegex ignoreRegex logFrequency fuel
        (diskFile gunzip (concat lines ++ tail)) fileName st
      = Some (Returned st')
      /\ aggregation st'
         = aggregation (processLines emailRegex ignoreRegex lines st).
Proof.
  intros gunzip lines tail fileName st fuel Hgz Hl Ht Hfuel.
  unfold processFile, newReader. rewrite Hgz. simpl.
  assert (Hs : (splitLines [] (concat lines ++ tail)).1 = lines)
    by (by rewrite splitLines_lines).
  rewrite (readLoop_eof _ _ _ _ (bufioReads (concat lines ++ tail))
             (length lines)).
  - eexists. split; [reflexivity|].
    unfold aggregation at 1. simpl.
    change (aggregation
              (progressCheck logFrequency
                 (afterLines emailRegex ignoreRegex logFrequency
                    (bufioReads (concat lines ++ tail)) (length lines) 0
                    (logEvent (InfoReading fileName) st)))
            = aggregation (processLines emailRegex ignoreRegex lines st)).
    rewrite progressCheck_aggregation.
    rewrite (afterLines_aggregation _ _ _ _ st) by reflexivity.
    fold (linesRead (bufioReads (concat lines ++ tail)) (length lines)).
    by rewrite linesRead_bufio.
  - intros j Hj. apply bufioReads_ok. by rewrite Hs.
  - rewrite <- Hs at 2. apply bufioReads_eof.
  - exact Hfuel.
Qed.

(** X4. A file that cannot be opened and whose name does not end in [.gz]
    costs the run nothing but two log messages: the worker returns with the
    map and the counters as they were, and the next files are processed. *)
Theorem X4_unopenable_file_is_skipped :
  forall fs fileName rest st fuel,
    isGz fileName = false -> fs fileName = missingFile ->
    exists st',
      processFile emailRegex ignoreRegex logFrequency (S fuel) (fs fileName)
        fileName st = Some (Returned st')
      /\ aggregation st' = aggregation st
      /\ ErrOpen fileName ∈ logged st' /\ ErrRead fileName ∈ logged st'
      /\ runFiles emailRegex ignoreRegex logFrequency (S fuel) fs
           (fileName :: rest) st
         = runFiles emailRegex ignoreRegex logFrequency (S fuel) fs rest st'.
Proof.
  intros fs fileName rest st fuel Hgz Hfs.
  assert (Hp : processFile emailRegex ignoreRegex logFrequency (S fuel)
                 missingFile fileName st
               = Some (Returned
                   (logEvent (ErrRead fileName)
                      (progressCheck logFrequency
                         (logEvent (InfoReading fileName)
                            (logEvent (ErrOpen fileName) st)))))).
  { unfold processFile, newReader. rewrite Hgz. reflexivity. }
  eexists. split; [by rewrite Hfs|]. split; [|split; [|split]].
  - unfold aggregation at 1. simpl.
    change (aggregation
              (progressCheck logFrequency
                 (logEvent (InfoReading fileName)
                    (logEvent (ErrOpen fileName) st))) = aggregation st).
    by rewrite progressCheck_aggregation.
  - simpl. unfold progressCheck. destruct (_ <=? 0)%Z; simpl; set_solver.
  - simpl. set_solver.
  - simpl. by rewrite Hfs, Hp.
Qed.

(** X5. When a read of [processFile] fails with an error other than
    [io.EOF] (on a reader that could be built), the worker logs the error
    and returns; the lines read before the error are the only ones that were
    processed, and the files after it are processed from that state. *)
Theorem X5_read_error_abandons_file :
  forall fs fileName rest n st fuel,
    isGz fileName && gzipFails (fs fileName) = false ->
    let calls := if isGz fileName then gzipReads (fs fileName)
                 else reads (fs fileName) in
    (forall j, j < n -> (calls j).2 = None) ->
    (calls n).2 = Some IOErr ->
    n < fuel ->
    exists st',
      processFile emailRegex ignoreRegex logFrequency fuel (fs fileName)
        fileName st = Some (Returned st')
      /\ ErrRead fileName ∈ logged st'
      /\ aggregation st'
         = aggregation (processLines emailRegex ignoreRegex
                          (linesRead calls n) st)
      /\ runFiles emailRegex ignoreRegex logFrequency fuel fs
           (fileName :: rest) st
         = runFiles emailRegex ignoreRegex logFrequency fuel fs rest st'.
Proof.
  intros fs fileName rest n st fuel Hnil calls Hok Herr Hfuel.
  assert (Hr : forall st0, newReader (fs fileName) fileName st0
                           = (st0, Some calls)).
  { intros st0. unfold newReader, calls.
    destruct (isGz fileName); [|reflexivity].
    simpl in Hnil. by rewrite Hnil. }
  eexists. split; [|split; [|split]].
  - unfold processFile. rewrite Hr.
    by apply (readLoop_read_error _ _ _ fileName calls n).
  - simpl. set_solver.
  - unfold aggregation at 1. simpl.
    match goal with
    | |- context [progressCheck ?lf ?s] =>
        change (aggregation (progressCheck lf s)
                = aggregation (processLines emailRegex ignoreRegex
                                 (linesRead calls n) st))
    end.
    rewrite progressCheck_aggregation.
    apply afterLines_aggregation.
    destruct (openFails (fs fileName)); reflexivity.
  - simpl. unfold processFile. rewrite Hr.
    by rewrite (readLoop_read_error _ _ _ fileName calls n).
Qed.

End FileLines.

Lemma noNewline_check p :
  forallb (fun x => negb (Ascii.eqb x chNL)) p = true -> noNewline p.
Proof.
  intros H. apply Forall_forall. intros x Hx ->.
  rewrite forallb_forall in H. apply list_elem_of_In in Hx.
  specialize (H _ Hx). by rewrite Ascii.eqb_refl in H.
Qed.

Lemma isLine_nl s :
  forallb (fun x => negb (Ascii.eqb x chNL)) (B s) = true -> isLine (nl s).
Proof. intros H. exists (B s). split; [reflexivity|by apply noNewline_check]. Qed.

Lemma X3_file_is_its_complete_lines_witness :
  let lines := [nl "t <= alice@test.com H=mx for bob@other.com";
                nl "t => bob@other.com R=dnslookup"] in
  let tail := B "t <= alice@test.com H=mx for carol@other.com" in
  exists st',
    processFile emailTestCom ignoreEmpty 100 10
      (diskFile gunzipNone (concat lines ++ tail)) "main.log" (initState 100 1)
    = Some (Returned st')
    /\ aggregation st'
       = aggregation (processLines emailTestCom ignoreEmpty lines
                        (initState 100 1)).
Proof.
  cbn zeta. apply X3_file_is_its_complete_lines.
  - reflexivity.
  - repeat constructor; by apply isLine_nl.
  - by apply noNewline_check.
  - simpl. lia.
Defined.

Lemma X4_unopenable_file_is_skipped_witness :
  exists st',
    processFile emailTestCom ignoreEmpty 100 5 (brokenDir "a.log") "a.log"
      (initState 100 2) = Some (Returned st')
    /\ aggregation st' = aggregation (initState 100 2)
    /\ ErrOpen "a.log" ∈ logged st' /\ ErrRead "a.log" ∈ logged st'
    /\ runFiles emailTestCom ignoreEmpty 100 5 brokenDir
         ["a.log"; "b.log"]%string (initState 100 2)
       = runFiles emailTestCom ignoreEmpty 100 5 brokenDir
           ["b.log"%string] st'.
Proof.
  apply (X4_unopenable_file_is_skipped emailTestCom ignoreEmpty 100
           brokenDir "a.log" ["b.log"%string] (initState 100 2) 4);
    reflexivity.
Defined.

Lemma X5_read_error_abandons_file_witness :
  exists st',
    processFile emailTestCom ignoreEmpty 100 5 (halfBrokenDir "a.log") "a.log"
      (initState 100 2) = Some (Returned st')
    /\ ErrRead "a.log" ∈ logged st'
    /\ aggregation st'
       = aggregation
           (processLines emailTestCom ignoreEmpty
              (linesRead (reads (halfBrokenDir "a.log")) 1) (initState 100 2))
    /\ runFiles emailTestCom ignoreEmpty 100 5 halfBrokenDir
         ["a.log"; "b.log"]%string (initState 100 2)
       = runFiles emailTestCom ignoreEmpty 100 5 halfBrokenDir
           ["b.log"%string] st'.
Proof.
  apply (X5_read_error_abandons_file emailTestCom ignoreEmpty 100
           halfBrokenDir "a.log" ["b.log"%string] 1 (initState 100 2) 5).
  - reflexivity.
  - intros j Hj. assert (j = 0) as -> by lia. reflexivity.
  - reflexivity.
  - lia.
Defined.

(** ** Concurrent workers against the sequential run *)

Lemma elem_of_concat {A} (x : A) (ls : list (list A)) :
  x ∈ concat ls <-> exists l, l ∈ ls /\ x ∈ l.
Proof.
  rewrite list_elem_of_In, in_concat.
  split; intros (l & H1 & H2); exists l; by rewrite <- !list_elem_of_In in *.
Qed.

Section Linearizable.

Variable emailRegex : bytes -> bool.
Variable ignoreRegex : bytes -> bool.

Lemma elem_of_lineInstrs o c line :
  IInsert o c ∈ lineInstrs emailRegex ignoreRegex line
  <-> classify emailRegex ignoreRegex line = Recorded o c.
Proof.
  unfold lineInstrs, classify.
  destruct (FindSubmatch lineMatch line) as [m|]; cbn zeta.
  - destruct (negb (emailRegex (idx m 1))).
    + split; [|done]. unfold incrInstrs. intros H.
      repeat (apply elem_of_cons in H as [H|H]; try discriminate).
      by apply elem_of_nil in H.
    + destruct (ignoreRegex (idx m 2)).
      * split; [|done]. unfold incrInstrs. intros H.
        repeat (apply elem_of_cons in H as [H|H]; try discriminate).
        by apply elem_of_nil in H.
      * rewrite elem_of_recordInstrs. split; [by intros [-> ->]|].
        by intros [= -> ->].
  - split; [|done]. unfold incrInstrs, decrInstrs. simpl. intros H.
    repeat (apply elem_of_cons in H as [H|H]; try discriminate).
    by apply elem_of_nil in H.
Qed.

Lemma elem_of_workerInstrs o c lines :
  IInsert o c ∈ workerInstrs emailRegex ignoreRegex lines
  <-> exists l, l ∈ lines /\ classify emailRegex ignoreRegex l = Recorded o c.
Proof.
  unfold workerInstrs. rewrite list_elem_of_In, in_flat_map.
  split; intros (l & Hl & H); exists l.
  - split; [by apply list_elem_of_In|].
    by apply elem_of_lineInstrs, list_elem_of_In.
  - split; [by apply list_elem_of_In|].
    by apply list_elem_of_In, elem_of_lineInstrs.
Qed.

Lemma applyDisposition_emails d st :
  emails (applyDisposition d st)
  = match d with
    | Recorded o c => emails (record o c st)
    | _ => emails st
    end.
Proof. by destruct d. Qed.

Lemma applyDisposition_fromCount d st :
  fromCount (applyDisposition d st)
  = match d with
    | Recorded o c => fromCount (record o c st)
    | _ => fromCount st
    end.
Proof. by destruct d. Qed.

(** What a sequential run leaves in the map. *)
Lemma processLines_map lines : forall st,
  let st' := processLines emailRegex ignoreRegex lines st in
  (forall o, is_Some (emails st' !! o)
             <-> is_Some (emails st !! o)
                 \/ exists l c, l ∈ lines
                      /\ classify emailRegex ignoreRegex l = Recorded o c)
  /\ (forall o c, c ∈ dom (correspondents o st')
                  <-> c ∈ dom (correspondents o st)
                      \/ exists l, l ∈ lines
                           /\ classify emailRegex ignoreRegex l = Recorded o c)
  /\ (fromCount st = wrapInt (Z.of_nat (size (emails st))) ->
      fromCount st' = wrapInt (Z.of_nat (size (emails st')))).
Proof.
  induction lines as [|l ls IH]; intros st; cbn zeta.
  - simpl. split; [|split; [|done]].
    + intros o. split; [auto|]. intros [H|(l & c & Hl & _)]; [done|].
      by apply elem_of_nil in Hl.
    + intros o c. split; [auto|]. intros [H|(l & Hl & _)]; [done|].
      by apply elem_of_nil in Hl.
  - cbn zeta in IH.
    change (processLines emailRegex ignoreRegex (l :: ls) st)
      with (processLines emailRegex ignoreRegex ls
              (processLine emailRegex ignoreRegex l st)).
    destruct (IH (processLine emailRegex ignoreRegex l st)) as (I1 & I2 & I3).
    rewrite processLine_classify in *.
    split; [|split].
    + intros o. rewrite I1, applyDisposition_emails.
      destruct (classify emailRegex ignoreRegex l) as [| |o' c'] eqn:Ec.
      * split; (intros [H|(l0 & c & Hl & Hc)]; [by left|right]).
        -- exists l0, c. split; [by apply elem_of_cons; right|done].
        -- apply elem_of_cons in Hl as [->|Hl]; [congruence|eauto].
      * split; (intros [H|(l0 & c & Hl & Hc)]; [by left|right]).
        -- exists l0, c. split; [by apply elem_of_cons; right|done].
        -- apply elem_of_cons in Hl as [->|Hl]; [congruence|eauto].
      * rewrite record_present. split.
        -- intros [[->|H]|(l0 & c & Hl & Hc)].
           ++ right. exists l, c'. split; [apply list_elem_of_here|done].
           ++ by left.
           ++ right. exists l0, c. split; [by apply elem_of_cons; right|done].
        -- intros [H|(l0 & c & Hl & Hc)]; [by left; right|].
           apply elem_of_cons in Hl as [->|Hl].
           ++ left. left. congruence.
           ++ right. eauto.
    + intros o c. rewrite I2.
      destruct (classify emailRegex ignoreRegex l) as [| |o' c'] eqn:Ec.
      * change (correspondents o (applyDisposition Unmatched st))
          with (correspondents o st).
        split; (intros [H|(l0 & Hl & Hc)]; [by left|right]).
        -- exists l0. split; [by apply elem_of_cons; right|done].
        -- apply elem_of_cons in Hl as [->|Hl]; [congruence|eauto].
      * change (correspondents o (applyDisposition Ignored st))
          with (correspondents o st).
        split; (intros [H|(l0 & Hl & Hc)]; [by left|right]).
        -- exists l0. split; [by apply elem_of_cons; right|done].
        -- apply elem_of_cons in Hl as [->|Hl]; [congruence|eauto].
      * change (correspondents o (applyDisposition (Recorded o' c') st))
          with (correspondents o (record o' c' st)).
        destruct (decide (o' = o)) as [->|Hne].
        -- rewrite record_correspondents, dom_insert_L, elem_of_union,
             elem_of_singleton.
           split.
           ++ intros [[->|H]|(l0 & Hl & Hc)].
              ** right. exists l. split; [apply list_elem_of_here|done].
              ** by left.
              ** right. exists l0. split; [by apply elem_of_cons; right|done].
           ++ intros [H|(l0 & Hl & Hc)]; [by left; right|].
              apply elem_of_cons in Hl as [->|Hl].
              ** left. left. congruence.
              ** right. eauto.
        -- rewrite record_correspondents_ne by done.
           split; (intros [H|(l0 & Hl & Hc)]; [by left|right]).
           ++ exists l0. split; [by apply elem_of_cons; right|done].
           ++ apply elem_of_cons in Hl as [->|Hl]; [congruence|eauto].
    + intros Hf. apply I3.
      rewrite applyDisposition_emails, applyDisposition_fromCount.
      destruct (classify emailRegex ignoreRegex l) as [| |o' c']; try done.
      rewrite record_fromCount, record_emails, map_size_insert, Hf.
      destruct (emails st !! o') eqn:E; simpl; [done|].
      rewrite incr_wrapInt. f_equal. lia.
Qed.

(** X6. Whatever the schedule, when all workers have finished the map has
    the owners, and each owner the correspondents, that one worker leaves
    after processing all the lines one after the other; and [fromCount] has
    the same value. *)
Theorem X6_every_schedule_gives_the_sequential_map :
  forall logFrequency (inputs : list (list bytes)) sched m,
    exec sched (startWorkers emailRegex ignoreRegex logFrequency inputs)
    = Some m ->
    finished m ->
    let st := processLines emailRegex ignoreRegex (concat inputs)
                (initState logFrequency (length inputs)) in
    dom (emails (shared m)) = dom (emails st)
    /\ (forall o, dom (correspondents o (shared m)) = dom (correspondents o st))
    /\ fromCount (shared m) = fromCount st.
Proof.
  intros logFrequency inputs sched m Hexec Hfin. cbn zeta.
  destruct (workers_map_complete
              (map (workerInstrs emailRegex ignoreRegex) inputs) sched
              (initState logFrequency (length inputs)) m)
    as (M2 & M1 & M3); try done.
  { apply Forall_fmap, Forall_forall. intros ls _.
    apply outside_workerInstrs. }
  destruct (processLines_map (concat inputs)
              (initState logFrequency (length inputs))) as (S1 & S2 & S3).
  assert (Hin : forall o c,
    (exists p, p ∈ map (workerInstrs emailRegex ignoreRegex) inputs
               /\ IInsert o c ∈ p)
    <-> exists l, l ∈ concat inputs
                  /\ classify emailRegex ignoreRegex l = Recorded o c).
  { intros o c. split.
    - intros (p & Hp & Hi). apply list_elem_of_fmap in Hp as (ls & -> & Hls).
      apply elem_of_workerInstrs in Hi as (l & Hl & Hc).
      exists l. split; [|done]. apply elem_of_concat. eauto.
    - intros (l & Hl & Hc). apply elem_of_concat in Hl as (ls & Hls & Hl).
      exists (workerInstrs emailRegex ignoreRegex ls).
      split; [by apply list_elem_of_fmap_2|].
      apply elem_of_workerInstrs. eauto. }
  assert (Hdom : dom (emails (shared m))
                 = dom (emails (processLines emailRegex ignoreRegex
                                  (concat inputs)
                                  (initState logFrequency (length inputs))))).
  { apply set_eq. intros o. rewrite !elem_of_dom, M1, S1. simpl.
    rewrite lookup_empty. split.
    - intros (c & H). apply Hin in H as (l & Hl & Hc). right. eauto.
    - intros [[? H]|(l & c & Hl & Hc)]; [done|].
      exists c. apply Hin. eauto. }
  split; [exact Hdom|]. split.
  - intros o. apply set_eq. intros c. rewrite M2, S2, Hin.
    unfold correspondents at 1. simpl. rewrite lookup_empty. simpl.
    rewrite dom_empty_L. split; [auto|]. intros [H|H]; [set_solver|done].
  - rewrite M3, S3 by reflexivity.
    by rewrite <- !size_dom, Hdom.
Qed.

End Linearizable.

Lemma X6_every_schedule_gives_the_sequential_map_witness :
  exists m,
    exec lostUpdateSchedule (startWorkers emailAny ignoreEmpty 1000 twoInputs)
    = Some m
    /\ dom (emails (shared m))
       = dom (emails (processLines emailAny ignoreEmpty (concat twoInputs)
                        (initState 1000 2)))
    /\ fromCount (shared m)
       = fromCount (processLines emailAny ignoreEmpty (concat twoInputs)
                      (initState 1000 2)).
Proof.
  destruct (exec lostUpdateSchedule
              (startWorkers emailAny ignoreEmpty 1000 twoInputs))
    as [m|] eqn:E; [|vm_compute in E; discriminate].
  exists m. split; [reflexivity|].
  assert (Hfin : finished m).
  { pose proof E as E'. vm_compute in E'. injection E' as <-.
    repeat constructor. }
  destruct (X6_every_schedule_gives_the_sequential_map emailAny ignoreEmpty
              1000 twoInputs lostUpdateSchedule m E Hfin) as (H1 & _ & H3).
  split; [exact H1|exact H3].
Defined.

(** ** The mutex *)

Section Mutex.

Variable emailRegex : bytes -> bool.
Variable ignoreRegex : bytes -> bool.
Variable logFrequency : Z.

Lemma startWorkers_inv inputs sched m :
  exec sched (startWorkers emailRegex ignoreRegex logFrequency inputs) = Some m ->
  machineInv (map (workerInstrs emailRegex ignoreRegex) inputs) m.
Proof.
  intros H. eapply exec_preserves; [|exact H].
  apply start_machineInv; try reflexivity.
  apply Forall_fmap, Forall_forall. intros ls _. apply outside_workerInstrs.
Qed.

Lemma inCritical_holds_lock st lock i th :
  threadInv st lock i th -> inCritical th -> lock = Some i.
Proof.
  intros [[_ Ho] | [Hl _]] Hc; [|done]. exfalso.
  unfold inCritical in Hc. destruct (todo th) as [|[] ?]; try done;
    inversion Ho.
Qed.

(** X7. Under every schedule, while one worker is between
    [writeLock.Lock()] and [writeLock.Unlock()], no other worker is. *)
Theorem X7_one_worker_in_the_critical_section :
  forall inputs sched m i j thi thj,
    exec sched (startWorkers emailRegex ignoreRegex logFrequency inputs)
    = Some m ->
    threads m !! i = Some thi -> threads m !! j = Some thj ->
    inCritical thi -> i <> j ->
    ~ inCritical thj.
Proof.
  intros inputs sched m i j thi thj Hexec Hi Hj Ci Hne Cj.
  destruct (startWorkers_inv _ _ _ Hexec) as (HT & _ & _).
  pose proof (inCritical_holds_lock _ _ _ _ (HT i thi Hi) Ci) as Li.
  pose proof (inCritical_holds_lock _ _ _ _ (HT j thj Hj) Cj) as Lj.
  congruence.
Qed.

Lemma step_lock_holder i m m' :
  (forall k, writeLock m = Some k -> is_Some (threads m !! k)) ->
  step i m = Some m' ->
  forall k, writeLock m' = Some k -> is_Some (threads m' !! k).
Proof.
  destruct m as [sh lock ths]. unfold step. simpl. intros Hold.
  destruct (ths !! i) as [th|] eqn:Hi; [|done].
  pose proof (lookup_lt_Some _ _ _ Hi) as Hlt.
  assert (Hkeep : forall th' k, is_Some (ths !! k) ->
                                is_Some (<[i := th']> ths !! k)).
  { intros th' k Hk. apply lookup_lt_is_Some. rewrite length_insert.
    by apply lookup_lt_is_Some. }
  destruct (todo th) as [|ins rest]; [done|].
  destruct ins; simpl.
  - destruct lock; [done|]. intros [= <-] k [= <-]. simpl.
    apply Hkeep. eauto.
  - case_bool_decide; [|done]. intros [= <-] k. simpl. done.
  - intros [= <-] k Hk. simpl in *. by apply Hkeep, Hold.
  - intros [= <-] k Hk. simpl in *. by apply Hkeep, Hold.
  - intros [= <-] k Hk. simpl in *. by apply Hkeep, Hold.
  - intros [= <-] k Hk. simpl in *. by apply Hkeep, Hold.
Qed.

Lemma exec_lock_holder sched : forall m m',
  (forall k, writeLock m = Some k -> is_Some (threads m !! k)) ->
  exec sched m = Some m' ->
  forall k, writeLock m' = Some k -> is_Some (threads m' !! k).
Proof.
  induction sched as [|i sched IH]; intros m m' Hold; simpl.
  - by intros [= <-].
  - destruct (step i m) as [m1|] eqn:Hs; [|done].
    apply IH. by apply (step_lock_holder i m).
Qed.

(** X8. The workers never block each other for good: under every
    schedule, as long as some worker has instructions left, some worker can
    execute its next instruction. *)
Theorem X8_workers_do_not_deadlock :
  forall inputs sched m,
    exec sched (startWorkers emailRegex ignoreRegex logFrequency inputs)
    = Some m ->
    ~ finished m ->
    exists i m', step i m = Some m'.
Proof.
  intros inputs sched m Hexec Hnf.
  destruct (startWorkers_inv _ _ _ Hexec) as (HT & _ & _).
  assert (Hholder : forall k, writeLock m = Some k -> is_Some (threads m !! k)).
  { eapply exec_lock_holder; [|exact Hexec]. simpl. done. }
  destruct (writeLock m) as [k|] eqn:Hl.
  - destruct (Hholder k eq_refl) as [th Hth].
    pose proof (HT k th Hth) as Hinv.
    destruct Hinv as [[? _] | [_ Hin]]; [done|].
    exists k. unfold step. rewrite Hth.
    destruct Hin as [(o & c & r & -> & _) | [(o & c & r & -> & _) | (r & -> & _)]];
      simpl; eauto.
    rewrite Hl, bool_decide_eq_true_2 by done. eauto.
  - assert (Hex : exists k th, threads m !! k = Some th /\ todo th <> []).
    { apply not_Forall_Exists in Hnf.
      - apply Exists_exists in Hnf as (th & Hin & Hne).
        apply list_elem_of_lookup in Hin as [k Hk]. eauto.
      - intros th. destruct (todo th); [left; done|right; done]. }
    destruct Hex as (k & th & Hth & Hne).
    pose proof (HT k th Hth) as Hinv.
    destruct Hinv as [[_ Ho] | [? _]]; [|done].
    exists k. unfold step. rewrite Hth.
    destruct (todo th) as [|ins rest]; [done|].
    inversion Ho; subst; simpl; rewrite ?Hl; eauto.
Qed.

End Mutex.

Lemma X7_one_worker_in_the_critical_section_witness :
  exists m th0 th1,
    exec [0; 0; 1; 1] (startWorkers emailAny ignoreEmpty 1000 twoInputs)
    = None
    /\ exec [0; 0] (startWorkers emailAny ignoreEmpty 1000 twoInputs) = Some m
    /\ threads m !! 0 = Some th0 /\ threads m !! 1 = Some th1
    /\ inCritical th0 /\ ~ inCritical th1.
Proof.
  do 3 eexists. split; [vm_compute; reflexivity|].
  split; [vm_compute; reflexivity|].
  split; [reflexivity|]. split; [reflexivity|]. split; [exact I|].
  eapply (X7_one_worker_in_the_critical_section emailAny ignoreEmpty 1000
            twoInputs [0; 0] _ 0 1).
  - vm_compute. reflexivity.
  - reflexivity.
  - reflexivity.
  - exact I.
  - discriminate.
Defined.

Lemma X8_workers_do_not_deadlock_witness :
  exists m i m',
    exec [0; 0; 1; 1] (startWorkers emailAny ignoreEmpty 1000 twoInputs)
    = None
    /\ exec [0; 0; 0] (startWorkers emailAny ignoreEmpty 1000 twoInputs)
       = Some m
    /\ step i m = Some m'.
Proof.
  destruct (exec [0; 0; 0] (startWorkers emailAny ignoreEmpty 1000 twoInputs))
    as [m|] eqn:E; [|vm_compute in E; discriminate].
  destruct (X8_workers_do_not_deadlock emailAny ignoreEmpty 1000 twoInputs
              [0; 0; 0] m E) as (i & m' & Hs).
  - pose proof E as E'. vm_compute in E'. injection E' as <-.
    intros Hf. inversion Hf as [|? ? H0 _]. discriminate H0.
  - exists m, i, m'. split; [vm_compute; reflexivity|].
    split; [reflexivity|exact Hs].
Defined.

(** ** WorkerPool *)

Lemma startPool_inv threads fileNames :
  poolInv fileNames (startPool threads fileNames).
Proof. unfold poolInv, startPool. simpl. repeat split; auto; lia. Qed.

Lemma poolStep_inv fileNames s p p' :
  poolInv fileNames p -> poolStep s p = Some p' -> poolInv fileNames p'.
Proof.
  destruct p as [cap q ts run ret f]. unfold poolInv. simpl.
  intros (I1 & I2 & I3 & I4). destruct s as [|k|]; simpl.
  - destruct ts as [|fileName rest]; [done|].
    destruct (q <? cap) eqn:E; [|done]. apply Nat.ltb_lt in E.
    intros [= <-]. simpl. rewrite (I3 ltac:(done)) in *.
    repeat split; try lia; try done.
    rewrite <- I4. by rewrite (Permutation_middle run rest fileName).
  - destruct (run !! k) as [fileName|] eqn:Hk; [|done].
    destruct q as [|q]; [done|]. intros [= <-]. simpl.
    pose proof (lookup_lt_Some _ _ _ Hk) as Hlt.
    rewrite length_delete by eauto.
    repeat split; try lia; try done.
    pose proof (delete_Permutation run k fileName Hk) as Hp.
    set (d := delete k run) in *. rewrite <- I4, Hp. simpl.
    by rewrite <- Permutation_middle.
  - destruct ts; [|done].
    destruct (f <? cap) eqn:E1; [|done]. destruct (q <? cap) eqn:E2; [|done].
    apply Nat.ltb_lt in E1, E2. intros [= <-]. simpl.
    repeat split; try lia; done.
Qed.

Lemma poolExec_inv fileNames steps : forall p p',
  poolInv fileNames p -> poolExec steps p = Some p' -> poolInv fileNames p'.
Proof.
  induction steps as [|s steps IH]; intros p p' Hinv; simpl.
  - by intros [= <-].
  - destruct (poolStep s p) as [p1|] eqn:Hs; [|done].
    apply IH. by apply (poolStep_inv fileNames s p).
Qed.

Lemma poolStep_capacity s p p' :
  poolStep s p = Some p' -> capacity p' = capacity p.
Proof.
  destruct s as [|k|]; simpl.
  - destruct (toStart p); [done|]. destruct (_ <? _); [|done]. by intros [= <-].
  - destruct (running p !! k); [|done]. destruct (queued p); [done|].
    by intros [= <-].
  - destruct (toStart p); [|done]. destruct (_ && _); [|done]. by intros [= <-].
Qed.

Lemma poolExec_capacity steps : forall p p',
  poolExec steps p = Some p' -> capacity p' = capacity p.
Proof.
  induction steps as [|s steps IH]; intros p p'; simpl.
  - by intros [= <-].
  - destruct (poolStep s p) as [p1|] eqn:Hs; [|done]. intros H.
    rewrite (IH _ _ H). by apply (poolStep_capacity s).
Qed.

(** X9. Whatever the order in which [main] and the workers take their
    steps: at most [-threads] workers are running at any time, and when
    [main] has left its second loop no worker is running any more and every
    file has been handed to exactly one worker, which has returned. *)
Theorem X9_pool_bounds_and_drains :
  forall threads fileNames steps p,
    poolExec steps (startPool threads fileNames) = Some p ->
    length (running p) <= threads
    /\ (mainPastLoops p -> running p = [] /\ returned p ≡ₚ fileNames).
Proof.
  intros threads fileNames steps p Hexec.
  pose proof (poolExec_inv fileNames steps _ _
                (startPool_inv threads fileNames) Hexec)
    as (I1 & I2 & I3 & I4).
  pose proof (poolExec_capacity _ _ _ Hexec) as Hc. simpl in Hc.
  split; [lia|]. intros [Hts Hf].
  assert (Hrun : running p = []).
  { apply length_zero_iff_nil. lia. }
  split; [exact Hrun|].
  by rewrite Hrun, Hts, !app_nil_r in I4.
Qed.

(** X10. With [-threads] at least 1 the pool never gets stuck: until
    [main] has left its second loop, [main] or some worker can take a step;
    in particular the receive of a returning worker never waits.  With
    [-threads 0] and at least one file, [main] waits at the first send for
    ever. *)
Theorem X10_pool_progress :
  (forall threads fileNames steps p,
      0 < threads ->
      poolExec steps (startPool threads fileNames) = Some p ->
      (forall k, k < length (running p) -> is_Some (poolStep (Return k) p))
      /\ (~ mainPastLoops p -> exists s, is_Some (poolStep s p)))
  /\ (forall fileName rest s,
        poolStep s (startPool 0 (fileName :: rest)) = None).
Proof.
  split.
  - intros threads fileNames steps p Hpos Hexec.
    pose proof (poolExec_inv fileNames steps _ _
                  (startPool_inv threads fileNames) Hexec)
      as (I1 & I2 & I3 & I4).
    pose proof (poolExec_capacity _ _ _ Hexec) as Hc. simpl in Hc.
    assert (Hret : forall k, k < length (running p) ->
                             is_Some (poolStep (Return k) p)).
    { intros k Hk. simpl.
      destruct (lookup_lt_is_Some_2 _ _ Hk) as [f ->].
      destruct (queued p) as [|q] eqn:Eq; [lia|]. eauto. }
    split; [exact Hret|]. intros Hnd.
    destruct (running p) as [|f run] eqn:Hrun.
    + destruct (toStart p) as [|g ts] eqn:Hts.
      * exists Fill. simpl. rewrite Hts.
        assert (fills p <> capacity p) by (intros ?; apply Hnd; by split).
        simpl in I1.
        rewrite (proj2 (Nat.ltb_lt _ _)), (proj2 (Nat.ltb_lt _ _)) by lia.
        simpl. eauto.
      * exists Spawn. simpl. rewrite Hts.
        rewrite (I3 ltac:(done)) in I1. simpl in I1.
        rewrite (proj2 (Nat.ltb_lt _ _)) by lia. eauto.
    + exists (Return 0). apply Hret. simpl. lia.
  - intros fileName rest [|k|]; reflexivity.
Qed.

Lemma X9_pool_bounds_and_drains_witness :
  exists p,
    poolExec [Spawn; Spawn; Return 1; Spawn; Return 0; Return 0; Fill; Fill]
      (startPool 2 ["a.log"; "b.log"; "c.log"]%string) = Some p
    /\ poolExec [Spawn; Spawn; Spawn]
         (startPool 2 ["a.log"; "b.log"; "c.log"]%string) = None
    /\ length (running p) <= 2
    /\ (mainPastLoops p ->
        running p = [] /\ returned p ≡ₚ ["a.log"; "b.log"; "c.log"]%string).
Proof.
  eexists. split; [lazy; reflexivity|]. split; [lazy; reflexivity|].
  apply (X9_pool_bounds_and_drains 2 ["a.log"; "b.log"; "c.log"]%string
           [Spawn; Spawn; Return 1; Spawn; Return 0; Return 0; Fill; Fill]).
  lazy; reflexivity.
Defined.

Lemma X10_pool_progress_witness :
  exists p,
    poolExec [Spawn; Spawn] (startPool 2 ["a.log"; "b.log"; "c.log"]%string)
    = Some p
    /\ is_Some (poolStep (Return 1) p)
    /\ exists s, is_Some (poolStep s p).
Proof.
  eexists. split; [lazy; reflexivity|].
  destruct (proj1 X10_pool_progress 2 ["a.log"; "b.log"; "c.log"]%string
              [Spawn; Spawn] _ ltac:(lia) eq_refl) as [Hret Hprog].
  split.
  - apply Hret. simpl. lia.
  - apply Hprog. intros [H _]. discriminate H.
Defined.

(** ** ResultWriter *)

Lemma splitAt_field sep body : forall cur,
  sep ∉ body -> splitAt sep cur body = [reverse cur ++ body].
Proof.
  induction body as [|c body IH]; intros cur Hn; simpl.
  - by rewrite app_nil_r.
  - apply not_elem_of_cons in Hn as [Hc Hb].
    destruct (Ascii.eqb c sep) eqn:E; [apply Ascii.eqb_eq in E; congruence|].
    rewrite IH by done. by rewrite reverse_cons, <- app_assoc.
Qed.

Lemma splitAt_cons sep body rest : forall cur,
  sep ∉ body ->
  splitAt sep cur (body ++ sep :: rest)
  = (reverse cur ++ body) :: splitAt sep [] rest.
Proof.
  induction body as [|c body IH]; intros cur Hn; simpl.
  - by rewrite Ascii.eqb_refl, app_nil_r.
  - apply not_elem_of_cons in Hn as [Hc Hb].
    destruct (Ascii.eqb c sep) eqn:E; [apply Ascii.eqb_eq in E; congruence|].
    rewrite IH by done. by rewrite reverse_cons, <- app_assoc.
Qed.

Lemma splitAt_fields us theirEmails :
  chComma ∉ B us -> Forall (fun a => chComma ∉ B a) theirEmails ->
  splitAt chComma []
    (B us ++ flat_map (fun them => chComma :: B them) theirEmails)
  = B us :: map B theirEmails.
Proof.
  intros Hus Hall. revert us Hus.
  induction Hall as [|a rest Ha _ IH]; intros us Hus; simpl.
  - rewrite app_nil_r. by rewrite splitAt_field.
  - rewrite splitAt_cons by done. simpl. f_equal. by apply IH.
Qed.

Lemma writeLine_noNewline us theirEmails :
  chNL ∉ B us -> Forall (fun a => chNL ∉ B a) theirEmails ->
  noNewline (B us ++ flat_map (fun them => chComma :: B them) theirEmails).
Proof.
  intros Hus Hall. apply Forall_app. split.
  - apply Forall_forall. intros x Hx ->. done.
  - induction Hall as [|a rest Ha _ IH]; simpl; [constructor|].
    constructor; [done|]. apply Forall_app. split; [|exact IH].
    apply Forall_forall. intros x Hx ->. done.
Qed.

Lemma writeLine_isLine us theirEmails :
  plainAddress us -> Forall plainAddress theirEmails ->
  isLine (writeLine us theirEmails).
Proof.
  intros [_ Hus] Hall. unfold writeLine. rewrite app_assoc.
  eexists. split; [reflexivity|].
  apply writeLine_noNewline; [done|].
  eapply Forall_impl; [exact Hall|]. by intros a [_ ?].
Qed.

Lemma parseLine_writeLine us theirEmails :
  plainAddress us -> Forall plainAddress theirEmails ->
  parseLine (writeLine us theirEmails) = (us, theirEmails).
Proof.
  intros [Hus _] Hall. unfold parseLine, writeLine.
  rewrite app_assoc, length_app. simpl length.
  replace (length (B us ++ flat_map (fun them => chComma :: B them) theirEmails)
           + 1 - 1)
    with (length (B us ++ flat_map (fun them => chComma :: B them) theirEmails))
    by lia.
  rewrite take_app_length, splitAt_fields; [|done|].
  - rewrite S_B. f_equal. rewrite map_map.
    rewrite <- (map_id theirEmails) at 2. apply map_ext. intros a. apply S_B.
  - eapply Forall_impl; [exact Hall|]. by intros a [? _].
Qed.

Lemma writeEmails_lines entries :
  plainEntries entries ->
  splitLines [] (writeEmails entries)
  = (map (fun e => writeLine e.1 e.2) entries, []).
Proof.
  intros Hp. unfold writeEmails.
  rewrite <- (app_nil_r (flat_map _ entries)), flat_map_concat_map.
  apply splitLines_lines; [|constructor].
  apply Forall_fmap. eapply Forall_impl; [exact Hp|].
  intros e [H1 H2]. by apply writeLine_isLine.
Qed.

Lemma someTraversal_isTraversal m : isTraversal m (someTraversal m).
Proof.
  unfold isTraversal, someTraversal.
  assert (Hfst : ((fun e : string * gmap string bool =>
                     (e.1, (map_to_list e.2).*1)) <$> map_to_list m).*1
                 = (map_to_list m).*1).
  { rewrite <- list_fmap_compose. by apply list_fmap_ext. }
  rewrite Hfst. split; [apply NoDup_fst_map_to_list|]. split.
  - apply set_eq. intros o.
    rewrite elem_of_dom, elem_of_list_to_set, list_elem_of_fmap. split.
    + intros [val Hval]. exists (o, val). split; [done|].
      by apply elem_of_map_to_list.
    + intros ([o' val] & -> & Hin). apply elem_of_map_to_list in Hin. eauto.
  - intros us theirEmails Hin.
    apply list_elem_of_fmap in Hin as ([o val] & [= -> ->] & Hin).
    apply elem_of_map_to_list in Hin. exists val. simpl.
    split; [done|]. split; [apply NoDup_fst_map_to_list|].
    apply set_eq. intros c.
    rewrite elem_of_dom, elem_of_list_to_set, list_elem_of_fmap. split.
    + intros [b Hb]. exists (c, b). split; [done|].
      by apply elem_of_map_to_list.
    + intros ([c' b] & -> & Hc). apply elem_of_map_to_list in Hc. eauto.
Qed.

Lemma isTraversal_length m entries :
  isTraversal m entries -> length entries = size m.
Proof.
  intros (Hnd & Hdom & _).
  rewrite <- size_dom, Hdom, size_list_to_set by done.
  by rewrite length_fmap.
Qed.

(** X11. In whatever order the map is traversed, when no address holds a
    comma or a newline the output consists of one complete line per owner,
    and reading the output back line by line and field by field gives the
    owners with their correspondents in the order they were written. *)
Theorem X11_output_reads_back :
  forall m entries,
    isTraversal m entries -> plainEntries entries ->
    (splitLines [] (writeEmails entries)).2 = []
    /\ length (splitLines [] (writeEmails entries)).1 = size m
    /\ parseOutput (writeEmails entries) = entries.
Proof.
  intros m entries Ht Hp. unfold parseOutput.
  rewrite writeEmails_lines by done. simpl.
  split; [done|]. split.
  - rewrite length_map. by apply isTraversal_length.
  - rewrite map_map. rewrite <- (map_id entries) at 2.
    apply map_ext_in. intros [us them] Hin. simpl.
    apply list_elem_of_In in Hin.
    destruct (proj1 (Forall_forall _ _) Hp _ Hin) as [H1 H2].
    by apply parseLine_writeLine.
Qed.

Lemma writeLine_comma us c1 c2 rest :
  writeLine us ((c1 +:+ "," +:+ c2) :: rest) = writeLine us (c1 :: c2 :: rest).
Proof.
  unfold writeLine. simpl.
  rewrite !B_app. simpl. do 3 f_equal.
  rewrite <- (app_assoc (B c1)). reflexivity.
Qed.

Lemma parseOutput_writeEmails entries :
  plainEntries entries -> parseOutput (writeEmails entries) = entries.
Proof.
  intros Hp. unfold parseOutput. rewrite writeEmails_lines by done. simpl.
  rewrite map_map. rewrite <- (map_id entries) at 2.
  apply map_ext_in. intros [us them] Hin. simpl.
  apply list_elem_of_In in Hin.
  destruct (proj1 (Forall_forall _ _) Hp _ Hin) as [H1 H2].
  by apply parseLine_writeLine.
Qed.

(** X12. Commas are not escaped: a correspondent whose address holds a
    comma is written exactly like two correspondents, and is read back from
    the output as two. *)
Theorem X12_comma_in_address_splits :
  forall us c1 c2 rest,
    plainAddress us -> plainAddress c1 -> plainAddress c2 ->
    Forall plainAddress rest ->
    writeLine us ((c1 +:+ "," +:+ c2) :: rest) = writeLine us (c1 :: c2 :: rest)
    /\ parseOutput (writeEmails [(us, (c1 +:+ "," +:+ c2) :: rest)])
       = [(us, c1 :: c2 :: rest)].
Proof.
  intros us c1 c2 rest Hus H1 H2 Hrest.
  split; [apply writeLine_comma|].
  replace (writeEmails [(us, (c1 +:+ "," +:+ c2) :: rest)])
    with (writeEmails [(us, c1 :: c2 :: rest)]).
  - apply parseOutput_writeEmails.
    constructor; [|constructor]. simpl. split; [exact Hus|].
    constructor; [exact H1|]. constructor; [exact H2|exact Hrest].
  - unfold writeEmails. simpl. by rewrite writeLine_comma.
Qed.

Ltac by_computation := apply (bool_decide_unpack _); vm_compute; exact I.

Lemma X11_output_reads_back_witness :
  writeEmails smallTraversal
  = B "dave@test.com,bob@other.com
alice@test.com,carol@other.com,bob@other.com
"
  /\ length (splitLines [] (writeEmails smallTraversal)).1 = size smallResult
  /\ parseOutput (writeEmails smallTraversal) = smallTraversal.
Proof.
  split; [reflexivity|].
  apply (X11_output_reads_back smallResult smallTraversal).
  - split; [by_computation|]. split; [by_computation|].
    intros us them Hin.
    apply elem_of_cons in Hin as [[= -> ->]|Hin];
      [|apply elem_of_cons in Hin as [[= -> ->]|Hin];
        [|by apply elem_of_nil in Hin]].
    + eexists. split; [reflexivity|]. split; by_computation.
    + eexists. split; [reflexivity|]. split; by_computation.
  - repeat constructor; by_computation.
Defined.

(** ** Symmetric classification *)

Lemma recordSeq_correspondents o c st :
  correspondents o (recordSeq o c st) = <[c := true]> (correspondents o st).
Proof.
  unfold correspondents, recordSeq.
  destruct (emails st !! o) as [val|] eqn:E; simpl;
    rewrite lookup_insert_eq; reflexivity.
Qed.

Lemma recordSeq_other o c o' st :
  o' <> o -> emails (recordSeq o c st) !! o' = emails st !! o'.
Proof.
  intros Hne. unfold recordSeq.
  destruct (emails st !! o) as [val|]; simpl; by rewrite lookup_insert_ne.
Qed.

Lemma recordSeq_fields o c st :
  lineCount (recordSeq o c st) = lineCount st
  /\ matchCount (recordSeq o c st) = matchCount st
  /\ ignoreCount (recordSeq o c st) = ignoreCount st
  /\ logLineCount (recordSeq o c st) = logLineCount st.
Proof. unfold recordSeq. by destruct (emails st !! o). Qed.

Lemma recordSeq_entry o c st o' val' c' :
  emails (recordSeq o c st) !! o' = Some val' -> is_Some (val' !! c') ->
  c' = c \/ exists val, emails st !! o' = Some val /\ is_Some (val !! c').
Proof.
  intros Hl Hc. destruct (decide (o' = o)) as [->|Hne].
  - pose proof (recordSeq_correspondents o c st) as Hcs.
    unfold correspondents in Hcs at 1. rewrite Hl in Hcs. simpl in Hcs.
    subst val'. destruct (decide (c' = c)) as [->|Hne]; [by left|right].
    rewrite lookup_insert_ne in Hc by done.
    unfold correspondents in Hc.
    destruct (emails st !! o) as [val|]; simpl in Hc; [eauto|].
    rewrite lookup_empty in Hc. by destruct Hc.
  - rewrite recordSeq_other in Hl by done. eauto.
Qed.

(** X13. In the symmetric variant, when exactly one of the two addresses
    of a delivery line matches the inclusion pattern, that address is the
    owner and the other one its correspondent, whichever side of the
    delivery it is on; the line is counted as matched and as read, the
    other entries of the map are unchanged, and nothing is folded. *)
Theorem X13_symmetric_included_address_owns :
  forall (emailRegex : bytes -> bool) line g1 g2 st,
    lineParser (B line) = Some (g1, g2) ->
    emailRegex g1 <> emailRegex g2 ->
    let us := S_ (if emailRegex g1 then g1 else g2) in
    let them := S_ (if emailRegex g1 then g2 else g1) in
    let st' := mainLine emailRegex line st in
    correspondents us st' = <[them := true]> (correspondents us st)
    /\ (forall o, o <> us -> emails st' !! o = emails st !! o)
    /\ matchCount st' = incr (matchCount st)
    /\ lineCount st' = incr (lineCount st)
    /\ ignoreCount st' = ignoreCount st.
Proof.
  intros emailRegex line g1 g2 st Hp Hne us them st'.
  apply FindStringSubmatch_lineParser in Hp as (m & Hm & E1 & E2).
  subst st'. unfold mainLine. rewrite Hm. cbn zeta. rewrite E1, E2.
  unfold emailRegexMatchString. rewrite !B_S_. subst us them.
  set (stM := setMatchCount (incr (matchCount st)) st).
  assert (Hgen : forall o c,
    let st' := setLogLineCount
                 (decr (logLineCount (setLineCount
                          (incr (lineCount (recordSeq o c stM)))
                          (recordSeq o c stM))))
                 (setLineCount (incr (lineCount (recordSeq o c stM)))
                    (recordSeq o c stM)) in
    correspondents o st' = <[c := true]> (correspondents o st)
    /\ (forall o', o' <> o -> emails st' !! o' = emails st !! o')
    /\ matchCount st' = incr (matchCount st)
    /\ lineCount st' = incr (lineCount st)
    /\ ignoreCount st' = ignoreCount st).
  { intros o c st'.
    destruct (recordSeq_fields o c stM) as (F1 & F2 & F3 & F4).
    split; [exact (recordSeq_correspondents o c stM)|].
    split; [intros o' Ho'; exact (recordSeq_other o c o' stM Ho')|].
    subst st'; simpl. rewrite F1, F2, F3. done. }
  destruct (emailRegex g1) eqn:H1, (emailRegex g2) eqn:H2; try congruence;
    cbn [andb]; apply Hgen.
Qed.

Lemma X13_symmetric_included_address_owns_witness :
  let line := "2024-01-01 10:00:00 <= alice@a.org H=mx for bob@test.com
"%string in
  let st' := mainLine emailTestCom line (initState 100 1) in
  correspondents "bob@test.com" st'
  = <["alice@a.org"%string := true]>
      (correspondents "bob@test.com" (initState 100 1))
  /\ matchCount st' = incr 0 /\ lineCount st' = incr 0.
Proof.
  cbn zeta.
  destruct (X13_symmetric_included_address_owns emailTestCom
              "2024-01-01 10:00:00 <= alice@a.org H=mx for bob@test.com
" (B "alice@a.org") (B "bob@test.com") (initState 100 1))
    as (H1 & _ & H3 & H4 & _).
  - vm_compute. reflexivity.
  - vm_compute. discriminate.
  - split; [exact H1|]. split; [exact H3|exact H4].
Defined.

Lemma mainLine_notIncluded (emailRegex : bytes -> bool) line st :
  correspondentsNotIncluded emailRegex st ->
  correspondentsNotIncluded emailRegex (mainLine emailRegex line st).
Proof.
  intros Hinv. unfold mainLine.
  destruct (FindStringSubmatch lineMatch line) as [m|]; [|exact Hinv].
  cbn zeta.
  destruct (emailRegexMatchString emailRegex (idx m 1)) eqn:E1,
           (emailRegexMatchString emailRegex (idx m 2)) eqn:E2;
    cbn [andb]; try exact Hinv;
    intros o val c Hl Hc; simpl in Hl;
    (apply recordSeq_entry with (c' := c) in Hl as [->|(val0 & Hl & Hc0)];
     [assumption| |exact Hc]); simpl in Hl; eauto.
Qed.

Lemma notIncluded_same_emails (emailRegex : bytes -> bool) st st' :
  emails st' = emails st ->
  correspondentsNotIncluded emailRegex st ->
  correspondentsNotIncluded emailRegex st'.
Proof. unfold correspondentsNotIncluded. by intros ->. Qed.

Lemma mainLoop_notIncluded (emailRegex : bytes -> bool) fileName calls fuel :
  forall i st st',
    correspondentsNotIncluded emailRegex st ->
    mainLoop emailRegex fuel fileName calls i st = Some st' ->
    correspondentsNotIncluded emailRegex st'.
Proof.
  induction fuel as [|fuel IH]; intros i st st' Hinv Hrun; [discriminate|].
  simpl in Hrun.
  set (st1 := if (logLineCount st <=? 0)%Z then _ else st) in Hrun.
  assert (H1 : correspondentsNotIncluded emailRegex st1).
  { subst st1. by destruct (logLineCount st <=? 0)%Z. }
  destruct (calls i) as [line [[|]|]].
  - injection Hrun as <-. exact H1.
  - eapply IH; [|exact Hrun]. by apply mainLine_notIncluded.
  - eapply IH; [|exact Hrun]. by apply mainLine_notIncluded.
Qed.

Lemma gzMainLoop_notIncluded (emailRegex : bytes -> bool) fileName reader fuel :
  forall i st o,
    correspondentsNotIncluded emailRegex st ->
    gzMainLoop emailRegex fuel fileName reader i st = Some o ->
    correspondentsNotIncluded emailRegex (stateOf o).
Proof.
  induction fuel as [|fuel IH]; intros i st o Hinv Hrun; [discriminate|].
  simpl in Hrun.
  set (st1 := if (logLineCount st <=? 0)%Z then _ else st) in Hrun.
  assert (H1 : correspondentsNotIncluded emailRegex st1).
  { subst st1. by destruct (logLineCount st <=? 0)%Z. }
  destruct reader as [calls|]; [|injection Hrun as <-; exact H1].
  destruct (calls i) as [line [[|]|]].
  - injection Hrun as <-. exact H1.
  - injection Hrun as <-. exact H1.
  - eapply IH; [|exact Hrun]. by apply mainLine_notIncluded.
Qed.

(** X14. In both sequential variants no correspondent that is stored
    matches the inclusion pattern: the property is kept by every line, and
    so by every run over any files, whatever the reads return. *)
Theorem X14_symmetric_correspondents_never_included :
  forall (emailRegex : bytes -> bool) logFrequency fuel fs fileNames st,
    correspondentsNotIncluded emailRegex st ->
    (forall lines,
        correspondentsNotIncluded emailRegex
          (foldl (fun st line => mainLine emailRegex line st) st lines))
    /\ (forall st',
           mainFiles emailRegex logFrequency fuel fs fileNames st = Some st' ->
           correspondentsNotIncluded emailRegex st')
    /\ (forall o,
           gzMainFiles emailRegex logFrequency fuel fs fileNames st = Some o ->
           correspondentsNotIncluded emailRegex (stateOf o)).
Proof.
  intros emailRegex logFrequency fuel fs fileNames st Hinv.
  split; [|split].
  - intros lines. revert st Hinv.
    induction lines as [|l lines IH]; intros st Hinv; simpl; [done|].
    apply IH. by apply mainLine_notIncluded.
  - revert st Hinv.
    induction fileNames as [|f rest IH]; intros st Hinv st' Hrun; simpl in Hrun.
    + by injection Hrun as <-.
    + destruct (mainLoop _ _ _ _ _ _) as [st1|] eqn:E; [|discriminate].
      apply mainLoop_notIncluded in E; [exact (IH _ E _ Hrun)|].
      by destruct (openFails (fs f)).
  - revert st Hinv.
    induction fileNames as [|f rest IH]; intros st Hinv o Hrun; simpl in Hrun.
    + by injection Hrun as <-.
    + destruct (newReader _ _ _) as [st0 reader] eqn:En.
      assert (H0 : correspondentsNotIncluded emailRegex st0).
      { unfold newReader in En.
        destruct (isGz f); [destruct (gzipFails (fs f))|];
          injection En as <- _; by destruct (openFails (fs f)). }
      destruct (gzMainLoop _ _ _ _ _ _) as [o1|] eqn:E; [|discriminate].
      apply gzMainLoop_notIncluded in E; [|exact H0].
      destruct o1 as [st1|st1]; [exact (IH _ E _ Hrun)|]. by injection Hrun as <-.
Qed.

Lemma X14_symmetric_correspondents_never_included_witness :
  exists st',
    mainFiles emailTestCom 100 5 flakyDir ["a.log"; "b.log"]%string
      (initState 100 2) = Some st'
    /\ correspondentsNotIncluded emailTestCom st'.
Proof.
  destruct (mainFiles emailTestCom 100 5 flakyDir ["a.log"; "b.log"]%string
              (initState 100 2)) as [st'|] eqn:E.
  - exists st'. split; [reflexivity|].
    apply (proj1 (proj2 (X14_symmetric_correspondents_never_included
                           emailTestCom 100 5 flakyDir
                           ["a.log"; "b.log"]%string (initState 100 2)
                           ltac:(intros o val c H; done)))).
    exact E.
  - exfalso. vm_compute in E. discriminate E.
Defined.

(** ** The reader of a file *)

Lemma extScan_suffix rev : forall acc r,
  extScan rev acc = r -> r <> [] ->
  exists k, r = reverse (take k rev) ++ acc.
Proof.
  induction rev as [|c rev IH]; intros acc r Hr Hne; simpl in Hr.
  - congruence.
  - destruct (Ascii.eqb c "/"); [congruence|].
    destruct (Ascii.eqb c "."%char).
    + exists 1. subst r. reflexivity.
    + destruct (IH _ _ Hr Hne) as [k ->]. exists (S k). simpl.
      by rewrite reverse_cons, <- app_assoc.
Qed.

Lemma Ext_suffix path :
  Ext path <> ""%string -> exists stem, path = stem +:+ Ext path.
Proof.
  intros Hne. unfold Ext in *.
  destruct (extScan_suffix (reverse (B path)) [] _ eq_refl) as [k Hk].
  { intros E. apply Hne. by rewrite E. }
  rewrite Hk, app_nil_r.
  exists (S_ (reverse (drop k (reverse (B path))))).
  rewrite <- (S_B path) at 1. rewrite <- (S_B (_ +:+ _)). f_equal.
  rewrite B_app, !B_S_, <- reverse_app, take_drop. by rewrite reverse_involutive.
Qed.

Lemma isGz_iff fileName :
  isGz fileName = true <-> exists stem, fileName = stem +:+ ".gz".
Proof.
  split.
  - intros H. apply String.eqb_eq in H.
    destruct (Ext_suffix fileName) as [stem Hs]; [by rewrite H|].
    rewrite H in Hs. eauto.
  - intros [stem ->]. apply isGz_suffix.
Qed.

(** X15. The two variants with gzip support read a file through
    [gzip.NewReader] exactly when its name ends in [.gz]: for such a name
    the reader is built on the gzip reader (the nil one when the header is
    rejected), for every other name on the file itself. *)
Theorem X15_gzip_reader_exactly_for_gz_suffix :
  forall env fileName st,
    ((exists stem, fileName = stem +:+ ".gz") ->
     newReader env fileName st
     = if gzipFails env then (logEvent (ErrGzip fileName) st, None)
       else (st, Some (gzipReads env)))
    /\ ((~ exists stem, fileName = stem +:+ ".gz") ->
        newReader env fileName st = (st, Some (reads env))).
Proof.
  intros env fileName st. unfold newReader. split; intros H.
  - apply isGz_iff in H. by rewrite H.
  - destruct (isGz fileName) eqn:E; [|done].
    apply isGz_iff in E. contradiction.
Qed.

Lemma X15_gzip_reader_exactly_for_gz_suffix_witness :
  newReader goodFile "mail.log.gz" (initState 100 1)
  = (logEvent (ErrGzip "mail.log.gz") (initState 100 1), None)
  /\ newReader goodFile "archive.gz/mail.log" (initState 100 1)
     = (initState 100 1, Some (reads goodFile)).
Proof.
  split.
  - apply (proj1 (X15_gzip_reader_exactly_for_gz_suffix goodFile
                    "mail.log.gz" (initState 100 1))).
    by exists "mail.log"%string.
  - apply (proj2 (X15_gzip_reader_exactly_for_gz_suffix goodFile
                    "archive.gz/mail.log" (initState 100 1))).
    intros [stem H]. apply (f_equal (fun s => reverse (B s))) in H.
    rewrite B_app, reverse_app in H. discriminate H.
Defined.

(** ** The count of remaining files *)

Lemma decr_no_underflow z : (minInt < z <= maxInt)%Z -> decr z = (z - 1)%Z.
Proof.
  unfold decr, wrapInt, minInt, maxInt. intros H.
  rewrite Z.mod_small; lia.
Qed.

Lemma newReader_readerOf env fileName st calls :
  readerOf env fileName = Some calls ->
  newReader env fileName st = (st, Some calls).
Proof.
  unfold readerOf, newReader.
  destruct (isGz fileName); [destruct (gzipFails env)|]; simpl;
    by intros [= <-].
Qed.

Section Remaining.

Variable emailRegex : bytes -> bool.
Variable ignoreRegex : bytes -> bool.
Variable logFrequency : Z.

Lemma processLine_remainingFiles line st :
  remainingFiles (processLine emailRegex ignoreRegex line st)
  = remainingFiles st.
Proof.
  rewrite processLine_classify.
  destruct (classify emailRegex ignoreRegex line) as [| |o c]; simpl;
    try reflexivity.
  apply record_other_fields.
Qed.

Lemma progressCheck_remainingFiles st :
  remainingFiles (progressCheck logFrequency st) = remainingFiles st.
Proof. unfold progressCheck. by destruct (_ <=? 0)%Z. Qed.

Lemma afterLines_remainingFiles calls n : forall i st,
  remainingFiles (afterLines emailRegex ignoreRegex logFrequency calls n i st)
  = remainingFiles st.
Proof.
  induction n as [|n IH]; intros i st; simpl; [reflexivity|].
  by rewrite IH, processLine_remainingFiles, progressCheck_remainingFiles.
Qed.

Lemma processFile_remainingFiles fuel fs fileName e st :
  fileEnds fuel fs fileName e ->
  exists st',
    processFile emailRegex ignoreRegex logFrequency fuel (fs fileName)
      fileName st = Some (Returned st')
    /\ remainingFiles st'
       = if isIOErr e then remainingFiles st else decr (remainingFiles st).
Proof.
  intros (calls & n & Hr & Hn & Hok & Hend).
  unfold processFile.
  set (st1 := if openFails (fs fileName) then _ else st).
  assert (H1 : remainingFiles st1 = remainingFiles st).
  { subst st1. by destruct (openFails (fs fileName)). }
  rewrite (newReader_readerOf _ _ st1 _ Hr).
  destruct e.
  - rewrite (readLoop_eof _ _ _ fileName calls n) by done.
    eexists. split; [reflexivity|]. simpl.
    rewrite progressCheck_remainingFiles, afterLines_remainingFiles.
    simpl. by rewrite H1.
  - rewrite (readLoop_read_error _ _ _ fileName calls n) by done.
    eexists. split; [reflexivity|]. simpl.
    rewrite progressCheck_remainingFiles, afterLines_remainingFiles.
    simpl. by rewrite H1.
Qed.

Lemma runFiles_remainingFiles fuel fs fileNames : forall ends st,
  Forall2 (fileEnds fuel fs) fileNames ends ->
  (minInt + Z.of_nat (length fileNames) <= remainingFiles st <= maxInt)%Z ->
  exists st',
    runFiles emailRegex ignoreRegex logFrequency fuel fs fileNames st
    = Some (Returned st')
    /\ (remainingFiles st'
        = remainingFiles st - Z.of_nat (length fileNames)
          + Z.of_nat (length (filter (fun e => isIOErr e = true) ends)))%Z.
Proof.
  induction fileNames as [|f rest IH]; intros ends st Hends Hb.
  - apply Forall2_nil_inv_l in Hends as ->. exists st. split; [done|].
    simpl. lia.
  - apply Forall2_cons_inv_l in Hends as (e & ends' & He & Hrest & ->).
    destruct (processFile_remainingFiles fuel fs f e st He) as (st1 & Hp & Hr1).
    simpl in Hb.
    assert (Hd : decr (remainingFiles st) = (remainingFiles st - 1)%Z).
    { apply decr_no_underflow. lia. }
    destruct (IH ends' st1 Hrest) as (st' & Hrun & Hr').
    { destruct e; simpl in Hr1; rewrite Hr1, ?Hd; lia. }
    exists st'. split; [simpl; by rewrite Hp|].
    rewrite Hr'. rewrite filter_cons.
    destruct e; simpl in *; rewrite Hr1, ?Hd; try case_decide; try done;
      simpl; lia.
Qed.

(** X16. [remainingFiles--] is reached only when a file is read to its
    end: when the workers run one after the other on files that all get a
    reader, the run returns and [remainingFiles] ends as the number of
    files that were abandoned after a read error. *)
Theorem X16_remaining_counts_abandoned_files :
  forall fuel fs fileNames ends,
    Forall2 (fileEnds fuel fs) fileNames ends ->
    (Z.of_nat (length fileNames) <= maxInt)%Z ->
    exists st',
      runFiles emailRegex ignoreRegex logFrequency fuel fs fileNames
        (initState logFrequency (length fileNames)) = Some (Returned st')
      /\ remainingFiles st'
         = Z.of_nat (length (filter (fun e => isIOErr e = true) ends)).
Proof.
  intros fuel fs fileNames ends Hends Hlen.
  destruct (runFiles_remainingFiles fuel fs fileNames ends
              (initState logFrequency (length fileNames)) Hends)
    as (st' & Hrun & Hr).
  { simpl. unfold minInt, maxInt in *. lia. }
  exists st'. split; [exact Hrun|]. rewrite Hr. simpl. lia.
Qed.

End Remaining.

Lemma X16_remaining_counts_abandoned_files_witness :
  exists st',
    runFiles emailTestCom ignoreEmpty 100 5 halfBrokenDir
      ["a.log"; "b.log"]%string (initState 100 2) = Some (Returned st')
    /\ remainingFiles st' = 1%Z.
Proof.
  apply (X16_remaining_counts_abandoned_files emailTestCom ignoreEmpty 100 5
           halfBrokenDir ["a.log"; "b.log"]%string [IOErr; EOF]).
  - repeat constructor.
    + exists (reads brokenAfterOneLine), 1.
      split; [reflexivity|]. split; [lia|]. split; [|reflexivity].
      intros j Hj. assert (j = 0) as -> by lia. reflexivity.
    + exists (reads goodFile), 1.
      split; [reflexivity|]. split; [lia|]. split; [|reflexivity].
      intros j Hj. assert (j = 0) as -> by lia. reflexivity.
  - unfold maxInt. simpl. lia.
Defined.

(** ** Case folding *)

Module Utf8Facts.
Import Utf8.
Local Open Scope Z_scope.

Lemma land_le_l a b : 0 <= a -> Z.land a b <= a.
Proof.
  intros Ha.
  pose proof (Z.add_lor_land (Z.ldiff a b) (Z.land a b)) as H.
  rewrite Z.lor_ldiff_and in H.
  assert (E : Z.land (Z.ldiff a b) (Z.land a b) = 0).
  { apply Z.bits_inj'. intros n Hn.
    rewrite !Z.land_spec, Z.ldiff_spec, Z.bits_0.
    by destruct (Z.testbit a n), (Z.testbit b n). }
  rewrite E in H.
  assert (0 <= Z.ldiff a b) by (apply Z.ldiff_nonneg; auto).
  lia.
Qed.

Lemma lor_ge_l n a b : 0 <= a -> 0 <= b -> n <= a -> n <= Z.lor a b.
Proof.
  intros Ha Hb Hn.
  pose proof (Z.add_lor_land a b) as H.
  pose proof (land_le_l b a Hb) as H'. rewrite Z.land_comm in H'. lia.
Qed.

Lemma lor_ge_r n a b : 0 <= a -> 0 <= b -> n <= b -> n <= Z.lor a b.
Proof. intros. rewrite Z.lor_comm. by apply lor_ge_l. Qed.

Lemma byteVal_range c : 0 <= byteVal c < 256.
Proof.
  unfold byteVal. pose proof (N_ascii_bounded c). lia.
Qed.

Lemma byteVal_byteOf z : byteVal (byteOf z) = z mod 256.
Proof.
  unfold byteVal, byteOf.
  pose proof (Z.mod_pos_bound z 256 ltac:(lia)).
  rewrite N_ascii_embedding by lia. lia.
Qed.

Lemma highbit h x : Z.testbit h 7 = true -> 128 <= byteVal (byteOf (Z.lor h x)).
Proof.
  intros Hh. rewrite byteVal_byteOf.
  pose proof (Z.mod_pos_bound (Z.lor h x) 256 ltac:(lia)) as Hb.
  assert (Ht : Z.testbit (Z.lor h x mod 2 ^ 8) 7 = true).
  { rewrite Z.mod_pow2_bits_low by lia. by rewrite Z.lor_spec, Hh. }
  change (2 ^ 8) with 256 in Ht.
  apply Z.testbit_true in Ht; [|lia]. change (2 ^ 7) with 128 in Ht.
  Z.to_euclidean_division_equations. lia.
Qed.

Lemma high_folded c : 128 <= byteVal c -> foldedByte c = true.
Proof.
  intros H. apply Z.leb_le in H. revert H.
  destruct c as [[] [] [] [] [] [] [] []]; vm_compute; intros H;
    (discriminate H || reflexivity).
Qed.

Lemma ascii_step c :
  (byteVal c <? RuneSelf) = true ->
  (if 0 <=? toLower (byteVal c) then AppendRune (toLower (byteVal c)) else [])
  = [lowerByte c].
Proof.
  destruct c as [[] [] [] [] [] [] [] []]; vm_compute; intros H;
    (discriminate H || reflexivity).
Qed.

Lemma lowerByte_folded c : isSpace c = false -> foldedByte (lowerByte c) = true.
Proof.
  destruct c as [[] [] [] [] [] [] [] []]; vm_compute; intros H;
    (discriminate H || reflexivity).
Qed.

Lemma toLower_high r : 128 <= r -> toLower r = r.
Proof.
  intros H. unfold toLower.
  destruct (65 <=? r) eqn:E1, (r <=? 90) eqn:E2; simpl; try reflexivity.
  apply Z.leb_le in E2. lia.
Qed.

Lemma AppendRune_high r :
  128 <= r ->
  AppendRune r <> [] /\ Forall (fun c => 128 <= byteVal c) (AppendRune r).
Proof.
  intros H. unfold AppendRune, encode3.
  destruct (r <=? 0x7F) eqn:E; [apply Z.leb_le in E; lia|].
  repeat match goal with |- context [if ?b then _ else _] => destruct b end;
    (split; [discriminate|]); repeat constructor; by apply highbit.
Qed.

Lemma first_range p0 sz lo hi :
  first p0 = Some (sz, lo, hi) ->
  hi <= 0xBF
  /\ ((sz = 2 /\ 0xC2 <= p0 <= 0xDF /\ lo = 0x80)
      \/ (sz = 3 /\ p0 = 0xE0 /\ lo = 0xA0)
      \/ (sz = 3 /\ 0xE1 <= p0 <= 0xEF /\ lo = 0x80)
      \/ (sz = 4 /\ p0 = 0xF0 /\ lo = 0x90)
      \/ (sz = 4 /\ 0xF1 <= p0 <= 0xF4 /\ lo = 0x80)).
Proof.
  unfold first.
  repeat match goal with
         | |- context [if ?b then _ else _] => destruct b eqn:?
         end; intros [= <- <- <-] || discriminate; lia.
Qed.

Ltac nonneg :=
  repeat first
    [ apply Z.lor_nonneg; split
    | apply Z.shiftl_nonneg
    | apply Z.land_nonneg; right; lia ].

(** A sequence that starts with a byte above 127 never decodes to an ASCII
    rune: overlong encodings are rejected. *)
Lemma DecodeRune_high c s :
  (byteVal c <? RuneSelf) = false ->
  128 <= (DecodeRune (c :: s)).1 /\ (1 <= (DecodeRune (c :: s)).2)%nat.
Proof.
  intros Hc. unfold DecodeRune. rewrite Hc.
  assert (HE : 128 <= RuneError) by (unfold RuneError; lia).
  destruct (first (byteVal c)) as [[[sz lo] hi]|] eqn:Ef; [|simpl; lia].
  apply first_range in Ef as [Hhi Ef].
  destruct s as [|c1 s1]; [simpl; lia|].
  destruct ((byteVal c1 <? lo) || (hi <? byteVal c1)) eqn:E1; [simpl; lia|].
  apply orb_false_iff in E1 as [E1 E1']. apply Z.ltb_ge in E1, E1'.
  pose proof (byteVal_range c1) as R1.
  assert (H2 : sz = 2 ->
               128 <= Z.shiftl (Z.land (byteVal c) 0x1F) 6).
  { intros ->. rewrite Z.shiftl_mul_pow2 by lia.
    change 0x1F with (Z.ones 5). rewrite Z.land_ones by lia.
    change (2 ^ 5) with 32. change (2 ^ 6) with 64.
    Z.to_euclidean_division_equations. lia. }
  assert (H3 : sz = 3 ->
               128 <= Z.lor (Z.shiftl (Z.land (byteVal c) 0x0F) 12)
                        (Z.shiftl (Z.land (byteVal c1) 0x3F) 6)).
  { intros ->. rewrite !Z.shiftl_mul_pow2 by lia.
    change 0x0F with (Z.ones 4). change 0x3F with (Z.ones 6).
    rewrite !Z.land_ones by lia.
    change (2 ^ 4) with 16. change (2 ^ 6) with 64. change (2 ^ 12) with 4096.
    destruct (Z.eq_dec (byteVal c) 0xE0) as [E|E].
    - apply lor_ge_r; Z.to_euclidean_division_equations; lia.
    - apply lor_ge_l; Z.to_euclidean_division_equations; lia. }
  assert (H4 : sz = 4 ->
               128 <= Z.lor (Z.shiftl (Z.land (byteVal c) 0x07) 18)
                        (Z.shiftl (Z.land (byteVal c1) 0x3F) 12)).
  { intros ->. rewrite !Z.shiftl_mul_pow2 by lia.
    change 0x07 with (Z.ones 3). change 0x3F with (Z.ones 6).
    rewrite !Z.land_ones by lia.
    change (2 ^ 3) with 8. change (2 ^ 6) with 64.
    change (2 ^ 12) with 4096. change (2 ^ 18) with 262144.
    destruct (Z.eq_dec (byteVal c) 0xF0) as [E|E].
    - apply lor_ge_r; Z.to_euclidean_division_equations; lia.
    - apply lor_ge_l; Z.to_euclidean_division_equations; lia. }
  destruct (sz <=? 2) eqn:S2.
  { simpl. split; [|lia]. apply lor_ge_l; [nonneg..|].
    apply H2. apply Z.leb_le in S2. lia. }
  destruct s1 as [|c2 s2]; [simpl; lia|].
  destruct (negb (contByte (byteVal c2))); [simpl; lia|].
  destruct (sz <=? 3) eqn:S3.
  { simpl. split; [|lia].
    assert (sz = 3) as Hsz by (apply Z.leb_le in S3; apply Z.leb_gt in S2; lia).
    specialize (H3 Hsz).
    rewrite Z.lor_assoc. apply lor_ge_l; [nonneg..|exact H3]. }
  destruct s2 as [|c3 s3]; [simpl; lia|].
  destruct (negb (contByte (byteVal c3))); [simpl; lia|].
  simpl. split; [|lia].
  assert (sz = 4) as Hsz by (apply Z.leb_gt in S3; lia).
  specialize (H4 Hsz).
  rewrite !Z.lor_assoc. apply lor_ge_l; [nonneg..|].
  apply lor_ge_l; [nonneg..|exact H4].
Qed.

End Utf8Facts.

Lemma mapLoop_step rounds c s :
  Utf8.mapLoop (S rounds) toLower (c :: s)
  = (if (Utf8.byteVal c <? Utf8.RuneSelf)%Z then [lowerByte c]
     else Utf8.AppendRune (Utf8.DecodeRune (c :: s)).1)
    ++ Utf8.mapLoop rounds toLower
         (drop (if (Utf8.byteVal c <? Utf8.RuneSelf)%Z then 1
                else (Utf8.DecodeRune (c :: s)).2) (c :: s)).
Proof.
  cbn [Utf8.mapLoop].
  destruct (Utf8.byteVal c <? Utf8.RuneSelf)%Z eqn:E.
  - by rewrite Utf8Facts.ascii_step.
  - destruct (Utf8Facts.DecodeRune_high c s E) as [Hr _].
    destruct (Utf8.DecodeRune (c :: s)) as [r wid]. simpl in *.
    rewrite Utf8Facts.toLower_high by done.
    destruct (0 <=? r)%Z eqn:E0; [done|]. apply Z.leb_gt in E0. lia.
Qed.

Lemma mapLoop_folded rounds : forall s,
  Forall (fun c => isSpace c = false) s ->
  Forall (fun c => foldedByte c = true) (Utf8.mapLoop rounds toLower s).
Proof.
  induction rounds as [|rounds IH]; intros s Hs; [constructor|].
  destruct s as [|c s]; [constructor|].
  rewrite mapLoop_step. apply Forall_app. split.
  - destruct (Utf8.byteVal c <? Utf8.RuneSelf)%Z eqn:E.
    + constructor; [|constructor].
      apply Utf8Facts.lowerByte_folded. by inversion Hs.
    + destruct (Utf8Facts.DecodeRune_high c s E) as [Hr _].
      destruct (Utf8Facts.AppendRune_high _ Hr) as [_ Hall].
      eapply Forall_impl; [exact Hall|]. apply Utf8Facts.high_folded.
  - apply IH. by apply Forall_drop.
Qed.

Lemma mapLoop_nonempty rounds c s :
  Utf8.mapLoop (S rounds) toLower (c :: s) <> [].
Proof.
  rewrite mapLoop_step.
  destruct (Utf8.byteVal c <? Utf8.RuneSelf)%Z eqn:E; [done|].
  destruct (Utf8Facts.DecodeRune_high c s E) as [Hr _].
  destruct (Utf8Facts.AppendRune_high _ Hr) as [Hne _].
  intros H. apply app_eq_nil in H as [H _]. done.
Qed.

Lemma Map_toLower_folded t :
  isToken t -> foldedKey (S_ (Utf8.Map toLower t)).
Proof.
  intros [Hne Hall]. unfold foldedKey. rewrite B_S_. unfold Utf8.Map. split.
  - destruct t as [|c t]; [done|]. apply mapLoop_nonempty.
  - by apply mapLoop_folded.
Qed.

Section Folding.

Variable emailRegex : bytes -> bool.
Variable ignoreRegex : bytes -> bool.
Variable logFrequency : Z.

Lemma classify_folded line o c :
  classify emailRegex ignoreRegex line = Recorded o c ->
  foldedKey o /\ foldedKey c.
Proof.
  unfold classify.
  destruct (FindSubmatch lineMatch line) as [m|] eqn:Hm; [|discriminate].
  destruct (negb (emailRegex (idx m 1))); [discriminate|].
  destruct (ignoreRegex (idx m 2)); [discriminate|].
  intros [= <- <-].
  assert (Hp : lineParser line = Some (idx m 1, idx m 2)).
  { unfold lineParser. by rewrite Hm. }
  apply LineParserProofs.lineParser_sound in Hp
    as (? & ? & ? & ? & _ & _ & _ & Hf & _ & _ & Ht & _).
  split; by apply Map_toLower_folded.
Qed.

Lemma record_keysFolded o c st :
  foldedKey o -> foldedKey c -> keysFolded st -> keysFolded (record o c st).
Proof.
  intros Ho Hc Hinv o' val'. rewrite record_emails.
  destruct (decide (o = o')) as [<-|Hne].
  - rewrite lookup_insert_eq. intros [= <-]. split; [done|].
    intros c'. destruct (decide (c = c')) as [<-|Hne]; [done|].
    rewrite lookup_insert_ne by done. unfold correspondents.
    destruct (emails st !! o) as [val|] eqn:E; simpl.
    + by apply (Hinv o val).
    + rewrite lookup_empty. by intros [? ?].
  - rewrite lookup_insert_ne by done. apply Hinv.
Qed.

Lemma processLine_keysFolded line st :
  keysFolded st -> keysFolded (processLine emailRegex ignoreRegex line st).
Proof.
  intros Hinv. rewrite processLine_classify.
  destruct (classify emailRegex ignoreRegex line) as [| |o c] eqn:E;
    try exact Hinv.
  apply classify_folded in E as [Ho Hc].
  exact (record_keysFolded o c st Ho Hc Hinv).
Qed.

Lemma readLoop_keysFolded fileName reader fuel : forall i st out,
  keysFolded st ->
  readLoop emailRegex ignoreRegex logFrequency fuel fileName reader i st
  = Some out ->
  keysFolded (stateOf out).
Proof.
  induction fuel as [|fuel IH]; intros i st out Hinv Hrun; [discriminate|].
  simpl in Hrun.
  assert (H1 : keysFolded (progressCheck logFrequency st)).
  { unfold progressCheck. by destruct (_ <=? 0)%Z. }
  destruct reader as [calls|]; [|by injection Hrun as <-].
  destruct (calls i) as [line [[|]|]].
  - by injection Hrun as <-.
  - by injection Hrun as <-.
  - eapply IH; [|exact Hrun]. by apply processLine_keysFolded.
Qed.

(** X17. Every owner and every correspondent that the concurrent variant
    stores is a non-empty key without whitespace and without ASCII capital
    letters: the property is kept by every line and by every run over any
    files, whatever the reads return. *)
Theorem X17_keys_are_folded_tokens :
  forall st,
    keysFolded st ->
    (forall lines, keysFolded (processLines emailRegex ignoreRegex lines st))
    /\ (forall fuel fs fileNames out,
           runFiles emailRegex ignoreRegex logFrequency fuel fs fileNames st
           = Some out ->
           keysFolded (stateOf out)).
Proof.
  intros st Hinv. split.
  - intros lines. revert st Hinv. unfold processLines.
    induction lines as [|l lines IH]; intros st Hinv; simpl; [done|].
    apply IH. by apply processLine_keysFolded.
  - intros fuel fs fileNames. revert st Hinv.
    induction fileNames as [|f rest IH]; intros st Hinv out Hrun;
      simpl in Hrun.
    + by injection Hrun as <-.
    + destruct (processFile _ _ _ _ _ _ _) as [o1|] eqn:E; [|discriminate].
      assert (H1 : keysFolded (stateOf o1)).
      { unfold processFile in E.
        destruct (newReader _ _ _) as [st0 reader] eqn:En.
        eapply readLoop_keysFolded; [|exact E].
        unfold newReader in En.
        destruct (isGz f); [destruct (gzipFails (fs f))|];
          injection En as <- _; by destruct (openFails (fs f)). }
      destruct o1 as [st1|st1]; [exact (IH _ H1 _ Hrun)|].
      by injection Hrun as <-.
Qed.

End Folding.

Lemma X17_keys_are_folded_tokens_witness :
  let st' := processLines emailAny ignoreEmpty
               [nl "2024-01-01 10:00:00 <= Alice@Test.COM H=mx for BOB@other.com"]
               (initState 100 1) in
  emails st' !! "alice@test.com"%string = Some {["bob@other.com"%string := true]}
  /\ keysFolded st'.
Proof.
  split; [vm_compute; reflexivity|].
  apply (proj1 (X17_keys_are_folded_tokens emailAny ignoreEmpty 100
                  (initState 100 1) ltac:(intros o val H; done))).
Defined.

(** X18. On an address of ASCII bytes [bytes.Map(toLower, _)] works byte
    by byte: the bytes of capital letters are replaced by those of the
    small letters, every other byte is kept, and the length is the same. *)
Theorem X18_ascii_fold_is_bytewise :
  forall s,
    Forall (fun c => (Utf8.byteVal c < 128)%Z) s ->
    Utf8.Map toLower s = map lowerByte s.
Proof.
  intros s Hs. unfold Utf8.Map.
  induction Hs as [|c s Hc Hs IH]; [reflexivity|].
  cbn [length]. rewrite mapLoop_step.
  apply Z.ltb_lt in Hc. unfold Utf8.RuneSelf. rewrite Hc. simpl.
  rewrite drop_0. by rewrite IH.
Qed.

Lemma X18_ascii_fold_is_bytewise_witness :
  Utf8.Map toLower (B "Alice@Test.COM") = map lowerByte (B "Alice@Test.COM")
  /\ map lowerByte (B "Alice@Test.COM") = B "alice@test.com".
Proof.
  split; [|vm_compute; reflexivity].
  apply (X18_ascii_fold_is_bytewise (B "Alice@Test.COM")).
  repeat constructor.
Defined.

(** ** Progress messages *)

Lemma mainLine_logged (emailRegex : bytes -> bool) line st :
  logged (mainLine emailRegex line st) = logged st.
Proof.
  unfold mainLine. destruct (FindStringSubmatch lineMatch line) as [m|];
    [|reflexivity].
  cbn zeta. destruct (_ && _); [reflexivity|].
  destruct (emailRegexMatchString emailRegex (idx m 1)); simpl;
    unfold recordSeq; by destruct (_ !! _).
Qed.

Lemma mainLine_logLineCount (emailRegex : bytes -> bool) line st :
  logLineCount (mainLine emailRegex line st) = logLineCount st
  \/ logLineCount (mainLine emailRegex line st) = decr (logLineCount st).
Proof.
  unfold mainLine. destruct (FindStringSubmatch lineMatch line) as [m|];
    [|by right].
  cbn zeta. destruct (_ && _); [by left|right].
  destruct (emailRegexMatchString emailRegex (idx m 1)); simpl;
    unfold recordSeq; by destruct (_ !! _).
Qed.

(** X19. [main.go] never resets [logLineCount] inside a file: once it is
    0 or less at some round of the loop, a progress message is logged at
    that round and at every later one, one per line read and one before
    the read that reports the end of the file. *)
Theorem X19_main_logs_progress_on_every_round
    (emailRegex : bytes -> bool) fileName calls n :
  forall i st fuel,
    (forall j, i <= j < i + n -> (calls j).2 = None) ->
    (calls (i + n)).2 = Some EOF ->
    n < fuel ->
    (logLineCount st <= 0)%Z ->
    (minInt + Z.of_nat n <= logLineCount st)%Z ->
    exists st',
      mainLoop emailRegex fuel fileName calls i st = Some st'
      /\ progressCount st' = progressCount st + n + 1.
Proof.
  induction n as [|n IH]; intros i st fuel Hok Hend Hfuel Hle Hmin.
  - destruct fuel as [|fuel]; [lia|]. simpl.
    rewrite Nat.add_0_r in Hend.
    destruct (calls i) as [line err]. simpl in Hend. subst err.
    apply Z.leb_le in Hle. rewrite Hle.
    eexists. split; [reflexivity|]. unfold progressCount. simpl. lia.
  - destruct fuel as [|fuel]; [lia|]. simpl.
    pose proof (Hok i ltac:(lia)) as Hi.
    destruct (calls i) as [line err]. simpl in Hi. subst err.
    pose proof Hle as Hle'. apply Z.leb_le in Hle'. rewrite Hle'.
    set (st1 := logEvent _ st).
    destruct (IH (S i) (mainLine emailRegex (S_ line) st1) fuel)
      as (st' & Hrun & Hcount).
    + intros j Hj. apply Hok. lia.
    + by replace (S i + n) with (i + S n) by lia.
    + lia.
    + destruct (mainLine_logLineCount emailRegex (S_ line) st1) as [-> | ->];
        [exact Hle|].
      simpl. rewrite decr_no_underflow; unfold minInt, maxInt in *; lia.
    + destruct (mainLine_logLineCount emailRegex (S_ line) st1) as [-> | ->];
        simpl; [lia|].
      rewrite decr_no_underflow; unfold minInt, maxInt in *; lia.
    + exists st'. split; [exact Hrun|]. rewrite Hcount.
      unfold progressCount. rewrite mainLine_logged. simpl. lia.
Qed.

Lemma X19_main_logs_progress_on_every_round_witness :
  exists st',
    mainLoop emailTestCom 5 "b.log" (reads goodFile) 0 (initState 0 1)
    = Some st'
    /\ progressCount st' = progressCount (initState 0 1) + 1 + 1.
Proof.
  apply (X19_main_logs_progress_on_every_round emailTestCom "b.log"
           (reads goodFile) 1 0 (initState 0 1) 5).
  - intros j Hj. assert (j = 0) as -> by lia. reflexivity.
  - reflexivity.
  - lia.
  - simpl. lia.
  - unfold minInt. simpl. lia.
Defined.

Section Progress.

Variable emailRegex : bytes -> bool.
Variable ignoreRegex : bytes -> bool.
Variable logFrequency : Z.
Hypothesis logFrequency_range : (1 <= logFrequency <= maxInt)%Z.

Local Open Scope Z_scope.

Lemma progressCheck_inv st :
  progressInv logFrequency st ->
  progressInv logFrequency (progressCheck logFrequency st)
  /\ 1 <= logLineCount (progressCheck logFrequency st)
  /\ lineCount (progressCheck logFrequency st) = lineCount st.
Proof.
  intros [Hr Hs]. unfold progressCheck.
  destruct (logLineCount st <=? 0) eqn:E.
  - apply Z.leb_le in E. unfold progressInv, progressCount in *. simpl.
    repeat split; lia.
  - apply Z.leb_gt in E. unfold progressInv. repeat split; lia.
Qed.

Lemma record_logged o c st : logged (record o c st) = logged st.
Proof. unfold record. by destruct (_ !! _). Qed.

Lemma processLine_inv line st :
  progressInv logFrequency st -> 1 <= logLineCount st ->
  0 <= lineCount st < maxInt ->
  progressInv logFrequency (processLine emailRegex ignoreRegex line st)
  /\ lineCount st <= lineCount (processLine emailRegex ignoreRegex line st)
     <= lineCount st + 1.
Proof.
  intros [Hr Hs] H1 Hl. rewrite processLine_classify.
  assert (Hi : incr (lineCount st) = lineCount st + 1).
  { apply incr_no_overflow. unfold minInt. lia. }
  assert (Hd : decr (logLineCount st) = logLineCount st - 1).
  { apply decr_no_underflow. unfold minInt, maxInt in *. lia. }
  destruct (classify emailRegex ignoreRegex line) as [| |o c];
    unfold progressInv, progressCount in *; simpl.
  - rewrite Hi, Hd. lia.
  - lia.
  - destruct (record_other_fields o c st) as (F1 & _ & _ & _ & F5).
    rewrite record_logged, F1, F5, Hi, Hd. lia.
Qed.

Lemma afterLines_inv calls n : forall i st,
  progressInv logFrequency st ->
  0 <= lineCount st -> lineCount st + Z.of_nat n <= maxInt ->
  let st' := afterLines emailRegex ignoreRegex logFrequency calls n i st in
  progressInv logFrequency st'
  /\ lineCount st <= lineCount st' <= lineCount st + Z.of_nat n.
Proof.
  induction n as [|n IH]; intros i st Hinv H0 Hmax; cbn zeta.
  - simpl. split; [done|lia].
  - simpl.
    destruct (progressCheck_inv st Hinv) as (Hc & H1 & Hlc).
    destruct (processLine_inv (calls i).1 _ Hc H1) as [Hp Hl]; [lia|].
    rewrite Hlc in Hl.
    destruct (IH (S i) _ Hp) as [Hq Hl']; [lia..|].
    split; [exact Hq|]. lia.
Qed.

Lemma logEvent_inv e st :
  isProgress e = false ->
  progressInv logFrequency st -> progressInv logFrequency (logEvent e st).
Proof.
  intros He. unfold progressInv, progressCount. simpl. by rewrite He.
Qed.

Lemma processFile_inv fuel fs fileName e st :
  fileEnds fuel fs fileName e ->
  progressInv logFrequency st ->
  0 <= lineCount st -> lineCount st + Z.of_nat fuel <= maxInt ->
  exists st',
    processFile emailRegex ignoreRegex logFrequency fuel (fs fileName)
      fileName st = Some (Returned st')
    /\ progressInv logFrequency st'
    /\ lineCount st <= lineCount st' <= lineCount st + Z.of_nat fuel.
Proof.
  intros (calls & n & Hr & Hn & Hok & Hend) Hinv H0 Hmax.
  unfold processFile.
  set (st1 := if openFails (fs fileName) then _ else st).
  assert (H1 : progressInv logFrequency st1 /\ lineCount st1 = lineCount st).
  { subst st1. destruct (openFails (fs fileName)); [|done].
    split; [by apply logEvent_inv|done]. }
  destruct H1 as [H1 Hl1].
  rewrite (newReader_readerOf _ _ st1 _ Hr).
  set (st2 := logEvent (InfoReading fileName) st1).
  assert (H2 : progressInv logFrequency st2) by by apply logEvent_inv.
  destruct (afterLines_inv calls n 0%nat st2 H2) as [H3 Hl3];
    [simpl; lia..|].
  destruct (progressCheck_inv _ H3) as (H4 & _ & Hl4).
  simpl in Hl3. rewrite Hl1 in Hl3.
  destruct e.
  - rewrite (readLoop_eof _ _ _ fileName calls n) by done.
    eexists. split; [reflexivity|]. split.
    + apply logEvent_inv; [done|]. exact H4.
    + simpl. rewrite Hl4. lia.
  - rewrite (readLoop_read_error _ _ _ fileName calls n) by done.
    eexists. split; [reflexivity|]. split.
    + by apply logEvent_inv.
    + simpl. rewrite Hl4. lia.
Qed.

Lemma runFiles_inv fuel fs fileNames : forall ends st,
  Forall2 (fileEnds fuel fs) fileNames ends ->
  progressInv logFrequency st ->
  0 <= lineCount st ->
  lineCount st + Z.of_nat (length fileNames * fuel) <= maxInt ->
  exists st',
    runFiles emailRegex ignoreRegex logFrequency fuel fs fileNames st
    = Some (Returned st')
    /\ progressInv logFrequency st'.
Proof.
  induction fileNames as [|f rest IH]; intros ends st Hends Hinv H0 Hmax.
  - exists st. by split.
  - apply Forall2_cons_inv_l in Hends as (e & ends' & He & Hrest & ->).
    simpl in Hmax.
    destruct (processFile_inv fuel fs f e st He Hinv H0) as (st1 & Hp & H1 & Hl);
      [lia|].
    destruct (IH ends' st1 Hrest H1) as (st' & Hrun & H'); [lia..|].
    exists st'. split; [simpl; by rewrite Hp|exact H'].
Qed.

(** X20. When the workers of the concurrent variant run one after the
    other, with a [-logfrequency] of at least 1, a progress message is
    logged once per [logFrequency] counted lines: at the end of the run
    [lineCount] lies between [logFrequency] times the number of messages
    and that plus [logFrequency]. *)
Theorem X20_one_progress_message_per_logFrequency_lines :
  forall fuel fs fileNames ends,
    Forall2 (fileEnds fuel fs) fileNames ends ->
    Z.of_nat (length fileNames * fuel) <= maxInt ->
    exists st',
      runFiles emailRegex ignoreRegex logFrequency fuel fs fileNames
        (initState logFrequency (length fileNames)) = Some (Returned st')
      /\ logFrequency * Z.of_nat (progressCount st') <= lineCount st'
         <= logFrequency * Z.of_nat (progressCount st') + logFrequency.
Proof.
  intros fuel fs fileNames ends Hends Hmax.
  destruct (runFiles_inv fuel fs fileNames ends
              (initState logFrequency (length fileNames)) Hends)
    as (st' & Hrun & [Hr Hs]).
  - unfold progressInv, progressCount. simpl. lia.
  - simpl. lia.
  - simpl. lia.
  - exists st'. split; [exact Hrun|]. lia.
Qed.

End Progress.

Lemma X20_one_progress_message_per_logFrequency_lines_witness :
  exists st',
    runFiles emailTestCom ignoreEmpty 1 5 halfBrokenDir
      ["a.log"; "b.log"]%string (initState 1 2) = Some (Returned st')
    /\ (1 * Z.of_nat (progressCount st') <= lineCount st'
        <= 1 * Z.of_nat (progressCount st') + 1)%Z.
Proof.
  apply (X20_one_progress_message_per_logFrequency_lines emailTestCom
           ignoreEmpty 1 ltac:(unfold maxInt; lia) 5
           halfBrokenDir ["a.log"; "b.log"]%string [IOErr; EOF]).
  - repeat constructor.
    + exists (reads brokenAfterOneLine), 1.
      split; [reflexivity|]. split; [lia|]. split; [|reflexivity].
      intros j Hj. assert (j = 0) as -> by lia. reflexivity.
    + exists (reads goodFile), 1.
      split; [reflexivity|]. split; [lia|]. split; [|reflexivity].
      intros j Hj. assert (j = 0) as -> by lia. reflexivity.
  - unfold maxInt. simpl. lia.
Defined.

(** ** A run is the fold of its lines *)

Section Runs.

Variable emailRegex : bytes -> bool.
Variable logFrequency : Z.

Lemma recordSeq_aggregation o c st1 st2 :
  aggregation st1 = aggregation st2 ->
  aggregation (recordSeq o c st1) = aggregation (recordSeq o c st2).
Proof.
  unfold aggregation. intros [= E1 E2 E3 E4 E5]. unfold recordSeq.
  rewrite E1. destruct (emails st2 !! o); simpl; congruence.
Qed.

Lemma mainLine_aggregation line st1 st2 :
  aggregation st1 = aggregation st2 ->
  aggregation (mainLine emailRegex line st1)
  = aggregation (mainLine emailRegex line st2).
Proof.
  intros H. unfold mainLine.
  destruct (FindStringSubmatch lineMatch line) as [m|].
  - cbn zeta. destruct (_ && _).
    + unfold aggregation in *. simpl. congruence.
    + set (a1 := setMatchCount _ st1). set (a2 := setMatchCount _ st2).
      assert (Ha : aggregation a1 = aggregation a2).
      { unfold aggregation in *. subst a1 a2. simpl. congruence. }
      destruct (emailRegexMatchString emailRegex (idx m 1)).
      * pose proof (recordSeq_aggregation (idx m 1) (idx m 2) _ _ Ha) as Hr.
        unfold aggregation in *. simpl. congruence.
      * pose proof (recordSeq_aggregation (idx m 2) (idx m 1) _ _ Ha) as Hr.
        unfold aggregation in *. simpl. congruence.
  - unfold aggregation in *. simpl. congruence.
Qed.

Lemma mainLines_aggregation lines : forall st1 st2,
  aggregation st1 = aggregation st2 ->
  aggregation (mainLines emailRegex lines st1)
  = aggregation (mainLines emailRegex lines st2).
Proof.
  induction lines as [|l lines IH]; intros st1 st2 H; simpl; [exact H|].
  apply IH. by apply mainLine_aggregation.
Qed.

Lemma mainLines_app l1 l2 st :
  mainLines emailRegex (l1 ++ l2) st
  = mainLines emailRegex l2 (mainLines emailRegex l1 st).
Proof. unfold mainLines. by rewrite foldl_app. Qed.

Lemma progressLog_aggregation st :
  aggregation
    (if (logLineCount st <=? 0)%Z then
       logEvent (InfoProgress (lineCount st) (matchCount st)
                   (ignoreCount st) 0) st
     else st)
  = aggregation st.
Proof. by destruct (_ <=? 0)%Z. Qed.

Lemma gzMainLoop_run fileName calls e n : forall i st fuel,
  (forall j, i <= j < i + n -> (calls j).2 = None) ->
  (calls (i + n)).2 = Some e ->
  n < fuel ->
  exists st',
    gzMainLoop emailRegex fuel fileName (Some calls) i st = Some (Returned st')
    /\ aggregation st'
       = aggregation
           (mainLines emailRegex (map (fun j => (calls j).1) (seq i n)) st).
Proof.
  induction n as [|n IH]; intros i st fuel Hok Hend Hfuel;
    (destruct fuel as [|fuel]; [lia|]); simpl.
  - rewrite Nat.add_0_r in Hend.
    destruct (calls i) as [line err]. simpl in Hend. subst err.
    destruct e; eexists; (split; [reflexivity|]);
      apply progressLog_aggregation.
  - pose proof (Hok i ltac:(lia)) as Hi.
    destruct (calls i) as [line err]. simpl in Hi. subst err.
    edestruct (IH (S i)) as (st' & -> & Hagg).
    + intros j Hj. apply Hok. lia.
    + by replace (S i + n) with (i + S n) by lia.
    + apply Nat.succ_lt_mono, Hfuel.
    + exists st'. split; [reflexivity|]. rewrite Hagg.
      apply mainLines_aggregation, mainLine_aggregation,
        progressLog_aggregation.
Qed.

Lemma mainLoop_run fileName calls n : forall i st fuel,
  (forall j, i <= j < i + n -> (calls j).2 <> Some EOF) ->
  (calls (i + n)).2 = Some EOF ->
  n < fuel ->
  exists st',
    mainLoop emailRegex fuel fileName calls i st = Some st'
    /\ aggregation st'
       = aggregation
           (mainLines emailRegex (map (fun j => (calls j).1) (seq i n)) st).
Proof.
  induction n as [|n IH]; intros i st fuel Hok Hend Hfuel;
    (destruct fuel as [|fuel]; [lia|]); simpl.
  - rewrite Nat.add_0_r in Hend.
    destruct (calls i) as [line err]. simpl in Hend. subst err.
    eexists. split; [reflexivity|]. apply progressLog_aggregation.
  - pose proof (Hok i ltac:(lia)) as Hi.
    destruct (calls i) as [line [[|]|]]; simpl in Hi; [done| |].
    + edestruct (IH (S i)) as (st' & -> & Hagg).
      * intros j Hj. apply Hok. lia.
      * by replace (S i + n) with (i + S n) by lia.
      * apply Nat.succ_lt_mono, Hfuel.
      * exists st'. split; [reflexivity|]. rewrite Hagg.
        apply mainLines_aggregation, mainLine_aggregation.
        etrans; [|apply progressLog_aggregation]. reflexivity.
    + edestruct (IH (S i)) as (st' & -> & Hagg).
      * intros j Hj. apply Hok. lia.
      * by replace (S i + n) with (i + S n) by lia.
      * apply Nat.succ_lt_mono, Hfuel.
      * exists st'. split; [reflexivity|]. rewrite Hagg.
        apply mainLines_aggregation, mainLine_aggregation,
          progressLog_aggregation.
Qed.

(** X21. A run of the sequential variant with gzip support over files that
    all get a reader returns, and its map and counters are those of folding
    the per-line step, in order, over the lines each file yielded before
    its reads ended, with [io.EOF] or with another error. *)
Theorem X21_gzip_variant_run_is_the_fold_of_its_lines :
  forall fuel fs fileNames runs st,
    Forall2 (fileReads fuel fs) fileNames runs ->
    exists st',
      gzMainFiles emailRegex logFrequency fuel fs fileNames st
      = Some (Returned st')
      /\ aggregation st'
         = aggregation
             (mainLines emailRegex
                (flat_map (fun r : FileReads => linesRead r.1.1 r.1.2) runs)
                st).
Proof.
  intros fuel fs fileNames runs st Hruns. revert st.
  induction Hruns as [|f [[calls n] e] rest runs (Hr & Hn & Hok & Hend) _ IH];
    intros st; simpl in *.
  - by exists st.
  - rewrite (newReader_readerOf _ _ _ _ Hr).
    edestruct (gzMainLoop_run f calls e n 0) as (st1 & -> & H1);
      [intros j Hj; apply Hok; lia|exact Hend|exact Hn|].
    destruct (IH st1) as (st' & Hrun & H'). exists st'.
    split; [exact Hrun|]. rewrite H'.
    unfold mainLines at 2. rewrite foldl_app.
    apply mainLines_aggregation. rewrite H1.
    apply mainLines_aggregation.
    by destruct (openFails (fs f)).
Qed.

(** X22. A run of [main.go] over files whose reads reach [io.EOF]
    returns, and its map and counters are those of folding the per-line
    step over what every read before the end of each file returned,
    whether the read failed or not. *)
Theorem X22_main_run_is_the_fold_of_every_read :
  forall fuel fs fileNames ns st,
    Forall2 (mainReads fuel fs) fileNames ns ->
    exists st',
      mainFiles emailRegex logFrequency fuel fs fileNames st = Some st'
      /\ aggregation st'
         = aggregation
             (mainLines emailRegex
                (flat_map (fun fn : string * nat =>
                             linesRead (reads (fs fn.1)) fn.2)
                   (zip fileNames ns))
                st).
Proof.
  intros fuel fs fileNames ns st Hruns. revert st.
  induction Hruns as [|f n rest ns (Hn & Hok & Hend) _ IH]; intros st;
    simpl in *.
  - by exists st.
  - edestruct (mainLoop_run f (reads (fs f)) n 0) as (st1 & -> & H1);
      [intros j Hj; apply Hok; lia|exact Hend|exact Hn|].
    destruct (IH st1) as (st' & Hrun & H'). exists st'.
    split; [exact Hrun|]. rewrite H'.
    unfold mainLines at 2. rewrite foldl_app.
    apply mainLines_aggregation. rewrite H1.
    apply mainLines_aggregation.
    by destruct (openFails (fs f)).
Qed.

End Runs.

Lemma X21_gzip_variant_run_is_the_fold_of_its_lines_witness :
  exists st',
    gzMainFiles emailTestCom 100 5 halfBrokenDir ["a.log"; "b.log"]%string
      (initState 100 2) = Some (Returned st')
    /\ aggregation st'
       = aggregation
           (mainLines emailTestCom
              (flat_map (fun r : FileReads => linesRead r.1.1 r.1.2)
                 [(reads brokenAfterOneLine, 1, IOErr);
                  (reads goodFile, 1, EOF)])
              (initState 100 2)).
Proof.
  apply (X21_gzip_variant_run_is_the_fold_of_its_lines emailTestCom 100 5
           halfBrokenDir ["a.log"; "b.log"]%string
           [(reads brokenAfterOneLine, 1, IOErr); (reads goodFile, 1, EOF)]
           (initState 100 2)).
  repeat constructor; simpl;
    intros j Hj; assert (j = 0) as -> by lia; reflexivity.
Defined.

Lemma X22_main_run_is_the_fold_of_every_read_witness :
  exists st',
    mainFiles emailTestCom 100 5 flakyDir ["a.log"; "b.log"]%string
      (initState 100 2) = Some st'
    /\ aggregation st'
       = aggregation
           (mainLines emailTestCom
              (flat_map (fun fn : string * nat =>
                           linesRead (reads (flakyDir fn.1)) fn.2)
                 (zip ["a.log"; "b.log"]%string [2; 1]))
              (initState 100 2)).
Proof.
  apply (X22_main_run_is_the_fold_of_every_read emailTestCom 100 5
           flakyDir ["a.log"; "b.log"]%string [2; 1] (initState 100 2)).
  repeat constructor; simpl; try lia;
    intros j Hj; destruct j as [|[|j]]; simpl; try done; lia.
Defined.

(** ** Which markers the pattern picks *)

Module GreedyFacts.
Import RegexpSpec RegexpFacts LineParserProofs.

Lemma plusLoop_None {A} cl (k : bytes -> option A) d : forall rest,
  plusLoop cl k (d ++ rest) = None ->
  d <> [] -> Forall (fun x => cmatch cl x = true) d -> k rest = None.
Proof.
  induction d as [|y d IH]; intros rest Hl Hne Hall; [done|].
  inversion Hall as [|? ? Hy Hd]; subst. simpl in Hl. rewrite Hy in Hl.
  destruct (plusLoop cl k (d ++ rest)) eqn:E; [discriminate|].
  destruct d as [|z d']; [exact Hl|].
  by apply IH.
Qed.

(** The greedy loop returns the result of the longest prefix after which
    the continuation succeeds. *)
Lemma plusLoop_max {A} cl (k : bytes -> option A) s a :
  plusLoop cl k s = Some a ->
  exists p rest, s = p ++ rest /\ p <> [] /\
    Forall (fun x => cmatch cl x = true) p /\ k rest = Some a /\
    forall d rest', d <> [] -> rest = d ++ rest' ->
      Forall (fun x => cmatch cl x = true) d -> k rest' = None.
Proof.
  revert a. induction s as [|x s IH]; intros a; simpl; [discriminate|].
  destruct (cmatch cl x) eqn:Hx; [|discriminate].
  destruct (plusLoop cl k s) as [r|] eqn:Hl.
  - intros [= <-].
    destruct (IH r eq_refl) as (p & rest & -> & _ & Hp & Hk & Hmax).
    exists (x :: p), rest. repeat split; auto; discriminate.
  - intros Hk. exists [x], s. repeat split; auto; try discriminate.
    intros d rest' Hne -> Hd. by apply (plusLoop_None cl k d).
Qed.

Lemma matches_RLit l : forall p caps caps',
  matches (RLit l) p caps caps' -> p = l /\ caps' = caps.
Proof.
  induction l as [|c l IH]; intros p caps caps' H; simpl in H.
  - by inversion H.
  - inversion H as [| | |r1 r2 p1 p2 c0 c1 c2 H1 H2|]; subst.
    inversion H1 as [|cl x c0' Hx| | |]; subst. apply cmatch_char in Hx as ->.
    apply IH in H2 as [-> ->]. done.
Qed.

Lemma matches_RLit_intro l caps : matches (RLit l) l caps caps.
Proof.
  induction l as [|c l IH]; simpl; [constructor|].
  change (c :: l) with ([c] ++ l). econstructor; [|exact IH].
  constructor. simpl. apply Ascii.eqb_refl.
Qed.

Lemma matches_token n p caps caps' :
  matches (RCap n (RPlus CNotSpace)) p caps caps' ->
  isToken p /\ caps' = <[n := p]> caps.
Proof.
  intros H. inversion H as [| | | |n' r' p' c0 c1 H1]; subst.
  inversion H1 as [| |cl p' c0' Hne Hall| |]; subst.
  split; [|done]. split; [done|]. by apply cmatch_notspace_iff.
Qed.

Lemma matches_token_intro n p caps :
  isToken p -> matches (RCap n (RPlus CNotSpace)) p caps (<[n := p]> caps).
Proof.
  intros [Hne Hall]. do 2 constructor; [done|]. by apply cmatch_notspace_iff.
Qed.

Lemma rmatch_cat {A} r1 r2 s caps (k : bytes -> list bytes -> option A) :
  rmatch (RCat r1 r2) s caps k
  = rmatch r1 s caps (fun s1 caps1 => rmatch r2 s1 caps1 k).
Proof. reflexivity. Qed.

Lemma rmatch_plus {A} cl s caps (k : bytes -> list bytes -> option A) :
  rmatch (RPlus cl) s caps k = plusLoop cl (fun s' => k s' caps) s.
Proof. reflexivity. Qed.

(** The match of [lineMatch] at the start of [s0], with what the two
    greedy [.+] rule out: no longer text before [<=] and no longer text
    before [for] is followed by a match of the rest of the pattern. *)
Lemma matchHere_lineMatch_max s0 m :
  matchHere lineMatch s0 = Some m ->
  exists pre from mid to rest,
    s0 = pre ++ B " <= " ++ from ++ B " " ++ mid ++ B " for " ++ to ++ rest
    /\ idx m 1 = from /\ idx m 2 = to
    /\ (forall d p tail c',
          d <> [] -> noNewline d ->
          B " <= " ++ from ++ B " " ++ mid ++ B " for " ++ to ++ rest
          = d ++ p ++ tail ->
          matches afterPre p (replicate 3 []) c' -> False)
    /\ (forall d p tail c',
          d <> [] -> noNewline d ->
          B " for " ++ to ++ rest = d ++ p ++ tail ->
          matches afterMid p (<[1 := from]> (replicate 3 [])) c' -> False).
Proof.
  unfold matchHere.
  change (replicate (S (numSubexp lineMatch)) []) with (replicate 3 ([] : bytes)).
  set (kfin := fun (rest : bytes) (caps : list bytes) =>
                 Some (<[0 := take (length s0 - length rest) s0]> caps)).
  change lineMatch with (RCat (RPlus CAnyNotNL) afterPre).
  rewrite rmatch_cat, rmatch_plus. intros H.
  apply plusLoop_max in H as (pre & rest1 & Hs0 & _ & _ & H & Hmax1).
  unfold afterPre in H. rewrite rmatch_cat in H.
  apply rmatch_sound in H as (p1 & rest2 & c1 & -> & Hm1 & H).
  apply matches_RLit in Hm1 as [-> ->].
  rewrite rmatch_cat in H.
  apply rmatch_sound in H as (from & rest3 & c2 & -> & Hm2 & H).
  apply matches_token in Hm2 as [Hfrom ->].
  rewrite rmatch_cat in H.
  apply rmatch_sound in H as (p3 & rest4 & c3 & -> & Hm3 & H).
  apply matches_RLit in Hm3 as [-> ->].
  rewrite rmatch_cat, rmatch_plus in H.
  apply plusLoop_max in H as (mid & rest5 & -> & _ & _ & H & Hmax2).
  unfold afterMid in H. rewrite rmatch_cat in H.
  apply rmatch_sound in H as (p5 & rest6 & c5 & -> & Hm5 & H).
  apply matches_RLit in Hm5 as [-> ->].
  apply rmatch_sound in H as (to & rest & c6 & -> & Hm6 & H).
  apply matches_token in Hm6 as [Hto ->].
  subst kfin. simpl in H. injection H as <-.
  exists pre, from, mid, to, rest.
  split; [exact Hs0|].
  split; [reflexivity|]. split; [reflexivity|]. split.
  - intros d p tail c' Hd Hnl Heq Hm.
    assert (Hsome : is_Some (rmatch afterPre (p ++ tail) (replicate 3 [])
              (fun rest caps =>
                 Some (<[0 := take (length s0 - length rest) s0]> caps)))).
    { eapply rmatch_complete; [exact Hm|]. eauto. }
    rewrite (Hmax1 d (p ++ tail) Hd) in Hsome.
    + by destruct Hsome.
    + exact Heq.
    + by apply cmatch_any_iff.
  - intros d p tail c' Hd Hnl Heq Hm.
    assert (Hsome : is_Some (rmatch afterMid (p ++ tail)
              (<[1 := from]> (replicate 3 []))
              (fun rest caps =>
                 Some (<[0 := take (length s0 - length rest) s0]> caps)))).
    { eapply rmatch_complete; [exact Hm|]. eauto. }
    rewrite (Hmax2 d (p ++ tail) Hd) in Hsome.
    + by destruct Hsome.
    + exact Heq.
    + by apply cmatch_any_iff.
Qed.

Lemma matches_afterMid_intro x caps :
  isSpace x = false ->
  matches afterMid (B " for " ++ [x]) caps (<[2 := [x]]> caps).
Proof.
  intros Hx. unfold afterMid.
  eapply (MCat _ _ (B " for ")); [apply matches_RLit_intro|].
  apply matches_token_intro. split; [done|]. by constructor.
Qed.

Lemma matches_afterPre_intro f m x caps :
  isToken f -> m <> [] -> noNewline m -> isSpace x = false ->
  matches afterPre (B " <= " ++ f ++ B " " ++ m ++ B " for " ++ [x]) caps
    (<[2 := [x]]> (<[1 := f]> caps)).
Proof.
  intros Hf Hm Hnl Hx. unfold afterPre.
  eapply (MCat _ _ (B " <= ")); [apply matches_RLit_intro|].
  eapply MCat; [by apply matches_token_intro|].
  eapply (MCat _ _ (B " ")); [apply matches_RLit_intro|].
  eapply MCat; [|by apply matches_afterMid_intro].
  constructor; [done|]. by apply cmatch_any_iff.
Qed.

End GreedyFacts.

Lemma FindSubmatch_here r s m :
  FindSubmatch r s = Some m ->
  exists skipped s0, s = skipped ++ s0 /\ matchHere r s0 = Some m.
Proof.
  induction s as [|x s IH]; simpl.
  - destruct (matchHere r []) eqn:E; [|discriminate].
    intros [= <-]. by exists [], [].
  - destruct (matchHere r (x :: s)) eqn:E.
    + intros [= <-]. by exists [], (x :: s).
    + intros H. destruct (IH H) as (skipped & s0 & -> & Hm).
      by exists (x :: skipped), s0.
Qed.

Lemma newlineAtEndOnly_prefix u v :
  newlineAtEndOnly (u ++ v) -> v <> [] -> noNewline u.
Proof.
  intros Hend Hv. apply Forall_forall. intros c Hc ->.
  apply list_elem_of_split in Hc as (u1 & u2 & ->).
  specialize (Hend u1 (u2 ++ v)). rewrite <- app_assoc in Hend.
  specialize (Hend eq_refl). apply app_eq_nil in Hend as [_ ?]. done.
Qed.

Lemma app_longer {A} (l1 r1 l2 r2 : list A) :
  l1 ++ r1 = l2 ++ r2 -> length l1 < length l2 ->
  exists d, d <> [] /\ l2 = l1 ++ d /\ r1 = d ++ r2.
Proof.
  intros Heq Hlen. apply app_eq_inv in Heq as [(k & -> & ->)|(k & -> & ->)].
  - rewrite length_app in Hlen. lia.
  - exists k. split; [|done]. intros ->. rewrite app_nil_r in Hlen. lia.
Qed.

Lemma isLine_newlineAtEndOnly line : isLine line -> newlineAtEndOnly line.
Proof.
  intros (body & -> & Hnl) a b Heq.
  apply app_eq_inv in Heq as [(k & -> & Hk)|(k & -> & Hk)].
  - destruct k as [|c k]; [by injection Hk as <-|].
    injection Hk as <- _. apply Forall_app in Hnl as [_ Hnl].
    by inversion Hnl.
  - destruct k as [|c k]; [by injection Hk as <-|].
    injection Hk as _ Hk. by destruct k.
Qed.

(** X23. When a line read by [ReadBytes] holds several [<=] or [for]
    markers, the greedy [.+] of the pattern pick the last ones: the
    recipient is the token after the last [for] marker that is followed by
    a token, and the sender is the token after the last [<=] marker that is
    still followed by a token, a space, some text and such a [for]
    marker. *)
Theorem X23_last_markers_win :
  forall line from to,
    newlineAtEndOnly line ->
    lineParser line = Some (from, to) ->
    exists pre mid rest,
      line = pre ++ B " <= " ++ from ++ B " " ++ mid ++ B " for " ++ to ++ rest
      /\ (forall a f m x b,
             line = a ++ B " <= " ++ f ++ B " " ++ m ++ B " for " ++ x :: b ->
             isToken f -> m <> [] -> isSpace x = false ->
             length a <= length pre)
      /\ (forall a x b,
             line = a ++ B " for " ++ x :: b -> isSpace x = false ->
             length a <= length (pre ++ B " <= " ++ from ++ B " " ++ mid)).
Proof.
  intros line from to Hnl Hp.
  apply lineParser_Some in Hp as (m0 & Hm & <- & <-).
  apply FindSubmatch_here in Hm as (skipped & s0 & -> & Hm).
  apply GreedyFacts.matchHere_lineMatch_max in Hm
    as (pre & from & mid & to & rest & -> & -> & -> & Hmax1 & Hmax2).
  exists (skipped ++ pre), mid, rest.
  split; [by rewrite <- app_assoc|]. split.
  - intros a f m x b Heq Hf Hm Hx.
    destruct (le_lt_dec (length a) (length (skipped ++ pre))) as [|Hlt];
      [done|exfalso].
    rewrite app_assoc in Heq.
    apply app_longer in Heq as (d & Hd & -> & Heq); [|exact Hlt].
    assert (Hnl' : noNewline
              (((skipped ++ pre) ++ d) ++ B " <= " ++ f ++ B " " ++ m)).
    { apply (newlineAtEndOnly_prefix _ (B " for " ++ x :: b)); [|done].
      rewrite Heq in Hnl. revert Hnl. by rewrite <- !app_assoc. }
    apply Forall_app in Hnl' as [Hnl1 Hnl2].
    apply Forall_app in Hnl1 as [_ Hnld].
    apply Forall_app in Hnl2 as [_ Hnl2].
    apply Forall_app in Hnl2 as [_ Hnl2].
    apply Forall_app in Hnl2 as [_ Hnlm].
    eapply (Hmax1 d (B " <= " ++ f ++ B " " ++ m ++ B " for " ++ [x]) b);
      [exact Hd|exact Hnld| |].
    + rewrite Heq. by rewrite <- !app_assoc.
    + by apply GreedyFacts.matches_afterPre_intro.
  - intros a x b Heq Hx.
    destruct (le_lt_dec (length a)
                (length ((skipped ++ pre) ++ B " <= " ++ from ++ B " " ++ mid)))
      as [|Hlt]; [done|exfalso].
    assert (Heq' : ((skipped ++ pre) ++ B " <= " ++ from ++ B " " ++ mid)
                   ++ B " for " ++ to ++ rest
                   = a ++ B " for " ++ x :: b).
    { rewrite <- Heq. by rewrite <- !app_assoc. }
    apply app_longer in Heq' as (d & Hd & -> & Heq'); [|exact Hlt].
    assert (Hnl' : noNewline
              (((skipped ++ pre) ++ B " <= " ++ from ++ B " " ++ mid) ++ d)).
    { apply (newlineAtEndOnly_prefix _ (B " for " ++ x :: b)); [|done].
      by rewrite <- Heq. }
    apply Forall_app in Hnl' as [_ Hnld].
    eapply (Hmax2 d (B " for " ++ [x]) b); [exact Hd|exact Hnld| |].
    + rewrite Heq'. by rewrite <- !app_assoc.
    + by apply GreedyFacts.matches_afterMid_intro.
Qed.

Lemma X23_last_markers_win_witness :
  lineParser (nl "t <= a@one x <= b@two y for c@three z for d@four")
  = Some (B "b@two", B "d@four")
  /\ exists pre mid rest,
       nl "t <= a@one x <= b@two y for c@three z for d@four"
       = pre ++ B " <= " ++ B "b@two" ++ B " " ++ mid
           ++ B " for " ++ B "d@four" ++ rest
       /\ (forall a f m x b,
              nl "t <= a@one x <= b@two y for c@three z for d@four"
              = a ++ B " <= " ++ f ++ B " " ++ m ++ B " for " ++ x :: b ->
              isToken f -> m <> [] -> isSpace x = false ->
              length a <= length pre)
       /\ (forall a x b,
              nl "t <= a@one x <= b@two y for c@three z for d@four"
              = a ++ B " for " ++ x :: b -> isSpace x = false ->
              length a
              <= length (pre ++ B " <= " ++ B "b@two" ++ B " " ++ mid)).
Proof.
  split; [vm_compute; reflexivity|].
  apply (X23_last_markers_win
           (nl "t <= a@one x <= b@two y for c@three z for d@four")
           (B "b@two") (B "d@four")).
  - apply isLine_newlineAtEndOnly, isLine_nl. reflexivity.
  - vm_compute. reflexivity.
Defined.

Lemma X12_comma_in_address_splits_witness :
  writeLine "alice@test.com" ["x,y@other.com"; "bob@other.com"]%string
  = writeLine "alice@test.com" ["x"; "y@other.com"; "bob@other.com"]%string
  /\ parseOutput
       (writeEmails
          [("alice@test.com", ["x,y@other.com"; "bob@other.com"])]%string)
     = [("alice@test.com", ["x"; "y@other.com"; "bob@other.com"])]%string.
Proof.
  apply (X12_comma_in_address_splits "alice@test.com" "x" "y@other.com"
           ["bob@other.com"%string]);
    repeat constructor; by_computation.
Defined.
